(** * pyNastran dev_vectorized solver: DOF bookkeeping, assembly and solve

    A shallow embedding of the index and partition logic of
    [pyNastran/bdf/dev_vectorized/solver/solver.py] (class [Solver]).

    Conventions of the embedding:
    - Python integers are [Z]; positions produced by [enumerate] and
      [range(len(..))] are [nat].
    - numpy vectors are [list R] and dense matrices are lists of rows.
      Indexing follows numpy: a negative index wraps around once, anything
      else out of range raises [IndexError].
    - float64 scalars are an abstract type [R] carrying the operations the
      solver uses (class [Float64]).  No rounding law is assumed anywhere;
      where a statement needs an arithmetic law it is listed as a
      hypothesis of that statement.  Two instances are given: exact
      rationals ([Qexact]) and IEEE 754 binary64 ([Binary64]).
    - exceptions are the [Raise] branch of [result]; attribute mutation of
      [self] is explicit state passing on the record [Solver].
    - [self.log.*] calls only format text for the logger and are left out. *)

From Stdlib Require Import ZArith QArith Qabs Permutation.
From Stdlib Require SpecFloat.
From stdpp Require Import base option list sorting gmap sets strings.

Local Open Scope Z_scope.

(** ** Python results and exceptions *)

Inductive exn : Type :=
  | AssertionError (msg : string)
  | NotImplementedError (msg : string)
  | NameError (name : string)
  | TypeError
  | IndexError
  | KeyError
  | ValueError
  | LinAlgError.

Inductive result (A : Type) : Type :=
  | Ok (a : A)
  | Raise (e : exn).
Arguments Ok {A} a.
Arguments Raise {A} e.

#[global] Instance result_ret : MRet result := λ A a, Ok a.
#[global] Instance result_bind : MBind result := λ A B f m,
  match m with
  | Ok a => f a
  | Raise e => Raise e
  end.

#[global] Instance result_fmap : FMap result := λ A B f m,
  match m with
  | Ok a => Ok (f a)
  | Raise e => Raise e
  end.

Definition from_option {A} (e : exn) (o : option A) : result A :=
  match o with
  | Some a => Ok a
  | None => Raise e
  end.

(** [for x in xs: acc = body(acc, x)], stopping at the first exception. *)
Fixpoint for_each {A S} (body : S → A → result S) (xs : list A) (s : S)
    : result S :=
  match xs with
  | [] => Ok s
  | x :: xs' => s' ← body s x ; for_each body xs' s'
  end.

(** [enumerate(xs)] *)
Definition enumerate {A} (xs : list A) : list (nat * A) :=
  zip (seq 0 (length xs)) xs.

(** ** float64 scalars *)

Class Float64 (R : Type) : Type := {
  zero : R;                  (* 0.0 *)
  add : R → R → R;
  sub : R → R → R;
  mul : R → R → R;
  div : R → R → R;
  neg : R → R;
  fabs : R → R;              (* abs(x) *)
  feqb : R → R → bool;       (* x == y *)
  fltb : R → R → bool;       (* x < y *)
  to_f32 : R → R;            (* storage in an array of dtype='float32' *)
  nan_to_num : R → R         (* numpy.nan_to_num on one entry *)
}.

(** numpy arrays of rank one and two. *)
Abbreviation vector R := (list R) (only parsing).
Abbreviation matrix R := (list (list R)) (only parsing).

Section Arrays.
Context {R : Type}.

(** numpy / list index resolution on an axis of length [n]. *)
Definition py_index (n : nat) (i : Z) : option nat :=
  if decide (0 ≤ i < Z.of_nat n) then Some (Z.to_nat i)
  else if decide (- Z.of_nat n ≤ i < 0) then Some (Z.to_nat (Z.of_nat n + i))
  else None.

(** [v[i]] for a position that is already a natural number. *)
Definition getitem (v : list R) (i : nat) : result R :=
  from_option IndexError (v !! i).

(** [M[i, j]] with natural positions. *)
Definition getitem2 (M : matrix R) (i j : nat) : result R :=
  from_option IndexError (M !! i ≫= (.!! j)).

(** Resolution of the pair [i, j] against the shape of [M]. *)
Definition py_index2 (M : matrix R) (i j : Z) : option (nat * nat) :=
  r ← py_index (length M) i;
  row ← M !! r;
  c ← py_index (length row) j;
  Some (r, c).

(** [M[i, j] = f(M[i, j])], in place. *)
Definition alter2 (f : R → R) (M : matrix R) (r c : nat) : matrix R :=
  alter (alter f c) r M.

(** [M[i, j] = x] *)
Definition setitem2Z (M : matrix R) (i j : Z) (x : R) : result (matrix R) :=
  '(r, c) ← from_option IndexError (py_index2 M i j) ;
  Ok (alter2 (λ _, x) M r c).

(** [v[ilist]] : fancy indexing with a list of positions. *)
Definition take_items {A} (v : list A) (ilist : list nat) : result (list A) :=
  from_option IndexError (mapM (λ i, v !! i) ilist).

(** [K[ilist, :]] *)
Definition take_rows (K : matrix R) (ilist : list nat) : result (matrix R) :=
  take_items K ilist.

(** [K[:, ilist]] *)
Definition take_cols (K : matrix R) (ilist : list nat) : result (matrix R) :=
  from_option IndexError (mapM (λ row : list R, mapM (λ j, row !! j) ilist) K).

Definition is_square (n : nat) (M : matrix R) : Prop :=
  length M = n ∧ Forall (λ row, length row = n) M.

Definition symmetric (M : matrix R) : Prop :=
  ∀ i j : nat, M !! i ≫= (.!! j) = M !! j ≫= (.!! i).
End Arrays.

(** [zeros(n)] and [zeros((n, m))] *)
Definition zeros {R} `{Float64 R} (n : nat) : vector R := replicate n zero.
Definition zeros2 {R} `{Float64 R} (n m : nat) : matrix R :=
  replicate n (replicate m zero).

(** ** The DOF sets held by the solver (attributes [self.U*], [self.iU*]) *)

(** Sets filled before [build_dof_sets] runs; all start as [[]] in
    [Solver.__init__]. *)
Record BaseSets (R : Type) : Type := {
  Usb : list R;  iUsb : list Z;
  Usg : list R;  iUsg : list Z;
  Ump : list R;  iUmp : list Z;  jUmp : list Z;
  Umr : list R;  iUmr : list Z;  jUmr : list Z;
  Ub : list R;   iUb : list Z;
  Uc : list R;   iUc : list Z;
  Ue : list R;   iUe : list Z;
  Uj : list R;   iUj : list Z;
  Uk : list R;   iUk : list Z;
  Ulm : list R;  iUlm : list Z;
  Uq : list R;   iUq : list Z;
  Ur : list R;   iUr : list Z;
  Uo : list R;   iUo : list Z;
  Usa : list R;  iUsa : list Z
}.
Arguments Usb {R} _. Arguments iUsb {R} _. Arguments Usg {R} _.
Arguments iUsg {R} _. Arguments Ump {R} _. Arguments iUmp {R} _.
Arguments jUmp {R} _. Arguments Umr {R} _. Arguments iUmr {R} _.
Arguments jUmr {R} _. Arguments Ub {R} _. Arguments iUb {R} _.
Arguments Uc {R} _. Arguments iUc {R} _. Arguments Ue {R} _.
Arguments iUe {R} _. Arguments Uj {R} _. Arguments iUj {R} _.
Arguments Uk {R} _. Arguments iUk {R} _. Arguments Ulm {R} _.
Arguments iUlm {R} _. Arguments Uq {R} _. Arguments iUq {R} _.
Arguments Ur {R} _. Arguments iUr {R} _. Arguments Uo {R} _.
Arguments iUo {R} _. Arguments Usa {R} _. Arguments iUsa {R} _.

(** Sets assigned by [build_dof_sets].  Before its first run [Us], [iUs],
    [Um], [iUm], [jUm] are [None] and the other attributes do not exist:
    that state is [derived = None] in [Solver]. *)
Record DerivedSets (R : Type) : Type := {
  Us : list R;   iUs : list Z;
  Ul : list R;   iUl : list Z;
  Ut : list R;   iUt : list Z;
  Ua : list R;   iUa : list Z;
  Ud : list R;   iUd : list Z;
  Uf : list R;   iUf : list Z;
  Ufe : list R;  iUfe : list Z;
  Un : list R;   iUn : list Z;
  Une : list R;  iUne : list Z;
  Um : list R;   iUm : list Z;  jUm : list Z;
  Ug : list R;   iUg : list Z;
  Up : list R;   iUp : list Z;
  Uks : list R;  iUks : list Z;
  Ujs : list R;  iUjs : list Z;
  Ufr : list R;  iUfr : list Z;
  Uv : list R;   iUv : list Z
}.
Arguments Us {R} _. Arguments iUs {R} _. Arguments Ul {R} _.
Arguments iUl {R} _. Arguments Ut {R} _. Arguments iUt {R} _.
Arguments Ua {R} _. Arguments iUa {R} _. Arguments Ud {R} _.
Arguments iUd {R} _. Arguments Uf {R} _. Arguments iUf {R} _.
Arguments Ufe {R} _. Arguments iUfe {R} _. Arguments Un {R} _.
Arguments iUn {R} _. Arguments Une {R} _. Arguments iUne {R} _.
Arguments Um {R} _. Arguments iUm {R} _. Arguments jUm {R} _.
Arguments Ug {R} _. Arguments iUg {R} _. Arguments Up {R} _.
Arguments iUp {R} _. Arguments Uks {R} _. Arguments iUks {R} _.
Arguments Ujs {R} _. Arguments iUjs {R} _. Arguments Ufr {R} _.
Arguments iUfr {R} _. Arguments Uv {R} _. Arguments iUv {R} _.

(** The part of [self] the modelled methods read or write. *)
Record Solver (R : Type) : Type := {
  base : BaseSets R;
  derived : option (DerivedSets R);
  nidComponentToID : gmap (Z * Z) Z;
  IDtoNidComponents : gmap Z (Z * Z);
  mp_index : Z;
  f06_file : list string
}.
Arguments base {R} _. Arguments derived {R} _.
Arguments nidComponentToID {R} _. Arguments IDtoNidComponents {R} _.
Arguments mp_index {R} _. Arguments f06_file {R} _.

Section DofSetAlgebra.
Context {R : Type}.

(** [Solver.build_dof_sets]: every assignment is a list concatenation
    [self.X = self.A + self.B]; the right-hand sides read attributes
    assigned earlier in the same run. *)
Definition derive_sets (b : BaseSets R) : DerivedSets R :=
  let Us_ := Usb b ++ Usg b in     let iUs_ := iUsb b ++ iUsg b in
  let Ul_ := Uc b ++ Ulm b in      let iUl_ := iUc b ++ iUlm b in
  let Ut_ := Ul_ ++ Ur b in        let iUt_ := iUl_ ++ iUr b in
  let Ua_ := Ut_ ++ Uq b in        let iUa_ := iUt_ ++ iUq b in
  let Ud_ := Ua_ ++ Ue b in        let iUd_ := iUa_ ++ iUe b in
  let Uf_ := Ua_ ++ Uo b in        let iUf_ := iUa_ ++ iUo b in
  let Ufe_ := Uf_ ++ Ue b in       let iUfe_ := iUf_ ++ iUe b in
  let Un_ := Uf_ ++ Us_ in         let iUn_ := iUf_ ++ iUs_ in
  let Une_ := Un_ ++ Ue b in       let iUne_ := iUn_ ++ iUe b in
  let Um_ := Ump b ++ Umr b in     let iUm_ := iUmp b ++ iUmr b in
  let jUm_ := jUmp b ++ jUmr b in
  let Ug_ := Un_ ++ Um_ in         let iUg_ := iUn_ ++ iUm_ in
  let Up_ := Ug_ ++ Ue b in        let iUp_ := iUg_ ++ iUe b in
  let Uks_ := Uk b ++ Usa b in     let iUks_ := iUk b ++ iUsa b in
  let Ujs_ := Uj b ++ Usa b in     let iUjs_ := iUj b ++ iUsa b in
  let Ufr_ := Uo b ++ Ul_ in       let iUfr_ := iUo b ++ iUl_ in
  let Uv_ := Uo b ++ Uc b ++ Ur b in
  let iUv_ := iUo b ++ iUc b ++ iUr b in
  {| Us := Us_; iUs := iUs_; Ul := Ul_; iUl := iUl_; Ut := Ut_; iUt := iUt_;
     Ua := Ua_; iUa := iUa_; Ud := Ud_; iUd := iUd_; Uf := Uf_; iUf := iUf_;
     Ufe := Ufe_; iUfe := iUfe_; Un := Un_; iUn := iUn_;
     Une := Une_; iUne := iUne_; Um := Um_; iUm := iUm_; jUm := jUm_;
     Ug := Ug_; iUg := iUg_; Up := Up_; iUp := iUp_;
     Uks := Uks_; iUks := iUks_; Ujs := Ujs_; iUjs := iUjs_;
     Ufr := Ufr_; iUfr := iUfr_; Uv := Uv_; iUv := iUv_ |}.

Definition build_dof_sets (s : Solver R) : Solver R :=
  {| base := base s;
     derived := Some (derive_sets (base s));
     nidComponentToID := nidComponentToID s;
     IDtoNidComponents := IDtoNidComponents s;
     mp_index := mp_index s;
     f06_file := f06_file s |}.
End DofSetAlgebra.

(** ** The model as the solver reads it *)

(** One row of the vectorized GRID card: [model.grid.node_id[ni]],
    [model.grid.ps[ni]], [model.grid.cd[ni]].  The card stores parallel
    arrays of length [model.grid.n]; a list of rows is that data with
    [n = length]. *)
Record GridPoint : Type := {
  node_id : Z;
  ps : Z;        (* packed permanent constraints, -1 when blank *)
  cd : Z         (* displacement coordinate system *)
}.

Record Model : Type := {
  grid : list GridPoint;
  spoint : list Z;           (* model.spoint.spoint *)
  sol : Z;
  has_METHOD : bool          (* case.has_parameter('METHOD') *)
}.

(** The two kinds of Python values compared in the indexer's guard. *)
Inductive pyval : Type :=
  | PyInt (z : Z)
  | PySet (s : gset Z).

(** Python [==]: values of different kinds are never equal. *)
Definition py_eq (a b : pyval) : bool :=
  match a, b with
  | PyInt x, PyInt y => bool_decide (x = y)
  | PySet s, PySet t => bool_decide (s = t)
  | _, _ => false
  end.

Section DofIndexer.
Context {R : Type} `{Float64 R}.

Definition set_sg (b : BaseSets R) (iusg : list Z) (usg : list R)
    : BaseSets R :=
  {| Usb := Usb b; iUsb := iUsb b; Usg := usg; iUsg := iusg;
     Ump := Ump b; iUmp := iUmp b; jUmp := jUmp b;
     Umr := Umr b; iUmr := iUmr b; jUmr := jUmr b;
     Ub := Ub b; iUb := iUb b; Uc := Uc b; iUc := iUc b;
     Ue := Ue b; iUe := iUe b; Uj := Uj b; iUj := iUj b;
     Uk := Uk b; iUk := iUk b; Ulm := Ulm b; iUlm := iUlm b;
     Uq := Uq b; iUq := iUq b; Ur := Ur b; iUr := iUr b;
     Uo := Uo b; iUo := iUo b; Usa := Usa b; iUsa := iUsa b |}.

Definition with_base (s : Solver R) (b : BaseSets R) : Solver R :=
  {| base := b; derived := derived s;
     nidComponentToID := nidComponentToID s;
     IDtoNidComponents := IDtoNidComponents s;
     mp_index := mp_index s; f06_file := f06_file s |}.

Definition with_mp_index (s : Solver R) (k : Z) : Solver R :=
  {| base := base s; derived := derived s;
     nidComponentToID := nidComponentToID s;
     IDtoNidComponents := IDtoNidComponents s;
     mp_index := k; f06_file := f06_file s |}.

(** [while ps > 0: psi = ps % 10; j = i + psi - 1; iUsg.append(j);
    Usg.append(0.0); ps = ps // 10].  [fuel] bounds the number of
    iterations; [ps_loop_fuel] shows [Z.to_nat ps] is always enough. *)
Fixpoint ps_loop (fuel : nat) (i ps_ : Z) (iUsg_ : list Z) (Usg_ : list R)
    : list Z * list R :=
  match fuel with
  | O => (iUsg_, Usg_)
  | S fuel' =>
      if decide (ps_ > 0) then
        let psi := ps_ `mod` 10 in
        let j := i + psi - 1 in
        ps_loop fuel' i (ps_ `div` 10) (iUsg_ ++ [j]) (Usg_ ++ [zero])
      else (iUsg_, Usg_)
  end.

(** Body of [for ni in range(model.grid.n)]. *)
Definition grid_step (st : gmap (Z * Z) Z * Z * BaseSets R) (g : GridPoint)
    : gmap (Z * Z) Z * Z * BaseSets R :=
  let '(d, i, b) := st in
  let nid := node_id g in
  let b' :=
    if decide (ps g > -1) then
      let '(iUsg_, Usg_) := ps_loop (Z.to_nat (ps g)) i (ps g) [] [] in
      set_sg b (iUsg b ++ iUsg_) (Usg b ++ Usg_)
    else b in
  let d := <[(nid, 1) := i]> d in
  let d := <[(nid, 2) := i + 1]> d in
  let d := <[(nid, 3) := i + 2]> d in
  let d := <[(nid, 4) := i + 3]> d in
  let d := <[(nid, 5) := i + 4]> d in
  let d := <[(nid, 6) := i + 5]> d in
  (d, i + 6, b').

(** Body of [for nid in sorted(model.spoint.spoint)]. *)
Definition spoint_step (st : gmap (Z * Z) Z * Z) (nid : Z)
    : gmap (Z * Z) Z * Z :=
  let '(d, i) := st in (<[(nid, 1) := i]> d, i + 1).

(** [Solver.build_nid_component_to_id].  The final state is returned
    next to the result because [self.iUsg]/[self.Usg] are extended
    before the last assertion. *)
Definition build_nid_component_to_id (s : Solver R) (model : Model)
    : result (gmap (Z * Z) Z * Z) * Solver R :=
  let n := length (grid model) in
  let cd_rejected :=
    if decide (n ≠ 0%nat) then
      let cd_ := PySet (list_to_set (cd <$> grid model)) in
      py_eq cd_ (PyInt 0)
    else false in
  if cd_rejected then
    (Raise (NotImplementedError "Set cd=0; cd=%s is not supported."), s)
  else
    let '(d, i, b) := foldl grid_step (∅, 0, base s) (grid model) in
    let '(d, i) :=
      if decide (length (spoint model) ≠ 0%nat)
      then foldl spoint_step (d, i) (merge_sort Z.le (spoint model))
      else (d, i) in
    let s := with_base s b in
    if decide (i > 0) then
      let s := with_mp_index s
                 (Z.of_nat n + Z.of_nat (length (spoint model))) in
      (Ok (d, i), s)
    else (Raise (AssertionError "no DOFs"), s).
End DofIndexer.

(** ** Matrix assembler *)

(** [dok_matrix((n, m))]: shape and stored entries. *)
Record Dok (R : Type) : Type := {
  dok_shape : nat * nat;
  dok_data : gmap (nat * nat) R
}.
Arguments dok_shape {R} _. Arguments dok_data {R} _.

Section Assembler.
Context {R : Type} `{Float64 R}.

(** [abs(x) > 0.0] *)
Definition is_nonzero (x : R) : bool := fltb zero (fabs x).

(** [Kgg[dof1, dof2] += x] *)
Definition iadd2 (Kgg : matrix R) (dof1 dof2 : Z) (x : R)
    : result (matrix R) :=
  '(r, c) ← from_option IndexError (py_index2 Kgg dof1 dof2);
  Ok (alter2 (λ y, add y x) Kgg r c).

(** [Mgg_sparse[dof1, dof2] += x] on a [dok_matrix]. *)
Definition dok_iadd (A : Dok R) (dof1 dof2 : Z) (x : R) : result (Dok R) :=
  r ← from_option IndexError (py_index (dok_shape A).1 dof1);
  c ← from_option IndexError (py_index (dok_shape A).2 dof2);
  Ok {| dok_shape := dok_shape A;
        dok_data := <[(r, c) := add (default zero (dok_data A !! (r, c))) x]>
                      (dok_data A) |}.

(** [Solver.add_stiffness]: the double loop over [enumerate(dofs)] on
    the array [self.Kgg]. *)
Definition add_stiffness (K : matrix R) (dofs : list Z) (Kgg : matrix R)
    : result (matrix R) :=
  for_each (λ Kgg '(i, dof1),
    for_each (λ Kgg '(j, dof2),
      kij ← getitem2 K i j;
      if is_nonzero kij then iadd2 Kgg dof1 dof2 kij else Ok Kgg)
    (enumerate dofs) Kgg)
  (enumerate dofs) Kgg.

(** [Solver.add_mass]: the same loop on [self.Mgg] and
    [self.Mgg_sparse]. *)
Definition add_mass (M : matrix R) (dofs : list Z)
    (st : matrix R * Dok R) : result (matrix R * Dok R) :=
  for_each (λ st '(i, dof1),
    for_each (λ (st : matrix R * Dok R) '(j, dof2),
      mij ← getitem2 M i j;
      if is_nonzero mij then
        Mgg ← iadd2 st.1 dof1 dof2 mij;
        Mgg_sparse ← dok_iadd st.2 dof1 dof2 mij;
        Ok (Mgg, Mgg_sparse)
      else Ok st)
    (enumerate dofs) st)
  (enumerate dofs) st.

(** Assembly: [self.Kgg = zeros((i, i))] followed by one
    [add_stiffness] per element.  [elements] is the sequence of
    [(K, dofs)] pairs the element providers return, in call order. *)
Definition assemble_stiffness (i : nat) (elements : list (matrix R * list Z))
    : result (matrix R) :=
  for_each (λ Kgg '(K, dofs), add_stiffness K dofs Kgg) elements (zeros2 i i).

(** [self.Mgg = zeros((ndofs, ndofs))],
    [self.Mgg_sparse = dok_matrix((ndofs, ndofs))], then one [add_mass]
    per element. *)
Definition assemble_mass (ndofs : nat) (elements : list (matrix R * list Z))
    : result (matrix R * Dok R) :=
  for_each (λ st '(M, dofs), add_mass M dofs st) elements
    (zeros2 ndofs ndofs, {| dok_shape := (ndofs, ndofs); dok_data := ∅ |}).
End Assembler.

(** ** Partitioned linear solver *)

Section Partition.
Context {R : Type}.

(** Modelled from the spec: [utils.remove_dofs] is not part of the
    sources at hand.  "free = complement(s)": the members of [dofsAll]
    that are not constrained, as the list of a set difference. *)
Definition remove_dofs (dofsAll : gset Z) (dofs : list Z) : list Z :=
  elements (dofsAll ∖ list_to_set dofs).

(** Modelled from the spec: the free positions of an axis of length [n],
    "the original DOF ordering restricted to the complement" of [s]. *)
Definition free_dofs (n : nat) (s : list Z) : list Z :=
  filter (λ i, i ∉ s) (seqZ 0 (Z.of_nat n)).

(** Modelled from the spec: [utils.partition_dense_symmetric] is not part
    of the sources at hand.  "Ka = Kgg[free, free]" by masked
    partitioning into a new array; returns the block and [free]. *)
Definition partition_dense_symmetric (A : matrix R) (dofs_in : list Z)
    : result (matrix R * list Z) :=
  let dofs := free_dofs (length A) dofs_in in
  rows ← take_rows A (Z.to_nat <$> dofs);
  B ← take_cols rows (Z.to_nat <$> dofs);
  Ok (B, dofs).

(** Modelled from the spec: [utils.partition_dense_vector] is not part of
    the sources at hand.  "Fa = Fg[free]". *)
Definition partition_dense_vector (F : vector R) (dofs_in : list Z)
    : result (vector R * list Z) :=
  let dofs := free_dofs (length F) dofs_in in
  F2 ← take_items F (Z.to_nat <$> dofs);
  Ok (F2, dofs).

(** Modelled from the spec: [utils.reverse_dict] is not part of the
    sources at hand.  It maps each index "back to its
    (entity_id, component) pair". *)
Definition reverse_dict (d : gmap (Z * Z) Z) : gmap Z (Z * Z) :=
  list_to_map ((λ kv, (kv.2, kv.1)) <$> map_to_list d).
End Partition.

Section Solve.
Context {R : Type} `{Float64 R}.

(** [numpy.linalg.solve]: [None] stands for any exception it raises. *)
Variable solve : matrix R → vector R → option (vector R).
(** [F06.make_grid_point_singularity_table], a text formatter. *)
Variable make_grid_point_singularity_table : list (Z * Z) → string.

(** Python's builtin [max] / [min] on a non-empty sequence: keep the
    first item unless a later one compares strictly greater / less. *)
Definition py_max (x : R) (xs : list R) : R :=
  foldl (λ m item, if fltb m item then item else m) x xs.
Definition py_min (x : R) (xs : list R) : R :=
  foldl (λ m item, if fltb item m then item else m) x xs.

(** [if F[0] == 0.0: assert max(F) != min(F), 'no load is applied...'] *)
Definition load_check (F : vector R) : result unit :=
  match F with
  | [] => Raise IndexError
  | f0 :: rest =>
      if feqb f0 zero then
        if negb (feqb (py_max f0 rest) (py_min f0 rest)) then Ok ()
        else Raise (AssertionError "no load is applied...")
      else Ok ()
  end.

(** Body of [for i, iu in enumerate(dofs)] in the [except] branch. *)
Definition singular_step (IDtoNid : gmap Z (Z * Z)) (K : matrix R)
    (acc : list (Z * Z) * list nat) (x : nat * Z)
    : result (list (Z * Z) * list nat) :=
  let '(failed, faileds) := acc in
  let '(i, iu) := x in
  nid_dof ← from_option KeyError (IDtoNid !! iu);
  kii ← getitem2 K i i;
  if feqb kii zero then Ok (failed ++ [nid_dof], faileds ++ [i])
  else Ok (failed, faileds).

(** [U[ilist] = U2] for a vector [U2]: shapes must agree, except that a
    single value is broadcast. *)
Definition setitems (U : vector R) (ilist : list nat) (U2 : vector R)
    : result (vector R) :=
  let put := λ (U : vector R) '(i, x),
    if decide (i < length U)%nat then Ok (<[i := x]> U) else Raise IndexError in
  if decide (length U2 = length ilist) then for_each put (zip ilist U2) U
  else match U2 with
       | [x] => for_each put ((λ i, (i, x)) <$> ilist) U
       | _ => Raise ValueError
       end.

Definition write_f06 (s : Solver R) (msg : string) : Solver R :=
  {| base := base s; derived := derived s;
     nidComponentToID := nidComponentToID s;
     IDtoNidComponents := IDtoNidComponents s;
     mp_index := mp_index s; f06_file := f06_file s ++ [msg] |}.

(** [Solver._solve] *)
Definition _solve (s : Solver R) (K : matrix R) (F : vector R)
    (dofs : list Z) : result (vector R) * Solver R :=
  match load_check F with
  | Raise e => (Raise e, s)
  | Ok _ =>
    match solve K F with
    | Some U => (Ok U, s)
    | None =>
      match for_each (singular_step (IDtoNidComponents s) K)
              (enumerate dofs) ([], []) with
      | Raise e => (Raise e, s)
      | Ok (failed, faileds) =>
        let s := write_f06 s (make_grid_point_singularity_table failed) in
        let ilist :=
          merge_sort le
            (elements (list_to_set (seq 0 (length dofs)) ∖
                       list_to_set faileds : gset nat)) in
        (rows ← take_rows K ilist;
         K2 ← take_cols rows ilist;
         F2 ← take_items F ilist;
         U2 ← from_option LinAlgError (solve K2 F2);
         setitems (zeros (length F)) ilist U2,
         s)
      end
    end
  end.

(** [for (i, j, a) in zip(self.iUm, self.jUm, self.Um): Kgg[i, j] = a],
    in place on the caller's array: the array contents are returned
    also when an index is rejected. *)
Fixpoint mpc_overwrite (Kgg : matrix R) (ijas : list (Z * (Z * R)))
    : result unit * matrix R :=
  match ijas with
  | [] => (Ok (), Kgg)
  | (i, (j, a)) :: rest =>
      match setitem2Z Kgg i j a with
      | Ok Kgg' => mpc_overwrite Kgg' rest
      | Raise e => (Raise e, Kgg)
      end
  end.

Definition with_IDtoNid (s : Solver R) (m : gmap Z (Z * Z)) : Solver R :=
  {| base := base s; derived := derived s;
     nidComponentToID := nidComponentToID s;
     IDtoNidComponents := m;
     mp_index := mp_index s; f06_file := f06_file s |}.

(** [Solver.solve_sol_101].  [Kgg] and [Fg] are the caller's arrays; the
    last two components of the value are their contents when the call
    ends. *)
Definition solve_sol_101 (s : Solver R) (Kgg : matrix R) (Fg : vector R)
    : result (vector R) * Solver R * matrix R * vector R :=
  match derived s with
  | None => (Raise TypeError, s, Kgg, Fg)
  | Some d =>
    match mpc_overwrite Kgg (zip (iUm d) (zip (jUm d) (Um d))) with
    | (Raise e, Kgg) => (Raise e, s, Kgg, Fg)
    | (Ok _, Kgg) =>
      let s := with_IDtoNid s (reverse_dict (nidComponentToID s)) in
      match partition_dense_symmetric Kgg (iUs d) with
      | Raise e => (Raise e, s, Kgg, Fg)
      | Ok (Kaa, dofs2) =>
        match partition_dense_vector Fg (iUs d) with
        | Raise e => (Raise e, s, Kgg, Fg)
        | Ok (Fa, _dofs2) =>
          let '(Ua_, s) := _solve s Kaa Fa dofs2 in (Ua_, s, Kgg, Fg)
        end
      end
    end
  end.

(** [U[iu] = x] on the solution vector; the second component records the
    resolved positions in the order they are written. *)
Definition store (st : vector R * list nat) (iu : Z) (x : R)
    : result (vector R * list nat) :=
  k ← from_option IndexError (py_index (length st.1) iu);
  Ok (<[k := x]> st.1, st.2 ++ [k]).

(** The reconstruction block shared by [run_sol_101] (lines 658-671) and
    [run_sol_103] (lines 594-603):
    [dofsAll = set(range(n)); dofsA = remove_dofs(dofsAll, iUs);
     dofsA.sort(); U = zeros(n)] and the two scatter loops. *)
Definition reconstruct (n : Z) (iUs_ : list Z) (Us_ : list R)
    (Ua_ : vector R) : result (vector R * list nat) :=
  let dofsAll : gset Z := list_to_set (seqZ 0 n) in
  let dofsA := merge_sort Z.le (remove_dofs dofsAll iUs_) in
  if decide (n < 0) then Raise ValueError else
  let U := zeros (Z.to_nat n) in
  st ← for_each (λ st '(i, iu), x ← getitem Us_ i; store st iu x)
         (enumerate iUs_) (U, []);
  for_each (λ st '(i, iu), x ← getitem Ua_ i; store st iu x)
    (enumerate dofsA) st.
End Solve.

(** ** Grid point weight generator *)

Record GridPointWeight (R : Type) : Type := {
  gpw_S : matrix R;
  gpw_mass : vector R;
  gpw_cg : matrix R;
  gpw_IS : matrix R
}.
Arguments gpw_S {R} _. Arguments gpw_mass {R} _.
Arguments gpw_cg {R} _. Arguments gpw_IS {R} _.

Section Gpwg.
Context {R : Type} `{Float64 R}.

(** [numpy.linalg.eigh]: eigenvalues and eigenvector matrix, [None] when
    it raises. *)
Variable eigh : matrix R → option (vector R * matrix R).

(** [A.T] *)
Fixpoint mat_T (A : matrix R) : matrix R :=
  match A with
  | [] => []
  | row :: A' =>
      match A' with
      | [] => (λ x, [x]) <$> row
      | _ => zip_with cons row (mat_T A')
      end
  end.

Definition dotprod (u v : vector R) : R :=
  foldl (λ acc '(a, b), add acc (mul a b)) zero (zip u v).

(** [dot(A, B)] for two-dimensional arrays. *)
Definition dot (A B : matrix R) : result (matrix R) :=
  if decide (Forall (λ row, length row = length B) A) then
    Ok ((λ row, dotprod row <$> mat_T B) <$> A)
  else Raise ValueError.

(** Modelled from the spec: [utils.triple] is not part of the sources at
    hand.  It "reduces the mass matrix through this mapping":
    [triple(A, B) = A.T . B . A]. *)
Definition triple (A B : matrix R) : result (matrix R) :=
  BA ← dot B A; dot (mat_T A) BA.

(** [M[r0:r0+3, c0:c0+3]] *)
Definition block3 (M : matrix R) (r0 c0 : nat) : matrix R :=
  (λ row, take 3 (drop c0 row)) <$> take 3 (drop r0 M).

(** [row /= m] on a row of a float32 array *)
Definition idiv_row (row : vector R) (m : R) : vector R :=
  (λ x, to_f32 (div x m)) <$> row.

Definition pow2 (x : R) : R := mul x x.

(** [Solver.make_gpwg] from the split of [Mo = triple(D, Mgg)] into
    blocks (line 1413) to the inertia tensor [II] (line 1488).  The
    warning test on [epsilon / delta] in between has an empty body. *)
Definition make_gpwg (Mo : matrix R) : result (GridPointWeight R) :=
  let Mt_bar := block3 Mo 0 0 in
  let Mtr_bar := block3 Mo 0 3 in
  let Mr_bar := block3 Mo 3 3 in
  '(omega, S_) ← from_option LinAlgError (eigh Mt_bar);
  Mt ← triple S_ Mt_bar;
  Mtr ← triple S_ Mtr_bar;
  Mr ← triple S_ Mr_bar;
  Mx ← getitem2 Mt 0 0;
  My ← getitem2 Mt 1 1;
  Mz ← getitem2 Mt 2 2;
  let mass := [Mx; My; Mz] in
  Mtr00 ← getitem2 Mtr 0 0; Mtr02 ← getitem2 Mtr 0 2;
  Mtr01 ← getitem2 Mtr 0 1;
  Mtr12 ← getitem2 Mtr 1 2; Mtr11 ← getitem2 Mtr 1 1;
  Mtr10 ← getitem2 Mtr 1 0;
  Mtr21 ← getitem2 Mtr 2 1; Mtr20 ← getitem2 Mtr 2 0;
  Mtr22 ← getitem2 Mtr 2 2;
  let cg0 := [to_f32 Mtr00; to_f32 (neg Mtr02); to_f32 Mtr01] in
  let cg1 := [to_f32 Mtr12; to_f32 Mtr11; to_f32 (neg Mtr10)] in
  let cg2 := [to_f32 (neg Mtr21); to_f32 Mtr20; to_f32 Mtr22] in
  let cg0 := if negb (feqb Mx zero) then idiv_row cg0 Mx else cg0 in
  let cg1 := if negb (feqb My zero) then idiv_row cg1 My else cg1 in
  let cg2 := if negb (feqb Mz zero) then idiv_row cg2 Mz else cg2 in
  let cg := [cg0; cg1; cg2] in
  xx ← getitem2 cg 0 0; yx ← getitem2 cg 0 1; zx ← getitem2 cg 0 2;
  xy ← getitem2 cg 1 0; yy ← getitem2 cg 1 1; zy ← getitem2 cg 1 2;
  xz ← getitem2 cg 2 0; yz ← getitem2 cg 2 1; zz ← getitem2 cg 2 2;
  Mr00 ← getitem2 Mr 0 0; Mr01 ← getitem2 Mr 0 1; Mr02 ← getitem2 Mr 0 2;
  Mr11 ← getitem2 Mr 1 1; Mr12 ← getitem2 Mr 1 2; Mr22 ← getitem2 Mr 2 2;
  let I11 := sub (sub Mr00 (mul My (pow2 zy))) (mul Mz (pow2 yz)) in
  let I12 := sub (neg Mr01) (mul (mul Mz xz) yz) in
  let I21 := I12 in
  let I31 := sub (neg Mr02) (mul (mul My xy) zy) in
  let I13 := I31 in
  let I22 := sub (sub Mr11 (mul Mz (pow2 xz))) (mul Mx (pow2 zx)) in
  let I23 := sub (neg Mr12) (mul (mul Mx yx) zx) in
  let I32 := I23 in
  let I33 := sub (sub Mr22 (mul Mx (pow2 yx))) (mul My (pow2 xy)) in
  let II : matrix R :=
    [[I11; I12; I13]; [I21; I22; I13]; [I31; I32; I33]] in
  let II : matrix R :=
    (λ row : list R, (λ x, nan_to_num (to_f32 x)) <$> row) <$> II in
  Ok {| gpw_S := S_; gpw_mass := mass; gpw_cg := cg; gpw_IS := II |}.
End Gpwg.

(** ** SOL 103 driver *)

(** Names bound at module level in [solver.py]: its imports, the class and
    the three functions defined after it. *)
Definition module_globals : list string :=
  ["print_function"; "iteritems"; "range"; "os"; "sys"; "date"; "zip"; "pack";
   "array"; "zeros"; "ones"; "radians"; "cos"; "sin"; "dot"; "vstack";
   "hstack"; "eye"; "searchsorted"; "array_equal"; "ndarray"; "diag";
   "fill_diagonal"; "argsort"; "nan"; "nan_to_num";
   "solve"; "norm"; "eigh"; "eig"; "dok_matrix"; "coo_matrix";
   "triple"; "reverse_dict"; "partition_dense_symmetric";
   "partition_dense_vector"; "remove_dofs"; "sorted_bulk_data_header";
   "list_print"; "print_matrix"; "print_annotated_matrix";
   "BDF"; "SPC"; "SPC1"; "F06"; "OP2"; "get_logger"; "RealDisplacement";
   "OLOAD_Resultant"; "RealCelasStress"; "RealCelasStrain";
   "RealSpringForce"; "RealRodStress"; "RealRodStrain"; "ConrodStress";
   "ConrodStrain"; "CtubeStress"; "CtubeStrain"; "RealRodForce";
   "RealConrodForce"; "RealCtubeForce"; "RealShearStress";
   "RealShearStrain"; "RealCShearForce"; "RealBeamStress";
   "RealBeamStrain"; "RealCBeamForce";
   "Solver"; "get_cards"; "main"; "test_mass"]%string.

(** Names of the [builtins] module the solver refers to. *)
Definition builtin_names : list string :=
  ["abs"; "enumerate"; "int"; "len"; "list"; "max"; "min"; "open"; "set";
   "sorted"; "str"; "True"; "False"; "None"; "NotImplementedError";
   "RuntimeError"; "TypeError"]%string.

(** Names assigned somewhere in the body of [run_sol_103] (its parameters
    included): these, and only these, are local variables of the function. *)
Definition run_sol_103_locals : list string :=
  ["self"; "model"; "case"; "wtmass"; "coupled_mass"; "lumped_mass";
   "imethod"; "Mgg"; "Kgg"; "Fg"; "n"; "Lambda"; "Ua"; "dofsAll"; "dofsA";
   "U"; "i"; "iu"; "q"]%string.

(** Evaluation of a name inside a function: a local when the function
    assigns it (the value bound so far, if any), otherwise a module global
    or a builtin, otherwise [NameError]. *)
Definition load_name {V} (locals : list string) (frame : gmap string V)
    (global_value : string → V) (x : string) : result V :=
  if decide (x ∈ locals) then
    from_option (NameError x) (frame !! x)      (* UnboundLocalError *)
  else if decide (x ∈ module_globals ∨ x ∈ builtin_names) then
    Ok (global_value x)
  else Raise (NameError x).

Section Sol103.
Context {R : Type} `{Float64 R}.

(** The values a name of [run_sol_103] can hold, as far as the driver
    passes them on. *)
Inductive value103 : Type :=
  | VInt (z : Z)
  | VFloat (x : R)
  | VBool (b : bool)
  | VObject (name : string).

(** Collaborators of the driver that are outside the sources at hand.
    [solve_sol_103] is called on [self] but is not defined by the class
    in [solver.py]. *)
Variable method_block : Solver R → Model → result unit.
Variable get_Mgg : Solver R → Model → value103 → result (matrix R) * Solver R.
Variable setup_sol_101 :
  Solver R → Model → result (matrix R * vector R * Z) * Solver R.
Variable solve_sol_103 :
  Solver R → matrix R → matrix R → result (vector R * vector R).

(** [Solver.run_sol_103] up to the reconstruction of [U].
    [wtmass = 1.0], [coupled_mass = -1] and [lumped_mass = True] stand
    for either branch of the two PARAM tests: all three names are bound
    after them. *)
Definition run_sol_103 (s : Solver R) (model : Model) (wtmass : R)
    : result (vector R) * Solver R :=
  if decide (sol model ≠ 103) then
    (Raise (AssertionError "model.sol=%s is not 101"), s)
  else
    let frame : gmap string value103 :=
      <["lumped_mass"%string := VBool true]>
        (<["coupled_mass"%string := VInt (-1)]>
           (<["wtmass"%string := VFloat wtmass]>
              (<["case"%string := VObject "case"]>
                 (<["model"%string := VObject "model"]>
                    (<["self"%string := VObject "self"]> ∅))))) in
    match (if has_METHOD model then method_block s model else Ok ()) with
    | Raise e => (Raise e, s)
    | Ok _ =>
      (* Mgg = self.get_Mgg(model, ndofs, force_calcs=True) *)
      match load_name run_sol_103_locals frame VObject "ndofs" with
      | Raise e => (Raise e, s)
      | Ok ndofs =>
        match get_Mgg s model ndofs with
        | (Raise e, s) => (Raise e, s)
        | (Ok Mgg, s) =>
          match setup_sol_101 s model with
          | (Raise e, s) => (Raise e, s)
          | (Ok (Kgg, Fg, n), s) =>
            let s := build_dof_sets s in
            match solve_sol_103 s Kgg Mgg with
            | Raise e => (Raise e, s)
            | Ok (Lambda, Ua_) =>
              match derived s with
              | None => (Raise TypeError, s)
              | Some d => (fst <$> reconstruct n (iUs d) (Us d) Ua_, s)
              end
            end
          end
        end
      end
    end.
End Sol103.

(** ** Exact rational arithmetic as an instance of the scalar interface

    Every operation returns a reduced fraction, so equal values are equal
    terms.  On inputs whose float64 operations are exact it computes what
    numpy computes. *)

#[global] Instance Qexact : Float64 Q := {|
  zero := 0%Q;
  add x y := Qred (x + y);
  sub x y := Qred (x - y);
  mul x y := Qred (x * y);
  div x y := Qred (x / y);
  neg x := Qred (- x);
  fabs x := Qred (Qabs x);
  feqb x y := Qeq_bool x y;
  fltb x y := negb (Qle_bool y x);
  to_f32 x := x;
  nan_to_num x := x
|}.

(** Gaussian elimination on the augmented rows [a1 .. an | b]: pick a row
    with a non-zero leading entry, eliminate the first unknown from the
    others, solve the rest, substitute back.  [None] when no pivot exists
    (the matrix is singular), which is when [numpy.linalg.solve] raises
    [LinAlgError]. *)
Fixpoint find_pivot (rows : list (list Q)) : option (list Q * list (list Q)) :=
  match rows with
  | [] => None
  | r :: rs =>
      match r with
      | a :: _ =>
          if Qeq_bool a 0 then
            match find_pivot rs with
            | Some (p, others) => Some (p, r :: others)
            | None => None
            end
          else Some (r, rs)
      | [] => None
      end
  end.

Fixpoint gauss (fuel : nat) (rows : list (list Q)) : option (list Q) :=
  match fuel with
  | O => match rows with [] => Some [] | _ => None end
  | S fuel' =>
      match find_pivot rows with
      | Some (a :: p, others) =>
          let p' := (λ x, Qred (x / a)) <$> p in
          let others' :=
            (λ r, match r with
                  | b :: t => zip_with (λ x y, Qred (x - b * y)) t p'
                  | [] => []
                  end) <$> others in
          xs ← gauss fuel' others';
          let rhs := List.last p' 0%Q in
          let s := foldl (λ acc '(c, x), Qred (acc + c * x)) 0%Q (zip p' xs) in
          Some (Qred (rhs - s) :: xs)
      | _ => None
      end
  end.

(** The oracle used for [numpy.linalg.solve] in the worked cases. *)
Definition Qsolve (K : matrix Q) (F : vector Q) : option (vector Q) :=
  if decide (length K = length F ∧ Forall (λ row, length row = length K) K)
  then gauss (length K) (zip_with (λ row f, row ++ [f]) K F)
  else None.

(** An [eigh] oracle for matrices that are already diagonal with ascending
    diagonal: eigenvalues are the diagonal, eigenvectors the identity. *)
Definition Qeigh_diag (A : matrix Q) : option (vector Q * matrix Q) :=
  match A with
  | [[a; _; _]; [_; b; _]; [_; _; c]] =>
      Some ([a; b; c], [[1; 0; 0]; [0; 1; 0]; [0; 0; 1]]%Q)
  | _ => None
  end.

Definition Qtable (failed : list (Z * Z)) : string :=
  "GRID POINT SINGULARITY TABLE".

(** ** Vocabulary of the statements *)

(** [u] is the union of [a] and [b] that keeps the order of both, [a]
    first. *)
Definition ordered_union {A} (a b u : list A) : Prop :=
  (∀ x, x ∈ u ↔ x ∈ a ∨ x ∈ b) ∧
  a `prefix_of` u ∧ b `suffix_of` u ∧
  length u = (length a + length b)%nat ∧
  (NoDup a → NoDup b → (∀ x, x ∈ a → x ∉ b) → NoDup u).

(** The keys of the DOF index in slot order: six components per grid
    point in card order, then one per scalar point in sorted order. *)
Definition dof_keys (model : Model) : list (Z * Z) :=
  (grid model ≫= λ g, (λ c, (node_id g, c)) <$> [1; 2; 3; 4; 5; 6]) ++
  ((λ nid, (nid, 1)) <$> merge_sort Z.le (spoint model)).

(** A state of the solver right after [__init__]. *)
Definition empty_base {R} : BaseSets R :=
  {| Usb := []; iUsb := []; Usg := []; iUsg := []; Ump := []; iUmp := [];
     jUmp := []; Umr := []; iUmr := []; jUmr := []; Ub := []; iUb := [];
     Uc := []; iUc := []; Ue := []; iUe := []; Uj := []; iUj := [];
     Uk := []; iUk := []; Ulm := []; iUlm := []; Uq := []; iUq := [];
     Ur := []; iUr := []; Uo := []; iUo := []; Usa := []; iUsa := [] |}.

Definition init_solver {R} : Solver R :=
  {| base := empty_base; derived := None; nidComponentToID := ∅;
     IDtoNidComponents := ∅; mp_index := 0; f06_file := [] |}.

(** Insertion of one [(key, slot)] pair, the effect of
    [nidComponentToID[key] = slot]. *)
Definition ins (d : gmap (Z * Z) Z) (kv : Z * Z * Z) : gmap (Z * Z) Z :=
  <[kv.1 := kv.2]> d.

Definition grid_keys (gs : list GridPoint) : list (Z * Z) :=
  gs ≫= λ g, (λ c, (node_id g, c)) <$> [1; 2; 3; 4; 5; 6].

(** [N = 6 * n_grid + n_scalar_points] *)
Definition ndofs_of (model : Model) : Z :=
  6 * Z.of_nat (length (grid model)) + Z.of_nat (length (spoint model)).

(** Worked inputs. *)
Definition one_grid_cd7 : Model :=
  {| grid := [{| node_id := 1; ps := -1; cd := 7 |}]; spoint := [];
     sol := 101; has_METHOD := false |}.

Definition two_grids_two_spoints : Model :=
  {| grid := [{| node_id := 10; ps := 123456; cd := 0 |};
              {| node_id := 4; ps := -1; cd := 0 |}];
     spoint := [30; 20]; sol := 101; has_METHOD := false |}.

(** [K[i, i] == 0.0] *)
Definition diag_is_zero {R} `{Float64 R} (K : matrix R) (i : nat) : bool :=
  match K !! i ≫= (.!! i) with
  | Some x => feqb x zero
  | None => false
  end.

(** Rows of an [n]-row system with an exactly zero pivot, and the others. *)
Definition singular_rows {R} `{Float64 R} (K : matrix R) (n : nat) : list nat :=
  filter (λ i, diag_is_zero K i = true) (seq 0 n).
Definition regular_rows {R} `{Float64 R} (K : matrix R) (n : nat) : list nat :=
  filter (λ i, diag_is_zero K i ≠ true) (seq 0 n).

(** The [(nid, component)] pairs of the singular rows, in row order. *)
Definition singular_pairs {R} `{Float64 R} (m : gmap Z (Z * Z)) (K : matrix R)
    (rows : list (nat * Z)) : list (Z * Z) :=
  omap (λ '(i, iu), if diag_is_zero K i then m !! iu else None) rows.

(** The entries of [v] at the positions [ilist], and the rows and columns
    of [K] at those positions: the system that remains when the other
    rows and columns are removed. *)
Definition subvector {A} (v : list A) (ilist : list nat) : list A :=
  omap (λ i, v !! i) ilist.
Definition submatrix {A} (K : list (list A)) (ilist : list nat) : list (list A) :=
  (λ row, subvector row ilist) <$> subvector K ilist.

(** A singular 3-DOF system: the first pivot is zero. *)
Definition solver3 : Solver Q :=
  {| base := empty_base; derived := None; nidComponentToID := ∅;
     IDtoNidComponents := list_to_map [(0, (1, 1)); (1, (1, 2)); (2, (1, 3))];
     mp_index := 1; f06_file := [] |}.
Definition K3 : matrix Q := [[0; 0; 0]; [0; 2; 0]; [0; 0; 4]]%Q.
Definition F3 : vector Q := [1; 2; 4]%Q.
Definition dofs3 : list Z := [0; 1; 2].

(** A regular 3-DOF system and the all-zero load. *)
Definition K3_regular : matrix Q := [[2; 0; 0]; [0; 2; 0]; [0; 0; 4]]%Q.
Definition F3_zero : vector Q := [0; 0; 0]%Q.

(** Row lengths of a dense array. *)
Definition shape {A} (M : list (list A)) : list nat := length <$> M.

(** The triples of [zip(self.iUm, self.jUm, self.Um)]. *)
Definition mpc_entries {R} (s : Solver R) : list (Z * (Z * R)) :=
  match derived s with
  | Some d => zip (iUm d) (zip (jUm d) (Um d))
  | None => []
  end.

(** One grid point, components 4-6 constrained, and one MPC equation
    [u1 - u2 = 0] stored by [apply_MPCs] at row [mp_index + 1 = 2]. *)
Definition base_mpc : BaseSets Q :=
  {| Usb := [0; 0; 0]%Q; iUsb := [3; 4; 5]; Usg := []; iUsg := [];
     Ump := [1; -1]%Q; iUmp := [2; 2]; jUmp := [0; 1];
     Umr := []; iUmr := []; jUmr := []; Ub := []; iUb := [];
     Uc := []; iUc := []; Ue := []; iUe := []; Uj := []; iUj := [];
     Uk := []; iUk := []; Ulm := []; iUlm := []; Uq := []; iUq := [];
     Ur := []; iUr := []; Uo := []; iUo := []; Usa := []; iUsa := [] |}.
Definition solver_mpc : Solver Q :=
  {| base := base_mpc; derived := Some (derive_sets base_mpc);
     nidComponentToID :=
       list_to_map [((1, 1), 0); ((1, 2), 1); ((1, 3), 2);
                    ((1, 4), 3); ((1, 5), 4); ((1, 6), 5)];
     IDtoNidComponents := ∅; mp_index := 1; f06_file := [] |}.
Definition Kgg6 : matrix Q :=
  [[2; 0; 0; 0; 0; 0]; [0; 2; 0; 0; 0; 0]; [0; 0; 2; 0; 0; 0];
   [0; 0; 0; 2; 0; 0]; [0; 0; 0; 0; 2; 0]; [0; 0; 0; 0; 0; 2]]%Q.
Definition Fg6 : vector Q := [2; 4; 6; 0; 0; 0]%Q.

(** The scatter-adds one element performs, in loop order: a triple
    [(dof1, dof2, K[i, j])] for every pair of positions whose local entry
    passes the [abs(..) > 0.0] test. *)
Definition element_updates {R} `{Float64 R} (K : matrix R) (dofs : list Z)
    : list (Z * Z * R) :=
  enumerate dofs ≫= λ x, enumerate dofs ≫= λ y,
    match K !! x.1 ≫= (.!! y.1) with
    | Some kij => if is_nonzero kij then [(x.2, y.2, kij)] else []
    | None => []
    end.

Definition apply_updates {R} `{Float64 R} (us : list (Z * Z * R))
    (M : matrix R) : result (matrix R) :=
  for_each (λ M u, iadd2 M u.1.1 u.1.2 u.2) us M.

Definition swap_update {R} (u : Z * Z * R) : Z * Z * R := (u.1.2, u.1.1, u.2).

(** The values added to position [(r, c)] of [M], in order. *)
Definition contrib {R} (M : matrix R) (us : list (Z * Z * R)) (r c : nat)
    : list R :=
  omap (λ u, if decide (py_index2 M u.1.1 u.1.2 = Some (r, c))
             then Some u.2 else None) us.

(** What the element provider promises (spec section 6): the local matrix
    is square with side [len(dofs)]; here it is symmetric as well. *)
Definition symmetric_element {R} (e : matrix R * list Z) : Prop :=
  is_square (length e.2) e.1 ∧ symmetric e.1.

(** A DOF index numpy accepts on an axis of length [n]. *)
Definition dof_in_range (n : nat) (d : Z) : Prop :=
  - Z.of_nat n ≤ d < Z.of_nat n.

(** Two rod-like elements on three DOFs. *)
Definition two_elements : list (matrix Q * list Z) :=
  [([[1; -1]; [-1; 1]]%Q, [0; 2]); ([[2; -2]; [-2; 2]]%Q, [2; 1])].

Definition Kgg_two : matrix Q := [[1; 0; -1]; [0; 2; -2]; [-1; -2; 3]]%Q.

(** The rows of [cg] before any division: the principal-frame coupling
    terms with the signs of equation G-18, stored as float32. *)
Definition cg_terms {R} `{Float64 R} (Mtr : matrix R) : option (matrix R) :=
  m00 ← Mtr !! 0%nat ≫= (.!! 0%nat);
  m01 ← Mtr !! 0%nat ≫= (.!! 1%nat);
  m02 ← Mtr !! 0%nat ≫= (.!! 2%nat);
  m10 ← Mtr !! 1%nat ≫= (.!! 0%nat);
  m11 ← Mtr !! 1%nat ≫= (.!! 1%nat);
  m12 ← Mtr !! 1%nat ≫= (.!! 2%nat);
  m20 ← Mtr !! 2%nat ≫= (.!! 0%nat);
  m21 ← Mtr !! 2%nat ≫= (.!! 1%nat);
  m22 ← Mtr !! 2%nat ≫= (.!! 2%nat);
  Some [[to_f32 m00; to_f32 (neg m02); to_f32 m01];
        [to_f32 m12; to_f32 m11; to_f32 (neg m10)];
        [to_f32 (neg m21); to_f32 m20; to_f32 m22]].

(** A symmetric reduced mass matrix with no translational mass along x
    but a coupling term between x translation and x rotation. *)
Definition Mo_coupled : matrix Q :=
  [[0; 0; 0; 5; 0; 0]; [0; 1; 0; 0; 0; 0]; [0; 0; 1; 0; 0; 0];
   [5; 0; 0; 1; 0; 0]; [0; 0; 0; 0; 1; 0]; [0; 0; 0; 0; 0; 1]]%Q.

Definition I3 : matrix Q := [[1; 0; 0]; [0; 1; 0]; [0; 0; 1]]%Q.

(** One grid point with components 2-6 permanently constrained: the
    single free DOF of a spring-mass system, as a SOL 103 case without a
    METHOD entry. *)
Definition spring_mass_model : Model :=
  {| grid := [{| node_id := 1; ps := 23456; cd := 0 |}]; spoint := [];
     sol := 103; has_METHOD := false |}.

(** Collaborators that would do their part for [k = 4], [m = 2]: a mass
    matrix, an assembled system, and an eigen-solver answering [k / m]. *)
Definition Q_get_Mgg (s : Solver Q) (model : Model) (ndofs : value103 (R := Q))
    : result (matrix Q) * Solver Q :=
  (Ok [[2; 0; 0; 0; 0; 0]; [0; 0; 0; 0; 0; 0]; [0; 0; 0; 0; 0; 0];
       [0; 0; 0; 0; 0; 0]; [0; 0; 0; 0; 0; 0]; [0; 0; 0; 0; 0; 0]]%Q, s).
Definition Q_setup_sol_101 (s : Solver Q) (model : Model)
    : result (matrix Q * vector Q * Z) * Solver Q :=
  (Ok ([[4; 0; 0; 0; 0; 0]; [0; 0; 0; 0; 0; 0]; [0; 0; 0; 0; 0; 0];
        [0; 0; 0; 0; 0; 0]; [0; 0; 0; 0; 0; 0]; [0; 0; 0; 0; 0; 0]]%Q,
       [0; 0; 0; 0; 0; 0]%Q, 6), s).
Definition Q_solve_sol_103 (s : Solver Q) (Kgg Mgg : matrix Q)
    : result (vector Q * vector Q) :=
  Ok ([2]%Q, [1]%Q).
Definition Q_method_block (s : Solver Q) (model : Model) : result unit := Ok ().

(** The DOF indices of one element name pairwise distinct positions of an
    axis of length [n] (and all of them resolve). *)
Definition distinct_positions (n : nat) (dofs : list Z) : Prop :=
  NoDup (py_index n <$> dofs).

(** What the pair of loop positions [x], [y] adds, if anything. *)
Definition local_entry {R} `{Float64 R} (K : matrix R) (x y : nat * Z)
    : list R :=
  match K !! x.1 ≫= (.!! y.1) with
  | Some kij => if is_nonzero kij then [kij] else []
  | None => []
  end.

(** ** Permanent constraints of the GRID card *)

(** Decimal digits of a positive integer, least significant first; none
    for zero and for negative numbers. *)
Fixpoint digits_upto (fuel : nat) (p : Z) : list Z :=
  match fuel with
  | O => []
  | S fuel' =>
      if decide (p > 0) then p `mod` 10 :: digits_upto fuel' (p `div` 10)
      else []
  end.
Definition ps_digits (p : Z) : list Z := digits_upto (Z.to_nat p) p.

(** The slots the PS fields of the grid points name when the first grid
    point starts at slot [i]: digit [c] of the k-th point names slot
    [i + 6k + c - 1]. *)
Fixpoint ps_slots (i : Z) (gs : list GridPoint) : list Z :=
  match gs with
  | [] => []
  | g :: gs' => ((λ c, i + c - 1) <$> ps_digits (ps g)) ++ ps_slots (i + 6) gs'
  end.

(** The [(nid, component)] keys the PS fields name. *)
Definition ps_keys (gs : list GridPoint) : list (Z * Z) :=
  gs ≫= λ g, (λ c, (node_id g, c)) <$> ps_digits (ps g).

(** Every PS field is blank or a packed list of components 1..6. *)
Definition valid_ps (gs : list GridPoint) : Prop :=
  Forall (λ g, Forall (λ c, 1 ≤ c ≤ 6) (ps_digits (ps g))) gs.

(** Two base-set records that differ at most in [iUsg] and [Usg]. *)
Definition same_but_sg {R} (b b' : BaseSets R) : Prop :=
  b' = set_sg b (iUsg b') (Usg b').
(** ** Case control and constraint cards *)

(** A value of a case control entry: a word such as [ALL], or an id. *)
Inductive param_value : Type :=
  | PStr (s : string)
  | PNum (z : Z).

#[global] Instance param_value_eq_dec : EqDecision param_value.
Proof. solve_decision. Defined.

(** Modelled from the spec: the subcase object is not part of the sources
    at hand.  The solver reads [case.id] and asks
    [case.has_parameter(name)] and [case.get_parameter(name)], which
    returns the pair [(value, options)]; "the identifiers considered
    active for the current case" are a lookup by entry name. *)
Record Subcase : Type := {
  case_id : Z;
  case_params : gmap string (param_value * list string)
}.

(** One constraint card of an SPC set, by [spc.type].  [spc.components]
    of an SPC1 maps a component string such as ["123"] to node ids (the
    items are listed in iteration order); that of an SPC is a sequence of
    [(dof, node_id)] pairs. *)
Inductive SpcCard : Type :=
  | SPC1 (components : list (string * list Z))
  | SPC (components : list (Z * Z))
  | OtherSpc (type : string).

(** One card of an MPC set, by [mpc.type]: [mpc.constraints] holds the
    equations, each a sequence of terms [(G, C, A)]. *)
Inductive MpcCard (R : Type) : Type :=
  | MPC (constraints : list (list (Z * Z * R)))
  | OtherMpc (type : string).
Arguments MPC {R} constraints.
Arguments OtherMpc {R} type.

(** [int(c)] for a one-character ASCII string. *)
Definition py_int_char (c : Ascii.ascii) : result Z :=
  let n := Ascii.nat_of_ascii c in
  if decide (48 ≤ n ≤ 57)%nat then Ok (Z.of_nat n - 48) else Raise ValueError.

Definition set_sb {R} (b : BaseSets R) (iusb : list Z) (usb : list R)
    : BaseSets R :=
  {| Usb := usb; iUsb := iusb; Usg := Usg b; iUsg := iUsg b;
     Ump := Ump b; iUmp := iUmp b; jUmp := jUmp b;
     Umr := Umr b; iUmr := iUmr b; jUmr := jUmr b;
     Ub := Ub b; iUb := iUb b; Uc := Uc b; iUc := iUc b;
     Ue := Ue b; iUe := iUe b; Uj := Uj b; iUj := iUj b;
     Uk := Uk b; iUk := iUk b; Ulm := Ulm b; iUlm := iUlm b;
     Uq := Uq b; iUq := iUq b; Ur := Ur b; iUr := iUr b;
     Uo := Uo b; iUo := iUo b; Usa := Usa b; iUsa := iUsa b |}.

Definition set_mp {R} (b : BaseSets R) (ump : list R) (iump jump : list Z)
    : BaseSets R :=
  {| Usb := Usb b; iUsb := iUsb b; Usg := Usg b; iUsg := iUsg b;
     Ump := ump; iUmp := iump; jUmp := jump;
     Umr := Umr b; iUmr := iUmr b; jUmr := jUmr b;
     Ub := Ub b; iUb := iUb b; Uc := Uc b; iUc := iUc b;
     Ue := Ue b; iUe := iUe b; Uj := Uj b; iUj := iUj b;
     Uk := Uk b; iUk := iUk b; Ulm := Ulm b; iUlm := iUlm b;
     Uq := Uq b; iUq := iUq b; Ur := Ur b; iUr := iUr b;
     Uo := Uo b; iUo := iUo b; Usa := Usa b; iUsa := iUsa b |}.

Section Constraints.
Context {R : Type} `{Float64 R}.

(** [self.model.get_SPCx_ids(exclude_spcadd=True)] *)
Variable get_SPCx_ids : result (list Z).
(** [model.SPC(spc_id)] *)
Variable model_SPC : Z → result (list SpcCard).
(** [model.MPC(mpc_id)] *)
Variable model_MPC : param_value → result (list (MpcCard R)).

(** [i = nidComponentToID[key]; if i not in self.iUsb:
     self.iUsb.append(i); self.Usb.append(0.0)] *)
Definition constrain (nidComponentToID : gmap (Z * Z) Z)
    (sb : list Z * list R) (key : Z * Z) : result (list Z * list R) :=
  i ← from_option KeyError (nidComponentToID !! key);
  if decide (i ∈ sb.1) then Ok sb else Ok (sb.1 ++ [i], sb.2 ++ [zero]).

(** Body of [for spc in SpcSet]. *)
Definition apply_spc_card (nidComponentToID : gmap (Z * Z) Z)
    (sb : list Z * list R) (spc : SpcCard) : result (list Z * list R) :=
  match spc with
  | SPC1 components =>
      for_each (λ sb '(dof, node_ids),
        for_each (λ sb dofi,
          dofi ← py_int_char dofi;
          for_each (λ sb nid, constrain nidComponentToID sb (nid, dofi))
            node_ids sb)
        (String.list_ascii_of_string dof) sb)
      components sb
  | SPC components =>
      for_each (λ sb '(dof, node_id),
        constrain nidComponentToID sb (node_id, dof)) components sb
  | OtherSpc type => Raise (NotImplementedError type)
  end.

(** [Solver.apply_SPCs].  The test [case.has_parameter('SPC') or
    has_spcs] holds on both branches of the first test.  The logger line
    ['applying SPC=%i' % spc_id] formats the id as an integer. *)
Definition apply_SPCs (case : Subcase) (nidComponentToID : gmap (Z * Z) Z)
    (b : BaseSets R) : result (BaseSets R) :=
  spc_ids ← match case_params case !! "SPC"%string with
            | None => (λ ids : list Z, PNum <$> ids) <$> get_SPCx_ids
            | Some (value, _) => Ok [value]
            end;
  sb ← for_each (λ sb spc_id,
         match spc_id with
         | PStr _ => Raise TypeError
         | PNum spc_id =>
             SpcSet ← model_SPC spc_id;
             for_each (apply_spc_card nidComponentToID) SpcSet sb
         end) spc_ids (iUsb b, Usb b);
  Ok (set_sb b sb.1 sb.2).

(** Body of [for (G, C, A) in constraints] for the row [i]. *)
Definition mpc_term (nidComponentToID : gmap (Z * Z) Z) (i : Z)
    (st : Z * (list R * list Z * list Z)) (term : Z * Z * R)
    : result (Z * (list R * list Z * list Z)) :=
  let '(iconstraint, (Ump_, iUmp_, jUmp_)) := st in
  let '(G, C, A) := term in
  j ← from_option KeyError (nidComponentToID !! (G, C));
  Ok (iconstraint + 1, (Ump_ ++ [A], iUmp_ ++ [i], jUmp_ ++ [j])).

(** Body of [for mpc in mpcs]. *)
Definition apply_mpc_card (nidComponentToID : gmap (Z * Z) Z) (mp_index_ : Z)
    (st : Z * (list R * list Z * list Z)) (mpc : MpcCard R)
    : result (Z * (list R * list Z * list Z)) :=
  match mpc with
  | MPC constraints =>
      for_each (λ st constraints,
        let i := mp_index_ + st.1 in
        for_each (mpc_term nidComponentToID i) constraints st)
      constraints st
  | OtherMpc type => Raise (NotImplementedError type)
  end.

(** [Solver.apply_MPCs] *)
Definition apply_MPCs (case : Subcase) (nidComponentToID : gmap (Z * Z) Z)
    (s : Solver R) : result (Solver R) :=
  let mp_index_ := mp_index s in
  match case_params case !! "MPC"%string with
  | None => Ok s
  | Some (mpc_id, _) =>
      mpcs ← model_MPC mpc_id;
      let iconstraint := mp_index_ in
      st ← for_each (apply_mpc_card nidComponentToID mp_index_) mpcs
             (iconstraint, (Ump (base s), iUmp (base s), jUmp (base s)));
      Ok (with_base s (set_mp (base s) st.2.1.1 st.2.1.2 st.2.2))
  end.
End Constraints.

(** The keys one SPC card constrains, in loop order. *)
Definition spc_card_keys (spc : SpcCard) : list (Z * Z) :=
  match spc with
  | SPC1 components =>
      components ≫= λ '(dof, node_ids),
        String.list_ascii_of_string dof ≫= λ c,
          (λ nid, (nid, Z.of_nat (Ascii.nat_of_ascii c) - 48)) <$> node_ids
  | SPC components => (λ '(dof, node_id), (node_id, dof)) <$> components
  | OtherSpc _ => []
  end.

(** A card the solver supports: an SPC, or an SPC1 whose component
    strings consist of digits. *)
Definition spc_card_supported (spc : SpcCard) : Prop :=
  match spc with
  | SPC1 components =>
      Forall (λ '(dof, _),
        Forall (λ c, 48 ≤ Ascii.nat_of_ascii c ≤ 57)%nat (String.list_ascii_of_string dof))
        components
  | SPC _ => True
  | OtherSpc _ => False
  end.

(** The SPC sets a case selects: the one it names, or every set of the
    model when it names none. *)
Definition selected_spc_ids (get_SPCx_ids : result (list Z)) (case : Subcase)
    : result (list param_value) :=
  match case_params case !! "SPC"%string with
  | None => (λ ids : list Z, PNum <$> ids) <$> get_SPCx_ids
  | Some (value, _) => Ok [value]
  end.

Definition same_but_sb {R} (b b' : BaseSets R) : Prop :=
  b' = set_sb b (iUsb b') (Usb b').

Definition same_but_mp {R} (b b' : BaseSets R) : Prop :=
  b' = set_mp b (Ump b') (iUmp b') (jUmp b').

(** Row numbers of the MPC terms when the first equation is stored at
    [row]: every term of an equation gets the equation's row, and the next
    equation starts as many rows further as the equation has terms. *)
Fixpoint mpc_rows {R} (row : Z) (eqs : list (list (Z * Z * R))) : list Z :=
  match eqs with
  | [] => []
  | terms :: eqs' =>
      replicate (length terms) row ++
      mpc_rows (row + Z.of_nat (length terms)) eqs'
  end.

(** The equations of a sequence of MPC cards. *)
Definition mpc_equations {R} (mpcs : list (MpcCard R))
    : list (list (Z * Z * R)) :=
  mpcs ≫= λ mpc, match mpc with MPC constraints => constraints | _ => [] end.

(** The term [(G, C, A)] of an MPC equation refers to the DOF [j]. *)
Definition term_dof {R : Type} (d : gmap (Z * Z) Z) (j : Z) (term : Z * Z * R)
    : Prop :=
  d !! (term.1.1, term.1.2) = Some j.

(** Worked inputs: the index of one grid point with id 1, an SPC set that
    names components 1-3 of it twice over and component 4 once, and an
    MPC set with the equations [u1 - u2 = 0] and [u3 + 2 u4 - u5 = 0]. *)
Definition index_one_grid : gmap (Z * Z) Z :=
  list_to_map [((1, 1), 0); ((1, 2), 1); ((1, 3), 2);
               ((1, 4), 3); ((1, 5), 4); ((1, 6), 5)].
Definition Q_model_SPC (spc_id : Z) : result (list SpcCard) :=
  if decide (spc_id = 1)
  then Ok [SPC1 [("123"%string, [1])]; SPC [(1, 1); (4, 1)]]
  else Raise KeyError.
Definition Q_model_MPC (mpc_id : param_value) : result (list (MpcCard Q)) :=
  Ok [MPC [[(1, 1, 1%Q); (1, 2, (-1)%Q)]];
      MPC [[(1, 3, 1%Q); (1, 4, 2%Q); (1, 5, (-1)%Q)]]].
Definition case_spc_mpc : Subcase :=
  {| case_id := 1;
     case_params := list_to_map [("SPC"%string, (PNum 1, []));
                                 ("MPC"%string, (PNum 7, []))] |}.
Definition solver_one_grid : Solver Q :=
  {| base := empty_base; derived := None; nidComponentToID := index_one_grid;
     IDtoNidComponents := ∅; mp_index := 1; f06_file := [] |}.
(** ** Load assembler *)

(** One row of a vectorized FORCE or MOMENT card: [load.node_id[i]],
    [load.mag[i]] and the direction [load.xyz[i]]; [load.n] is the number
    of rows. *)
Record LoadRow (R : Type) : Type := {
  load_node_id : Z;
  load_mag : R;
  load_xyz : R * R * R
}.
Arguments load_node_id {R} _. Arguments load_mag {R} _.
Arguments load_xyz {R} _.

Record LoadCard (R : Type) : Type := {
  load_type : string;
  load_rows : list (LoadRow R)
}.
Arguments load_type {R} _. Arguments load_rows {R} _.

Section LoadAssembler.
Context {R : Type} `{Float64 R}.

(** [Fg[dof] += x] *)
Definition iadd1 (Fg : vector R) (dof : Z) (x : R) : result (vector R) :=
  k ← from_option IndexError (py_index (length Fg) dof);
  Ok (alter (λ y, add y x) k Fg).

(** [if abs(x) > 0.: Fg[Dofs[key]] += x] *)
Definition add_load_component (Dofs : gmap (Z * Z) Z) (Fg : vector R)
    (key : Z * Z) (x : R) : result (vector R) :=
  if is_nonzero x then
    dof ← from_option KeyError (Dofs !! key);
    iadd1 Fg dof x
  else Ok Fg.

(** Body of [for load in loads]. *)
Definition assemble_load (Dofs : gmap (Z * Z) Z) (Fg : vector R)
    (load : LoadCard R) : result (vector R) :=
  if decide (load_type load ∈ ["FORCE"; "MOMENT"]%string) then
    ni ← (if decide (load_type load ∈ ["FORCE"]%string) then Ok 0
          else if decide (load_type load ∈ ["MOMENT"]%string) then Ok 3
          else Raise (NotImplementedError (load_type load)));
    for_each (λ Fg row,
      let nid := load_node_id row in
      let '(x, y, z) := load_xyz row in
      let x := mul (load_mag row) x in
      let y := mul (load_mag row) y in
      let z := mul (load_mag row) z in
      Fg ← add_load_component Dofs Fg (nid, ni + 1) x;
      Fg ← add_load_component Dofs Fg (nid, ni + 2) y;
      add_load_component Dofs Fg (nid, ni + 3) z)
    (load_rows load) Fg
  else Raise (NotImplementedError (load_type load)).

(** [Solver.assemble_forces] once the load case is resolved:
    [Fg = zeros(ndofs)] (line 1946) and the loop over [loads] (lines
    1952-1976).  [loads] is what [model.loadcase.resolve] returned. *)
Definition assemble_forces (ndofs : nat) (loads : list (LoadCard R))
    (Dofs : gmap (Z * Z) Z) : result (vector R) :=
  for_each (assemble_load Dofs) loads (zeros ndofs).
End LoadAssembler.

(** The first component a load type acts on, minus one. *)
Definition load_offset {R} (load : LoadCard R) : Z :=
  if decide (load_type load = "FORCE"%string) then 0 else 3.

(** The three products [mag * xyz] of a row with the keys they are added
    to, in loop order. *)
Definition load_components {R} `{Float64 R} (load : LoadCard R)
    : list (Z * Z * R) :=
  load_rows load ≫= λ row,
    let ni := load_offset load in
    [(load_node_id row, ni + 1, mul (load_mag row) (load_xyz row).1.1);
     (load_node_id row, ni + 2, mul (load_mag row) (load_xyz row).1.2);
     (load_node_id row, ni + 3, mul (load_mag row) (load_xyz row).2)].

(** A load of a type the assembler handles. *)
Definition load_supported {R} (load : LoadCard R) : Prop :=
  load_type load = "FORCE"%string ∨ load_type load = "MOMENT"%string.

(** The values added to position [k] of a load vector of length [n], in
    order: the components that pass the [abs(..) > 0.] test and whose
    key resolves to [k]. *)
Definition force_contrib {R} `{Float64 R} (Dofs : gmap (Z * Z) Z) (n : nat)
    (comps : list (Z * Z * R)) (k : nat) : list R :=
  omap (λ c, if is_nonzero c.2 then
               if decide (Dofs !! c.1 ≫= py_index n = Some k) then Some c.2
               else None
             else None) comps.

(** Worked inputs: a force and a moment on node 1, and a force of zero
    magnitude on a node that is not in the model. *)
Definition loads_force_moment : list (LoadCard Q) :=
  [{| load_type := "FORCE";
      load_rows := [{| load_node_id := 1; load_mag := 2%Q;
                       load_xyz := (1, 0, 3)%Q |}] |};
   {| load_type := "MOMENT";
      load_rows := [{| load_node_id := 1; load_mag := 1%Q;
                       load_xyz := (0, 0, 5)%Q |}] |}].
Definition loads_zero : list (LoadCard Q) :=
  [{| load_type := "FORCE";
      load_rows := [{| load_node_id := 99; load_mag := 0%Q;
                       load_xyz := (1, 1, 1)%Q |}] |}].
(** ** Result tables and the case driver *)

(** The tables the modelled methods fill: [self.iSubcases] and
    [self.displacements], a table being the rows handed to
    [add_f06_data] ([nid, 'G', t1 .. r3]). *)
Record Results (R : Type) : Type := {
  iSubcases : list Z;
  displacements : gmap Z (list (Z * string * list R))
}.
Arguments iSubcases {R} _. Arguments displacements {R} _.

Section StoreDisplacements.
Context {R : Type}.

(** [line = [nid, 'G']] followed by [line += xyz], where [xyz] is the
    slice [U[i:i + 6]] of the ndarray [U] that [run_sol_101] passes.  A
    list has no numeric in-place addition and an ndarray has an addition,
    so Python evaluates the statement as [numpy.add(line, xyz)]; numpy
    turns the list into an array of strings, because of ['G'], and has no
    addition of strings and float64: it raises [UFuncTypeError], a
    [TypeError].  The list is not extended. *)
Definition displacement_line (nid : Z) (xyz : vector R)
    : result (Z * string * list R) :=
  Raise TypeError.

(** Body of [for ni in range(model.grid.n)]. *)
Definition displacement_step (U : vector R)
    (st : nat * list (Z * string * list R)) (g : GridPoint)
    : result (nat * list (Z * string * list R)) :=
  let '(i, data) := st in
  line ← displacement_line (node_id g) (take 6 (drop i U));
  Ok ((i + 6)%nat, data ++ [line]).

(** [Solver._store_displacements]: [self.iSubcases = []] comes first,
    the table is stored after the loop. *)
Definition _store_displacements (res : Results R) (model : Model)
    (U : vector R) (case : Subcase) : result unit * Results R :=
  let res := {| iSubcases := []; displacements := displacements res |} in
  let isubcase := case_id case in
  match for_each (displacement_step U) (grid model) (0%nat, []) with
  | Raise e => (Raise e, res)
  | Ok (_, data) =>
      (Ok (), {| iSubcases := iSubcases res ++ [isubcase];
                 displacements := <[isubcase := data]> (displacements res) |})
  end.
End StoreDisplacements.

(** The attributes of [self] that [run_case] and [get_case_parameter]
    assign. *)
Record Report : Type := {
  Title : param_value;
  Subtitle : param_value;
  label : param_value;
  iSubcaseNameMap : gmap Z (param_value * param_value);
  case_result_flags : gmap string (bool * bool);
  is_displacement : bool;
  is_stress : bool;
  is_strain : bool;
  is_force : bool
}.

(** How a call of the case driver ends: with a value, with one of the
    exceptions of the solver proper, or with [RuntimeError]. *)
Inductive outcome (A : Type) : Type :=
  | Finished (a : A)
  | Failed (e : exn)
  | FailedRuntimeError (msg : string).
Arguments Finished {A} a.
Arguments Failed {A} e.
Arguments FailedRuntimeError {A} msg.

Definition with_flags (st : Report) (flags : gmap string (bool * bool))
    : Report :=
  {| Title := Title st; Subtitle := Subtitle st; label := label st;
     iSubcaseNameMap := iSubcaseNameMap st; case_result_flags := flags;
     is_displacement := is_displacement st; is_stress := is_stress st;
     is_strain := is_strain st; is_force := is_force st |}.

(** [Solver.get_case_parameter] *)
Definition get_case_parameter (st : Report) (case : Subcase)
    (param_name : string) : result Report :=
  flags ←
    match case_params case !! param_name with
    | Some (value, options) =>
        if decide (value = PStr "ALL") then Ok (true, true)
        else if decide (value = PStr "NONE") then Ok (false, true)
        else Raise (NotImplementedError "%s = %r is not supported")
    | None => Ok (false, false)
    end;
  Ok (with_flags st (<[param_name := flags]> (case_result_flags st))).

Section CaseDriver.
Context {A : Type}.

(** [self.run_sol_101] and [self.run_sol_103] as the entries of the
    dictionary [sols]; they start from the attributes [run_case] has
    set. *)
Variable run_sol_101 : Report → Model → Subcase → outcome A.
Variable run_sol_103 : Report → Model → Subcase → outcome A.

(** [self.case_result_flags[name][0]] *)
Definition result_flag (st : Report) (name : string) : result bool :=
  fst <$> from_option KeyError (case_result_flags st !! name).

(** [Solver.run_case] *)
Definition run_case (st : Report) (model : Model) (case : Subcase)
    : outcome A :=
  let isubcase := case_id case in
  if decide (sol model ∈ [101; 103]) then
    let Title_ := match case_params case !! "TITLE"%string with
                  | Some (value, _) => value
                  | None => PStr "pyNastran Job"
                  end in
    let Subtitle_ := match case_params case !! "SUBTITLE"%string with
                     | Some (value, _) => value
                     | None => PStr "DEFAULT"
                     end in
    let label_ := match case_params case !! "LABEL"%string with
                  | Some (value, _) => value
                  | None => PStr EmptyString
                  end in
    let st :=
      {| Title := Title_; Subtitle := Subtitle_; label := label_;
         iSubcaseNameMap := <[isubcase := (Subtitle_, label_)]> (iSubcaseNameMap st);
         case_result_flags := case_result_flags st;
         is_displacement := is_displacement st; is_stress := is_stress st;
         is_strain := is_strain st; is_force := is_force st |} in
    match
      st ← get_case_parameter st case "DISPLACEMENT";
      st ← get_case_parameter st case "STRESS";
      st ← get_case_parameter st case "STRAIN";
      st ← get_case_parameter st case "FORCE";
      d ← result_flag st "DISPLACEMENT";
      s ← result_flag st "STRESS";
      e ← result_flag st "STRAIN";
      f ← result_flag st "FORCE";
      Ok {| Title := Title st; Subtitle := Subtitle st; label := label st;
            iSubcaseNameMap := iSubcaseNameMap st;
            case_result_flags := case_result_flags st;
            is_displacement := if negb d then false else true;
            is_stress := if negb s then false else true;
            is_strain := if negb e then false else true;
            is_force := if negb f then false else true |}
    with
    | Raise e => Failed e
    | Ok st =>
        if negb (is_displacement st || is_stress st || is_strain st
                 || is_force st)
        then FailedRuntimeError "No results selected..."
        else if decide (sol model = 101) then run_sol_101 st model case
        else run_sol_103 st model case
    end
  else Failed (NotImplementedError "model.sol=%s not in %s").
End CaseDriver.

(** An output request of the case is [ALL]. *)
Definition requested (case : Subcase) (name : string) : bool :=
  match case_params case !! name with
  | Some (value, _) => bool_decide (value = PStr "ALL")
  | None => false
  end.

(** An output request of the case is absent, [ALL] or [NONE]. *)
Definition request_supported (case : Subcase) (name : string) : bool :=
  match case_params case !! name with
  | Some (value, _) =>
      bool_decide (value = PStr "ALL") || bool_decide (value = PStr "NONE")
  | None => true
  end.

Definition output_requests : list string :=
  ["DISPLACEMENT"; "STRESS"; "STRAIN"; "FORCE"]%string.

(** The flags [get_case_parameter] records for a supported request. *)
Definition request_flags (case : Subcase) (name : string) : bool * bool :=
  (requested case name, bool_decide (is_Some (case_params case !! name))).

(** The attributes [run_case] hands to the solution sequence. *)
Definition report_for (st : Report) (case : Subcase) : Report :=
  let value_or name default :=
    match case_params case !! name with
    | Some (value, _) => value
    | None => default
    end in
  let Subtitle_ := value_or "SUBTITLE"%string (PStr "DEFAULT") in
  let label_ := value_or "LABEL"%string (PStr EmptyString) in
  {| Title := value_or "TITLE"%string (PStr "pyNastran Job");
     Subtitle := Subtitle_; label := label_;
     iSubcaseNameMap :=
       <[case_id case := (Subtitle_, label_)]> (iSubcaseNameMap st);
     case_result_flags :=
       foldl (λ m name, <[name := request_flags case name]> m)
         (case_result_flags st) output_requests;
     is_displacement := requested case "DISPLACEMENT";
     is_stress := requested case "STRESS";
     is_strain := requested case "STRAIN";
     is_force := requested case "FORCE" |}.
(** ** Global assembly over the element types *)

(** An element type of the vectorized model ([model.crod], ...): its
    size [n] and its providers, called as
    [get_stiffness_matrix(i, model, self.positions, index0s)] and
    [get_mass_matrix(i, model, self.positions, index0s)].  They return
    [(K, dofs, nijv)]; the solver does not use [nijv]. *)
Record ElementType (R : Type) : Type := {
  elem_n : nat;
  get_stiffness_matrix :
    nat → gmap Z (R * R * R) → gmap Z Z → result (list (list R) * list Z);
  get_mass_matrix :
    nat → gmap Z (R * R * R) → gmap Z Z → result (list (list R) * list Z)
}.
Arguments elem_n {R} _. Arguments get_stiffness_matrix {R} _.
Arguments get_mass_matrix {R} _.

(** A 3 x 3 array, as [coord.beta()] returns it. *)
Definition mat33 (R : Type) : Type := (R * R * R) * (R * R * R) * (R * R * R).

(** What the assembly reads from the model besides the GRID ids:
    positions [model.grid.xyz] and coordinate systems [model.grid.cp]
    (arrays parallel to the grid points), [model.coords[cp].beta()], and
    the element types. *)
Record Elements (R : Type) : Type := {
  grid_xyz : list (R * R * R);
  grid_cp : list Z;
  coords_beta : gmap Z (mat33 R);
  celas1 : ElementType R;
  celas2 : ElementType R;
  celas3 : ElementType R;
  celas4 : ElementType R;
  conrod : ElementType R;
  crod : ElementType R;
  ctria3 : ElementType R;
  cquad4 : ElementType R;
  (* model.mass.conm1: n and get_mass_matrix(i) *)
  mass_conm1_n : nat;
  mass_conm1_get_mass_matrix : nat → result (list (list R));
  (* model.mass.conm2.n, and model.conm1 whose provider the CONM2 loop calls *)
  mass_conm2_n : nat;
  conm1 : ElementType R;
  (* model.elements_solid *)
  elements_solid_n : nat;
  ctetra4 : ElementType R;
  cpenta6_n : nat;
  chexa8_n : nat
}.
Arguments grid_xyz {R} _. Arguments grid_cp {R} _.
Arguments coords_beta {R} _.
Arguments celas1 {R} _. Arguments celas2 {R} _. Arguments celas3 {R} _.
Arguments celas4 {R} _. Arguments conrod {R} _. Arguments crod {R} _.
Arguments ctria3 {R} _. Arguments cquad4 {R} _.
Arguments mass_conm1_n {R} _. Arguments mass_conm1_get_mass_matrix {R} _.
Arguments mass_conm2_n {R} _. Arguments conm1 {R} _.
Arguments elements_solid_n {R} _. Arguments ctetra4 {R} _.
Arguments cpenta6_n {R} _. Arguments chexa8_n {R} _.

(** Names assigned somewhere in the body of
    [assemble_global_mass_matrix] (its parameters included). *)
Definition assemble_global_mass_matrix_locals : list string :=
  ["self"; "model"; "ndofs"; "Dofs"; "dof_mapper"; "nnodes"; "nspoints";
   "i"; "nids"; "index0s"; "nid"; "conm1"; "M"; "i0"; "coord_id";
   "ii1"; "i01"; "ii2"; "i02"; "dofs"; "nijv"; "nsolids"; "solid";
   "Mgg_sparse"; "Mgg"]%string.

Section GlobalAssembly.
Context {R : Type} `{Float64 R}.

(** [self.positions = {}; index0s = {}] and the loop
    [for i in range(model.grid.n)] that fills them. *)
Definition grid_positions (model : Model) (xyz : list (R * R * R))
    : result (gmap Z (R * R * R) * gmap Z Z) :=
  for_each (λ '(positions, index0s) '(i, g),
      let nid := node_id g in
      p ← getitem xyz i;
      Ok (<[nid := p]> positions, <[nid := 6 * Z.of_nat i]> index0s))
    (enumerate (grid model)) (∅, ∅).

(** [for i in range(n): K, dofs, nijv = provider(i, ..);
     self.add_stiffness(K, dofs, nijv)] *)
Definition add_stiffness_of (provider : nat → result (matrix R * list Z))
    (n : nat) (Kgg : matrix R) : result (matrix R) :=
  for_each (λ Kgg i, '(K, dofs) ← provider i; add_stiffness K dofs Kgg)
    (seq 0 n) Kgg.

(** [Solver.assemble_global_stiffness_matrix].  The value is [Kgg]
    ([Kgg_sparse] is [None]) with [self.positions] as the call leaves it.
    Each block [if t.n: for i in range(t.n): ..] is its loop. *)
Definition assemble_global_stiffness_matrix (model : Model)
    (els : Elements R) (i : nat)
    : result (matrix R * gmap Z (R * R * R)) :=
  let Kgg := zeros2 i i in
  let nnodes := length (grid model) in
  if decide (0 < nnodes)%nat then
    '(positions, index0s) ← grid_positions model (grid_xyz els);
    let block (t : ElementType R) :=
      add_stiffness_of (λ i, get_stiffness_matrix t i positions index0s)
        (elem_n t) in
    Kgg ← block (celas1 els) Kgg;
    Kgg ← block (celas2 els) Kgg;
    Kgg ← block (celas3 els) Kgg;
    Kgg ← block (celas4 els) Kgg;
    Kgg ← block (conrod els) Kgg;
    Kgg ← block (crod els) Kgg;
    Kgg ← block (ctria3 els) Kgg;
    Kgg ← block (cquad4 els) Kgg;
    Ok (Kgg, positions)
  else Raise (AssertionError EmptyString).

(** [for i in range(n): M, dofs, nijv = provider(i, ..);
     self.add_mass(M, dofs, nijv)] *)
Definition add_mass_of (provider : nat → result (matrix R * list Z))
    (n : nat) (st : matrix R * Dok R) : result (matrix R * Dok R) :=
  for_each (λ st i, '(M, dofs) ← provider i; add_mass M dofs st)
    (seq 0 n) st.

(** The statements of the CONM1 loop that follow
    [i0 = index[conm1.node_id[i]]]: they get the value of [index]. *)
Variable conm1_block :
  value103 (R := R) → nat → matrix R → matrix R * Dok R →
  result (matrix R * Dok R).

(** [Solver.assemble_global_mass_matrix].  The value is [Mgg] (the second
    component of the returned pair is [None]) with [self.Mgg_sparse] and
    [self.positions] as the call leaves them.  The function never assigns
    [index], so no frame of locals is consulted for it. *)
Definition assemble_global_mass_matrix (model : Model) (els : Elements R)
    (ndofs : nat)
    : result (matrix R * Dok R * gmap Z (R * R * R)) :=
  let st : matrix R * Dok R :=
    (zeros2 ndofs ndofs, {| dok_shape := (ndofs, ndofs); dok_data := ∅ |}) in
  let nnodes := length (grid model) in
  if decide (0 < nnodes)%nat then
    '(positions, index0s) ← grid_positions model (grid_xyz els);
    st ← for_each (λ st i,
           M ← mass_conm1_get_mass_matrix els i;
           index ← load_name assemble_global_mass_matrix_locals ∅ VObject
                     "index";
           conm1_block index i M st)
         (seq 0 (mass_conm1_n els)) st;
    let block (t : ElementType R) (n : nat) :=
      add_mass_of (λ i, get_mass_matrix t i positions index0s) n in
    st ← block (conm1 els) (mass_conm2_n els) st;
    st ← block (conrod els) (elem_n (conrod els)) st;
    st ← block (crod els) (elem_n (crod els)) st;
    st ← block (ctria3 els) (elem_n (ctria3 els)) st;
    st ← block (cquad4 els) (elem_n (cquad4 els)) st;
    st ← (if decide (elements_solid_n els ≠ 0%nat) then
            st ← block (ctetra4 els) (elem_n (ctetra4 els)) st;
            st ← block (ctetra4 els) (cpenta6_n els) st;
            block (ctetra4 els) (chexa8_n els) st
          else Ok st);
    Ok (st, positions)
  else Raise (AssertionError EmptyString).
End GlobalAssembly.

(** Every matrix a provider returns is symmetric, square of side
    [len(dofs)], and either additions onto one entry commute or its DOF
    indices name distinct positions of an axis of length [n]. *)
Definition symmetric_provider {R} `{Float64 R} (n : nat)
    (provider : nat → gmap Z (R * R * R) → gmap Z Z →
                result (list (list R) * list Z)) : Prop :=
  ∀ i positions index0s K dofs,
    provider i positions index0s = Ok (K, dofs) →
    symmetric_element (K, dofs) ∧
    ((∀ x v w : R, add (add x v) w = add (add x w) v) ∨
     distinct_positions n dofs).

(** The element types whose stiffness is assembled. *)
Definition stiffness_types {R} (els : Elements R) : list (ElementType R) :=
  [celas1 els; celas2 els; celas3 els; celas4 els; conrod els; crod els;
   ctria3 els; cquad4 els].

(** The element types whose mass provider is called. *)
Definition mass_types {R} (els : Elements R) : list (ElementType R) :=
  [conm1 els; conrod els; crod els; ctria3 els; cquad4 els; ctetra4 els].
(** ** Grid point weight generator, from the positions on *)

(** The table [self.grid_point_weight] as [make_gpwg] fills it:
    [reference_point], [MO], the principal-axis part ([S], [mass], [cg],
    [IS]), [IQ] and [Q]. *)
Record GridPointWeightTable (R : Type) : Type := {
  gpw_reference_point : Z;
  gpw_MO : list (list R);
  gpw_principal : GridPointWeight R;
  gpw_IQ : list R;
  gpw_Q : list (list R)
}.
Arguments gpw_reference_point {R} _. Arguments gpw_MO {R} _.
Arguments gpw_principal {R} _. Arguments gpw_IQ {R} _.
Arguments gpw_Q {R} _.

Definition with_nidComponentToID {R} (s : Solver R) (d : gmap (Z * Z) Z)
    : Solver R :=
  {| base := base s; derived := derived s; nidComponentToID := d;
     IDtoNidComponents := IDtoNidComponents s;
     mp_index := mp_index s; f06_file := f06_file s |}.

(** Order of dictionary items by key. *)
Definition key_le {A : Type} (a b : Z * A) : Prop := a.1 ≤ b.1.

#[global] Instance key_le_dec {A : Type} : RelDecision (@key_le A).
Proof. intros a b. unfold key_le. apply _. Defined.

Section GpwgFull.
Context {R : Type} `{Float64 R}.

(** [numpy.linalg.eigh] and [numpy.linalg.eig]: [None] when they raise. *)
Variable eigh : matrix R → option (vector R * matrix R).
Variable eig : matrix R → option (vector R * matrix R).
Variable conm1_block :
  value103 (R := R) → nat → matrix R → matrix R * Dok R →
  result (matrix R * Dok R).

(** A row of three values stored in an array of dtype float32. *)
Definition to_f32_row (p : R * R * R) : R * R * R :=
  (to_f32 p.1.1, to_f32 p.1.2, to_f32 p.2).

(** [sorted(iteritems(self.positions))]: the keys of a dictionary are
    distinct, so the items are ordered by key. *)
Definition sorted_items (positions : gmap Z (R * R * R))
    : list (Z * (R * R * R)) :=
  merge_sort key_le (map_to_list positions).

(** [xyz_cid0 = zeros((self.model.grid.n, 3), dtype='float32')] and the
    loop [xyz_cid0[i, :] = xyz] over the sorted items. *)
Definition xyz_cid0_of (grid_n : nat) (positions : gmap Z (R * R * R))
    : result (list (R * R * R)) :=
  for_each (λ (xyz_cid0 : list (R * R * R)) '(i, (key, xyz)),
      if decide (i < length xyz_cid0)%nat
      then Ok (<[i := to_f32_row xyz]> xyz_cid0)
      else Raise IndexError)
    (enumerate (sorted_items positions))
    (replicate grid_n (zero, zero, zero)).

Definition rows33 (T : mat33 R) : matrix R :=
  let '(a, b, c) := T in
  [[a.1.1; a.1.2; a.2]; [b.1.1; b.1.2; b.2]; [c.1.1; c.1.2; c.2]].

(** The 6 x 6 block [d] of one node: [d[:3, :3] = TiT],
    [d[3:, 3:] = TiT], [d[:3, 3:] = dot(TiT, Tr)], in float32. *)
Definition rigid_body_block (Ti : mat33 R) (node : R * R * R)
    : result (matrix R) :=
  let '(r1, r2, r3) := node in
  let Tr : matrix R :=
    [[to_f32 zero; to_f32 r3; to_f32 (neg r2)];
     [to_f32 (neg r3); to_f32 zero; to_f32 r1];
     [to_f32 r2; to_f32 (neg r1); to_f32 zero]] in
  let TiT := mat_T (rows33 Ti) in
  TiTTr ← dot TiT Tr;
  Ok (zip_with (λ a b : list R, (to_f32 <$> a) ++ (to_f32 <$> b)) TiT TiTTr ++
      ((λ a : list R, [zero; zero; zero] ++ (to_f32 <$> a)) <$> TiT)).

(** [Solver.make_gpwg] up to [D] (lines 1365-1402).  The argument
    [grid_point] is overwritten by [grid_point = 2] before it is read.
    [D[j:j+6, :] = d] for [j = 6 i] fills the rows of [D] block after
    block. *)
Definition make_gpwg_D (els : Elements R) (grid_n : nat)
    (positions : gmap Z (R * R * R)) (grid_point : Z) : result (matrix R) :=
  xyz_cid0 ← xyz_cid0_of grid_n positions;
  let grid_point := 2 in
  ref_point ← (if decide (grid_point ∈ [-1; 0]) then Ok (zero, zero, zero)
               else from_option KeyError (positions !! grid_point));
  for_each (λ (D : matrix R) '(i, xyz),
      let node := (sub xyz.1.1 ref_point.1.1, sub xyz.1.2 ref_point.1.2,
                   sub xyz.2 ref_point.2) in
      cp ← getitem (grid_cp els) i;
      Ti ← from_option KeyError (coords_beta els !! cp);
      d ← rigid_body_block Ti node;
      Ok (D ++ d))
    (enumerate xyz_cid0) [].

(** [diag(M)] of a two-dimensional array. *)
Definition diag (M : matrix R) : vector R :=
  omap id (imap (λ k (row : list R), row !! k) M).

(** [Solver.make_gpwg] as a whole: [D], [Mo = triple(D, Mgg)], the
    principal-axis part, and the principal inertias.
    [fill_diagonal(-II, diag(II))] fills a temporary array, and the test
    [nan in II] compares with [==], which no entry passes. *)
Definition Solver_make_gpwg (els : Elements R) (grid_n : nat)
    (positions : gmap Z (R * R * R)) (grid_point : Z) (Mgg : matrix R)
    : result (GridPointWeightTable R) :=
  D ← make_gpwg_D els grid_n positions grid_point;
  Mo ← triple D Mgg;
  w ← make_gpwg eigh Mo;
  let II := gpw_IS w in
  '(omegaQ, Q) ← from_option LinAlgError (eig II);
  IQ ← triple Q II;
  Ok {| gpw_reference_point := 2; gpw_MO := Mo; gpw_principal := w;
        gpw_IQ := diag IQ; gpw_Q := Q |}.

(** [Solver.get_Mgg] as both callers use it, with [force_calcs=True].
    [params] holds the integer entries of [model.params]; the value is
    [Mgg] with [model.params], [self.positions] and
    [self.grid_point_weight] as the call leaves them. *)
Definition get_Mgg (model : Model) (els : Elements R)
    (params : gmap string Z) (ndofs : nat)
    : result (matrix R * gmap string Z * gmap Z (R * R * R) *
              option (GridPointWeightTable R)) :=
  '(Mgg, Mgg_sparse, positions) ←
    assemble_global_mass_matrix conm1_block model els ndofs;
  let params := <["GRDPNT"%string := 0]> params in
  match params !! "GRDPNT"%string with
  | Some grid_point =>
      if decide (grid_point = -1) then Ok (Mgg, params, positions, None)
      else
        w ← Solver_make_gpwg els (length (grid model)) positions grid_point Mgg;
        Ok (Mgg, params, positions, Some w)
  | None => Ok (Mgg, params, positions, None)
  end.

(** Collaborators of [setup_sol_101] outside the sources at hand. *)
Variable get_SPCx_ids : result (list Z).
Variable model_SPC : Z → result (list SpcCard).
Variable model_MPC : param_value → result (list (MpcCard R)).
(** [model.caseControlDeck.get_subcase_parameter(case.id, 'LOAD')]
    followed by [model.loadcase.resolve(int(loadID))]. *)
Variable resolve_loads : Subcase → result (list (LoadCard R)).

(** [Solver.setup_sol_101] *)
Definition setup_sol_101 (s : Solver R) (model : Model) (els : Elements R)
    (params : gmap string Z) (case : Subcase)
    : result (matrix R * vector R * Z * Solver R) :=
  let '(r, s) := build_nid_component_to_id s model in
  '(d, ndofs) ← r;
  let s := with_nidComponentToID s d in
  b ← apply_SPCs get_SPCx_ids model_SPC case (nidComponentToID s) (base s);
  let s := with_base s b in
  s ← apply_MPCs model_MPC case (nidComponentToID s) s;
  Mgg ← get_Mgg model els params (Z.to_nat ndofs);
  '(Kgg, positions) ←
    assemble_global_stiffness_matrix model els (Z.to_nat ndofs);
  loads ← resolve_loads case;
  Fg ← assemble_forces (Z.to_nat ndofs) loads (nidComponentToID s);
  Ok (Kgg, Fg, ndofs, s).
End GpwgFull.

(** Worked inputs: two grid points joined by one rod along component 1,
    and a model of scalar points only. *)
Definition no_elements : ElementType Q :=
  {| elem_n := 0;
     get_stiffness_matrix := λ _ _ _, Raise IndexError;
     get_mass_matrix := λ _ _ _, Raise IndexError |}.
Definition one_rod : ElementType Q :=
  {| elem_n := 1;
     get_stiffness_matrix := λ _ _ _, Ok ([[3; -3]; [-3; 3]]%Q, [0; 6]);
     get_mass_matrix := λ _ _ _, Ok ([[1; 0]; [0; 1]]%Q, [0; 6]) |}.
Definition rod_elements (n_conm1 : nat) : Elements Q :=
  {| grid_xyz := [(0, 0, 0); (1, 0, 0)]%Q; grid_cp := [0; 0];
     coords_beta := {[ 0 := ((1, 0, 0), (0, 1, 0), (0, 0, 1))%Q ]};
     celas1 := no_elements; celas2 := no_elements; celas3 := no_elements;
     celas4 := no_elements; conrod := no_elements; crod := one_rod;
     ctria3 := no_elements; cquad4 := no_elements;
     mass_conm1_n := n_conm1;
     mass_conm1_get_mass_matrix := λ _, Ok (zeros2 6 6);
     mass_conm2_n := 0; conm1 := no_elements;
     elements_solid_n := 0; ctetra4 := no_elements;
     cpenta6_n := 0; chexa8_n := 0 |}.
Definition two_grid_rod (second_id : Z) : Model :=
  {| grid := [{| node_id := 1; ps := 123456; cd := 0 |};
              {| node_id := second_id; ps := 23456; cd := 0 |}];
     spoint := []; sol := 101; has_METHOD := false |}.
Definition spoints_only : Model :=
  {| grid := []; spoint := [7; 5]; sol := 101; has_METHOD := false |}.
Definition Q_conm1_block (index : value103 (R := Q)) (i : nat)
    (M : matrix Q) (st : matrix Q * Dok Q) : result (matrix Q * Dok Q) :=
  Ok st.
Definition Q_eig (A : matrix Q) : option (vector Q * matrix Q) := None.
Definition Q_resolve_loads (case : Subcase) : result (list (LoadCard Q)) :=
  Ok loads_force_moment.

(** A singular system without a zero on the diagonal, and a solver
    indexed for its two DOFs. *)
Definition K2_singular : matrix Q := [[1; 1]; [1; 1]]%Q.
Definition F2_load : vector Q := [1; 2]%Q.
Definition solver2 : Solver Q :=
  {| base := empty_base; derived := None; nidComponentToID := ∅;
     IDtoNidComponents := list_to_map [(0, (1, 1)); (1, (1, 2))];
     mp_index := 1; f06_file := [] |}.
(** ** Spring results of SOL 101 *)

(** One spring type as the result block of [run_sol_101] reads it
    ([model.elements_spring.celas1], ...): [n], [element_id], [type] and
    [displacement_stress(model, self.positions, q, self.nidComponentToID,
    ispring, o1, e1, f1)], which fills the arrays [o1], [e1], [f1] in
    place. *)
Record SpringType (R : Type) : Type := {
  spring_n : nat;
  spring_element_id : list Z;
  spring_type : string;
  displacement_stress :
    nat → list R * list R * list R → result (list R * list R * list R)
}.
Arguments spring_n {R} _. Arguments spring_element_id {R} _.
Arguments spring_type {R} _. Arguments displacement_stress {R} _.

(** The spring tables of [self], by subcase: the class of the table
    object and the rows [[eid, value]] handed to [add_f06_data]. *)
Record SpringTables (R : Type) : Type := {
  celas_stress : gmap Z (string * list (Z * R));
  celas_strain : gmap Z (string * list (Z * R));
  spring_forces : gmap Z (string * list (Z * R))
}.
Arguments celas_stress {R} _. Arguments celas_strain {R} _.
Arguments spring_forces {R} _.

Section SpringResults.
Context {R : Type} `{Float64 R}.

(** [Solver._store_spring_oes] *)
Definition _store_spring_oes (t : SpringTables R) (eids : list Z)
    (axial : vector R) (isubcase : Z) (elementType : string)
    (Type_ : string) : result (SpringTables R) :=
  if decide (length eids = 0%nat) then Ok t
  else
    stress ← (if decide (Type_ = "stress"%string) then Ok "RealCelasStress"%string
              else if decide (Type_ = "strain"%string)
                   then Ok "RealCelasStrain"%string
              else Raise (NotImplementedError Type_));
    let data := zip eids axial in
    if decide (Type_ = "stress"%string) then
      Ok {| celas_stress := <[isubcase := (stress, data)]> (celas_stress t);
            celas_strain := celas_strain t;
            spring_forces := spring_forces t |}
    else if decide (Type_ = "strain"%string) then
      Ok {| celas_stress := celas_stress t;
            celas_strain := <[isubcase := (stress, data)]> (celas_strain t);
            spring_forces := spring_forces t |}
    else Raise (NotImplementedError "elementType=%r Type=%r").

(** [Solver._store_spring_oef] *)
Definition _store_spring_oef (t : SpringTables R) (eids : list Z)
    (axial : vector R) (isubcase : Z) (elementType : string)
    : SpringTables R :=
  if decide (length eids = 0%nat) then t
  else
    let data := zip eids axial in
    {| celas_stress := celas_stress t; celas_strain := celas_strain t;
       spring_forces :=
         <[isubcase := ("RealSpringForce"%string, data)]> (spring_forces t) |}.

(** Body of the second [for elementType in elementTypes]: the state is
    [ispring], the three arrays, and [eids] once it is bound. *)
Definition spring_step
    (st : nat * (list R * list R * list R) * option (list Z))
    (elementType : SpringType R)
    : result (nat * (list R * list R * list R) * option (list Z)) :=
  let '(ispring, arrays, eids) := st in
  let n := spring_n elementType in
  '(arrays, eids) ←
    (if decide (n ≠ 0%nat) then
       arrays ← displacement_stress elementType ispring arrays;
       Ok (arrays, Some (spring_element_id elementType))
     else Ok (arrays, eids));
  Ok ((ispring + n)%nat, arrays, eids).

(** The SPRINGS block of [run_sol_101] (lines 707-740) for the subcase
    [isubcase].  After the loop the name [elementType] is still bound to
    the last entry of [elementTypes]. *)
Definition run_sol_101_springs (t : SpringTables R)
    (celas1_ celas2_ celas3_ celas4_ : SpringType R) (isubcase : Z)
    : result (SpringTables R) :=
  let elementTypes := [celas1_; celas2_; celas3_; celas4_] in
  let nsprings := foldl (λ nsprings elementType,
                           (nsprings + spring_n elementType)%nat)
                    0%nat elementTypes in
  if decide (nsprings ≠ 0%nat) then
    let o1 := zeros nsprings in
    let e1 := zeros nsprings in
    let f1 := zeros nsprings in
    '(ispring, (o1, e1, f1), eids) ←
      for_each spring_step elementTypes (0%nat, (o1, e1, f1), None);
    eids ← from_option (NameError "eids") eids;
    let elementType := celas4_ in
    t ← _store_spring_oes t eids e1 isubcase (spring_type elementType) "strain";
    t ← _store_spring_oes t eids o1 isubcase (spring_type elementType) "stress";
    Ok (_store_spring_oef t eids f1 isubcase (spring_type elementType))
  else Ok t.
End SpringResults.

(** The element ids of the rows of a table, if the subcase has one. *)
Definition table_ids {R : Type} (tables : gmap Z (string * list (Z * R)))
    (isubcase : Z) : option (list Z) :=
  match tables !! isubcase with
  | Some table => Some (table.2.*1)
  | None => None
  end.

(** Worked input: two CELAS1 and one CELAS2 element whose results are
    the element ids themselves. *)
Definition springs_celas1 : SpringType Q :=
  {| spring_n := 2; spring_element_id := [11; 12]; spring_type := "CELAS1";
     displacement_stress := λ ispring '(o1, e1, f1),
       Ok (<[S ispring := 12%Q]> (<[ispring := 11%Q]> o1),
           <[S ispring := 12%Q]> (<[ispring := 11%Q]> e1),
           <[S ispring := 12%Q]> (<[ispring := 11%Q]> f1)) |}.
Definition springs_celas2 : SpringType Q :=
  {| spring_n := 1; spring_element_id := [21]; spring_type := "CELAS2";
     displacement_stress := λ ispring '(o1, e1, f1),
       Ok (<[ispring := 21%Q]> o1, <[ispring := 21%Q]> e1,
           <[ispring := 21%Q]> f1) |}.
Definition springs_none (type : string) : SpringType Q :=
  {| spring_n := 0; spring_element_id := []; spring_type := type;
     displacement_stress := λ _ arrays, Ok arrays |}.
Definition no_spring_tables : SpringTables Q :=
  {| celas_stress := ∅; celas_strain := ∅; spring_forces := ∅ |}.

(** ** IEEE 754 binary64 as an instance of the scalar interface

    numpy's [float64] is IEEE 754 binary64 with rounding to nearest, ties
    to even.  [SpecFloat] of the Standard Library specifies that format:
    signed zeros, infinities, one NaN and the finite numbers
    [(-1)^s m 2^e], with every operation rounded once. *)

Definition binary64 : Type := SpecFloat.spec_float.

(** [float(z)] of a Python integer. *)
Definition b64_of_Z (z : Z) : binary64 :=
  SpecFloat.binary_normalize 53 1024 z 0 false.

(** A value stored in an array of [dtype='float32'] and read back: it is
    rounded to binary32 (24 bits, overflow to infinity, gradual
    underflow); every binary32 number is a binary64 number. *)
Definition b64_to_f32 (x : binary64) : binary64 :=
  match x with
  | SpecFloat.S754_finite s m e =>
      match SpecFloat.binary_round 24 128 s m e with
      | SpecFloat.S754_finite s' m' e' => SpecFloat.binary_round 53 1024 s' m' e'
      | y => y
      end
  | _ => x
  end.

(** [numpy.nan_to_num] on an entry of a float32 array: NaN becomes 0.0
    and an infinity the largest float32 of its sign,
    [(2^24 - 1) 2^104]. *)
Definition b64_nan_to_num (x : binary64) : binary64 :=
  match x with
  | SpecFloat.S754_nan => SpecFloat.S754_zero false
  | SpecFloat.S754_infinity s => SpecFloat.binary_round 53 1024 s 16777215 104
  | _ => x
  end.

#[global] Instance Binary64 : Float64 binary64 := {|
  zero := SpecFloat.S754_zero false;
  add := SpecFloat.SFadd 53 1024;
  sub := SpecFloat.SFsub 53 1024;
  mul := SpecFloat.SFmul 53 1024;
  div := SpecFloat.SFdiv 53 1024;
  neg := SpecFloat.SFopp;
  fabs := SpecFloat.SFabs;
  feqb := SpecFloat.SFeqb;
  fltb := SpecFloat.SFltb;
  to_f32 := b64_to_f32;
  nan_to_num := b64_nan_to_num
|}.

(** Neither NaN nor an infinity. *)
Definition b64_finite (x : binary64) : Prop :=
  match x with
  | SpecFloat.S754_nan | SpecFloat.S754_infinity _ => False
  | _ => True
  end.

(** [x == 0.0]: true of both signed zeros. *)
Definition is_zero {R} `{Float64 R} (x : R) : Prop := feqb x zero = true.

(** What the operations do to values that compare equal to zero, for a
    notion [finite] of the values that are neither NaN nor infinite.
    These hold of binary64 (where [0 * inf] and [0 / 0] are NaN, and the
    sign of a zero result varies) and of exact arithmetic. *)
Record ZeroAbsorbing (R : Type) `{Float64 R} (finite : R → Prop) : Prop := {
  za_zero : is_zero zero;
  za_finite : ∀ x, is_zero x → finite x;
  za_add : ∀ x y, is_zero x → is_zero y → is_zero (add x y);
  za_sub : ∀ x y, is_zero x → is_zero y → is_zero (sub x y);
  za_mul_l : ∀ x y, is_zero x → finite y → is_zero (mul x y);
  za_mul_r : ∀ x y, finite x → is_zero y → is_zero (mul x y);
  za_neg : ∀ x, is_zero x → is_zero (neg x);
  za_div : ∀ x y, is_zero x → finite y → feqb y zero = false →
           is_zero (div x y);
  za_to_f32 : ∀ x, is_zero x → is_zero (to_f32 x);
  za_to_f32_finite : ∀ x, finite (to_f32 x) → finite x;
  za_nan_to_num : ∀ x, is_zero x → is_zero (nan_to_num x)
}.

(** A symmetric local matrix whose element lists each of two DOFs twice:
    the entries [2^53], [1] and [-2^53] reach [Kgg[0, 1]] in the order
    [2^53, 1, -2^53] and [Kgg[1, 0]] in the order [2^53, -2^53, 1]. *)
Definition K_repeated : matrix binary64 :=
  [[zero; b64_of_Z (2 ^ 53); zero; b64_of_Z 1];
   [b64_of_Z (2 ^ 53); zero; b64_of_Z (- 2 ^ 53); zero];
   [zero; b64_of_Z (- 2 ^ 53); zero; zero];
   [b64_of_Z 1; zero; zero; zero]].
Definition dofs_repeated : list Z := [0; 1; 0; 1].

(** Every entry of a dense array satisfies [P]. *)
Definition all_entries {R} (P : R → Prop) (M : matrix R) : Prop :=
  Forall (Forall P) M.

(** The float32 copy of a point kept in [xyz_cid0] is the point itself:
    [xyz_cid0[i] - ref_point == 0] when [ref_point] is that point. *)
Definition same_point {R} `{Float64 R} (p : R * R * R) : Prop :=
  is_zero (sub (to_f32 p.1.1) p.1.1) ∧
  is_zero (sub (to_f32 p.1.2) p.1.2) ∧
  is_zero (sub (to_f32 p.2) p.2).

(** A mass matrix whose only entries that differ from zero are finite
    and lie in the translational 3 x 3 block of the [t]-th node: the
    mass sits at that node and has no rotational inertia. *)
Definition point_mass_at {R} `{Float64 R} (finite : R → Prop) (t : nat)
    (Mgg : matrix R) : Prop :=
  ∀ (r k : nat) x, Mgg !! r ≫= (.!! k) = Some x →
    if decide ((6 * t ≤ r < 6 * t + 3)%nat ∧ (6 * t ≤ k < 6 * t + 3)%nat)
    then finite x else is_zero x.

(** A product in which one factor compares equal to zero and the other
    is finite. *)
Definition absorbed {R} `{Float64 R} (finite : R → Prop) (ab : R * R) : Prop :=
  (is_zero ab.1 ∧ finite ab.2) ∨ (finite ab.1 ∧ is_zero ab.2).

(** The mass matrix of a model with [n] grid points whose only mass is a
    point mass [m] at the [t]-th node: [m] on the three translational
    diagonal entries of that node, [0.0] everywhere else. *)
Definition point_mass_Mgg {R} `{Float64 R} (n t : nat) (m : R) : matrix R :=
  (λ r, (λ k, if decide (r = k ∧ (6 * t ≤ r < 6 * t + 3)%nat) then m else zero)
          <$> seq 0 (6 * n)) <$> seq 0 (6 * n).

(** Worked inputs in binary64: grid points 1 at (1, 0, 0) and 2 at
    (0.5, 0.25, 0), both in the basic coordinate system, no elements;
    [eigh] and [eig] oracles that answer the diagonal and the identity,
    the eigen-decomposition of a diagonal matrix with equal entries. *)
Definition b64_half : binary64 := SpecFloat.S754_finite false 4503599627370496 (-53).
Definition b64_quarter : binary64 := SpecFloat.S754_finite false 4503599627370496 (-54).
Definition b64_I3 : matrix binary64 :=
  [[b64_of_Z 1; zero; zero]; [zero; b64_of_Z 1; zero]; [zero; zero; b64_of_Z 1]].
Definition b64_eigh (A : matrix binary64) : option (vector binary64 * matrix binary64) :=
  Some (diag A, b64_I3).
Definition b64_no_elements : ElementType binary64 :=
  {| elem_n := 0;
     get_stiffness_matrix := λ _ _ _, Raise IndexError;
     get_mass_matrix := λ _ _ _, Raise IndexError |}.
Definition b64_two_grids : Elements binary64 :=
  {| grid_xyz := [(b64_of_Z 1, zero, zero); (b64_half, b64_quarter, zero)];
     grid_cp := [0; 0];
     coords_beta :=
       {[ 0 := ((b64_of_Z 1, zero, zero), (zero, b64_of_Z 1, zero),
                (zero, zero, b64_of_Z 1)) ]};
     celas1 := b64_no_elements; celas2 := b64_no_elements;
     celas3 := b64_no_elements; celas4 := b64_no_elements;
     conrod := b64_no_elements; crod := b64_no_elements;
     ctria3 := b64_no_elements; cquad4 := b64_no_elements;
     mass_conm1_n := 0;
     mass_conm1_get_mass_matrix := λ _, Raise IndexError;
     mass_conm2_n := 0; conm1 := b64_no_elements;
     elements_solid_n := 0; ctetra4 := b64_no_elements;
     cpenta6_n := 0; chexa8_n := 0 |}.
Definition b64_positions : gmap Z (binary64 * binary64 * binary64) :=
  {[ 1 := (b64_of_Z 1, zero, zero); 2 := (b64_half, b64_quarter, zero) ]}.

(** The DOF sets of a static case as [setup_sol_101] and [build_dof_sets]
    leave them: the indexer, then [apply_SPCs], then the derived sets.
    What [setup_sol_101] does in between ([apply_MPCs], the assembly)
    does not touch [iUsb], [iUsg] and their values. *)
Definition static_case_sets {R} `{Float64 R} (get_SPCx_ids : result (list Z))
    (model_SPC : Z → result (list SpcCard)) (s : Solver R) (model : Model)
    (case : Subcase) : result (DerivedSets R) :=
  let '(r, s) := build_nid_component_to_id s model in
  '(d, ndofs) ← r;
  b ← apply_SPCs get_SPCx_ids model_SPC case d (base s);
  Ok (derive_sets b).

(** * Theorems *)

(** ** DOF set algebra *)

Lemma app_ordered_union {A} (a b : list A) : ordered_union a b (a ++ b).
Proof.
  repeat split.
  - intros Hx. by apply elem_of_app in Hx.
  - intros Hx. by apply elem_of_app.
  - by exists b.
  - by exists a.
  - by rewrite length_app.
  - intros Ha Hb Hab. apply NoDup_app. eauto.
Qed.

(** C6. [build_dof_sets] computes every derived subset of the hierarchy as
    the order-preserving union of its two inputs (index lists and value
    lists alike), so lengths add up, and running it a second time changes
    nothing. *)
Theorem build_dof_sets_unions {R} (s : Solver R) :
  let b := base s in
  ∃ d, derived (build_dof_sets s) = Some d ∧
    (ordered_union (iUsb b) (iUsg b) (iUs d) ∧ ordered_union (Usb b) (Usg b) (Us d)) ∧
    (ordered_union (iUmp b) (iUmr b) (iUm d) ∧ ordered_union (Ump b) (Umr b) (Um d)) ∧
    (ordered_union (iUc b) (iUlm b) (iUl d) ∧ ordered_union (Uc b) (Ulm b) (Ul d)) ∧
    (ordered_union (iUl d) (iUr b) (iUt d) ∧ ordered_union (Ul d) (Ur b) (Ut d)) ∧
    (ordered_union (iUt d) (iUq b) (iUa d) ∧ ordered_union (Ut d) (Uq b) (Ua d)) ∧
    (ordered_union (iUa d) (iUo b) (iUf d) ∧ ordered_union (Ua d) (Uo b) (Uf d)) ∧
    (ordered_union (iUf d) (iUs d) (iUn d) ∧ ordered_union (Uf d) (Us d) (Un d)) ∧
    (ordered_union (iUn d) (iUm d) (iUg d) ∧ ordered_union (Un d) (Um d) (Ug d)) ∧
    (ordered_union (iUg d) (iUe b) (iUp d) ∧ ordered_union (Ug d) (Ue b) (Up d)) ∧
    build_dof_sets (build_dof_sets s) = build_dof_sets s.
Proof.
  intros b. exists (derive_sets b). split; [reflexivity|].
  repeat split; try apply app_ordered_union.
Qed.

(** ** DOF indexer *)

Section IndexerFacts.
Context {R : Type} `{Float64 R}.

Lemma ps_loop_fuel (f1 f2 : nat) (i p : Z) (a : list Z) (b : list R) :
  (Z.to_nat p ≤ f1)%nat → (Z.to_nat p ≤ f2)%nat →
  ps_loop f1 i p a b = ps_loop f2 i p a b.
Proof.
  revert f2 p a b. induction f1 as [|f1 IH]; intros [|f2] p a b H1 H2; simpl;
    try reflexivity.
  - destruct (decide (p > 0)); [lia | reflexivity].
  - destruct (decide (p > 0)); [lia | reflexivity].
  - destruct (decide (p > 0)) as [Hp|]; [|reflexivity].
    assert (p `div` 10 < p) by (apply Z.div_lt; lia).
    assert (0 ≤ p `div` 10) by (apply Z.div_pos; lia).
    apply IH; lia.
Qed.

Lemma length_grid_keys gs : length (grid_keys gs) = (6 * length gs)%nat.
Proof.
  induction gs as [|g gs IH]; [done|].
  unfold grid_keys in *. rewrite bind_cons, length_app, IH. simpl. lia.
Qed.

Lemma seqZ_six (i n : Z) :
  0 ≤ n →
  seqZ i (6 + n) = [i; i + 1; i + 2; i + 3; i + 4; i + 5] ++ seqZ (i + 6) n.
Proof.
  intros Hn. rewrite seqZ_app by lia. f_equal.
  unfold seqZ. simpl.
  repeat (apply (f_equal2 cons); [lia|]). reflexivity.
Qed.

Lemma grid_fold gs d i (b : BaseSets R) :
  ∃ b', foldl grid_step (d, i, b) gs =
    (foldl ins d (zip (grid_keys gs) (seqZ i (6 * Z.of_nat (length gs)))),
     i + 6 * Z.of_nat (length gs), b').
Proof.
  revert d i b. induction gs as [|g gs IH]; intros d i b.
  - exists b. simpl. by rewrite Z.add_0_r.
  - cbn [foldl length].
    set (st := grid_step (d, i, b) g).
    destruct st as [[d1 i1] b1] eqn:Hst. subst st.
    unfold grid_step in Hst.
    destruct (IH d1 i1 b1) as [b' Hb']. exists b'. rewrite Hb'.
    injection Hst as Hd Hi _. subst d1 i1.
    replace (6 * Z.of_nat (S (length gs))) with (6 + 6 * Z.of_nat (length gs)) by lia.
    rewrite seqZ_six by lia.
    unfold grid_keys. rewrite bind_cons. fold (grid_keys gs).
    cbn [fmap list_fmap app zip zip_with foldl].
    unfold ins. cbn [fst snd].
    repeat (apply (f_equal2 pair)); first [reflexivity | lia].
Qed.

Lemma spoint_fold (l : list Z) d i :
  foldl spoint_step (d, i) l =
    (foldl ins d (zip ((λ nid, (nid, 1)) <$> l) (seqZ i (Z.of_nat (length l)))),
     i + Z.of_nat (length l)).
Proof.
  revert d i. induction l as [|x l IH]; intros d i.
  - simpl. by rewrite Z.add_0_r.
  - cbn [foldl length]. unfold spoint_step at 2. rewrite IH.
    rewrite (seqZ_cons i) by lia.
    cbn [fmap list_fmap zip zip_with foldl]. unfold ins. cbn [fst snd].
    apply (f_equal2 pair); [|lia].
    do 3 f_equal; lia.
Qed.

Lemma length_dof_keys model :
  Z.of_nat (length (dof_keys model)) = ndofs_of model.
Proof.
  unfold dof_keys, ndofs_of. fold (grid_keys (grid model)).
  rewrite length_app, length_grid_keys, length_fmap.
  rewrite (Permutation_length (merge_sort_Permutation Z.le (spoint model))).
  lia.
Qed.

(** The value of the indexer in closed form. *)
Lemma build_nid_component_to_id_spec (s : Solver R) model :
  ∃ s',
    build_nid_component_to_id s model =
      (if decide (ndofs_of model > 0)
       then Ok (foldl ins ∅ (zip (dof_keys model) (seqZ 0 (ndofs_of model))),
                ndofs_of model)
       else Raise (AssertionError "no DOFs"), s').
Proof.
  unfold build_nid_component_to_id.
  assert ((if decide (length (grid model) ≠ 0%nat)
           then py_eq (PySet (list_to_set (cd <$> grid model))) (PyInt 0)
           else false) = false) as -> by (by destruct (decide _)).
  destruct (grid_fold (grid model) ∅ 0 (base s)) as [b' Hg]. rewrite Hg.
  set (sp := merge_sort Z.le (spoint model)).
  assert (length sp = length (spoint model)) as Hlen
    by apply Permutation_length, merge_sort_Permutation.
  assert ((if decide (length (spoint model) ≠ 0%nat)
           then foldl spoint_step
                  (foldl ins ∅ (zip (grid_keys (grid model))
                     (seqZ 0 (6 * Z.of_nat (length (grid model))))),
                   0 + 6 * Z.of_nat (length (grid model))) sp
           else (foldl ins ∅ (zip (grid_keys (grid model))
                     (seqZ 0 (6 * Z.of_nat (length (grid model))))),
                 0 + 6 * Z.of_nat (length (grid model)))) =
          (foldl ins ∅ (zip (dof_keys model) (seqZ 0 (ndofs_of model))),
           ndofs_of model)) as ->.
  { assert (foldl ins ∅ (zip (dof_keys model) (seqZ 0 (ndofs_of model))) =
            foldl ins (foldl ins ∅ (zip (grid_keys (grid model))
                     (seqZ 0 (6 * Z.of_nat (length (grid model))))))
              (zip ((λ nid, (nid, 1)) <$> sp)
                 (seqZ (0 + 6 * Z.of_nat (length (grid model)))
                    (Z.of_nat (length sp))))) as Hd.
    { unfold dof_keys, ndofs_of. fold (grid_keys (grid model)). fold sp.
      rewrite seqZ_app by lia. rewrite zip_with_app.
      - rewrite foldl_app. by rewrite Hlen.
      - rewrite length_grid_keys, length_seqZ. lia. }
    destruct (decide (length (spoint model) ≠ 0%nat)) as [Hne|He].
    - rewrite spoint_fold, Hd. f_equal. unfold ndofs_of. lia.
    - assert (sp = []) as Hsp by (apply length_zero_iff_nil; lia).
      rewrite Hd, Hsp. simpl. f_equal. unfold ndofs_of. lia. }
  destruct (decide (ndofs_of model > 0)); eauto.
Qed.
End IndexerFacts.

Section IndexerTheorems.
Context {R : Type} `{Float64 R}.

Lemma foldl_ins_list_to_map (l : list (Z * Z * Z)) :
  foldl ins ∅ l = list_to_map (reverse l).
Proof.
  induction l as [|x l IH] using rev_ind; [done|].
  rewrite foldl_snoc, reverse_snoc, IH. reflexivity.
Qed.

Lemma index_lookup (keys : list (Z * Z)) (key : Z * Z) (v : Z) :
  NoDup keys →
  foldl ins ∅ (zip keys (seqZ 0 (Z.of_nat (length keys)))) !! key = Some v ↔
  ∃ j : nat, keys !! j = Some key ∧ v = Z.of_nat j.
Proof.
  intros Hnd. rewrite foldl_ins_list_to_map.
  rewrite <- elem_of_list_to_map.
  - rewrite elem_of_reverse, elem_of_lookup_zip_with. split.
    + intros (j & k & z & [= <- <-] & Hk & Hz).
      apply lookup_seqZ in Hz as [-> _]. exists j. split; [done | lia].
    + intros (j & Hk & ->). exists j, key, (Z.of_nat j).
      split; [done|]. split; [done|].
      apply lookup_seqZ. split; [lia|]. apply lookup_lt_Some in Hk. lia.
  - rewrite fmap_reverse, fst_zip.
    + by rewrite reverse_Permutation.
    + rewrite length_seqZ. lia.
Qed.

Lemma elem_of_grid_keys gs a c :
  (a, c) ∈ grid_keys gs → a ∈ node_id <$> gs.
Proof.
  unfold grid_keys. rewrite list_elem_of_bind. intros (g & Hin & Hg).
  apply list_elem_of_fmap in Hin as (c' & [= -> ->] & _).
  apply list_elem_of_fmap. eauto.
Qed.

Lemma NoDup_grid_keys gs : NoDup (node_id <$> gs) → NoDup (grid_keys gs).
Proof.
  induction gs as [|g gs IH]; [constructor|].
  rewrite fmap_cons, NoDup_cons. intros [Hg Hgs].
  unfold grid_keys. rewrite bind_cons. fold (grid_keys gs).
  apply NoDup_app. split; [|split].
  - apply NoDup_fmap_2; [intros ?? [=]; done|].
    apply NoDup_ListNoDup. repeat constructor; simpl; intuition lia.
  - intros [a c] Hin Hin'.
    apply list_elem_of_fmap in Hin as (c' & [= -> ->] & _).
    by apply elem_of_grid_keys in Hin'.
  - by apply IH.
Qed.

Lemma NoDup_dof_keys model :
  NoDup ((node_id <$> grid model) ++ spoint model) → NoDup (dof_keys model).
Proof.
  intros (Hg & Hdisj & Hs)%NoDup_app.
  unfold dof_keys. fold (grid_keys (grid model)).
  apply NoDup_app. split; [|split].
  - by apply NoDup_grid_keys.
  - intros [a c] Hin Hin'. apply elem_of_grid_keys in Hin.
    apply list_elem_of_fmap in Hin' as (nid & [= -> ->] & Hnid).
    rewrite merge_sort_Permutation in Hnid. by apply (Hdisj nid).
  - apply NoDup_fmap_2; [intros ?? [=]; done|].
    by rewrite merge_sort_Permutation.
Qed.

Lemma grid_keys_lookup gs (k : nat) g (c : Z) :
  gs !! k = Some g → 1 ≤ c ≤ 6 →
  grid_keys gs !! (6 * k + Z.to_nat (c - 1))%nat = Some (node_id g, c).
Proof.
  revert k. induction gs as [|g0 gs IH]; intros k Hk Hc; [done|].
  unfold grid_keys. rewrite bind_cons. fold (grid_keys gs).
  destruct k as [|k]; simpl in Hk.
  - injection Hk as ->. rewrite lookup_app_l by (simpl; lia).
    assert (c = 1 ∨ c = 2 ∨ c = 3 ∨ c = 4 ∨ c = 5 ∨ c = 6) as Hcs by lia.
    destruct Hcs as [->|[->|[->|[->|[->| ->]]]]]; reflexivity.
  - rewrite lookup_app_r by (simpl; lia).
    rewrite <- (IH k Hk Hc). f_equal. simpl. lia.
Qed.

(** C3. With pairwise distinct point ids and at least one point, the
    indexer returns [N = 6 * n_grid + n_scalar_points] and a map whose
    values are exactly [0 .. N-1], each taken by one key; the k-th grid
    point owns slots [6k .. 6k+5] for components 1..6 and the scalar
    points follow, in sorted order. *)
Theorem build_nid_component_to_id_contiguous (s : Solver R) (model : Model) :
  NoDup ((node_id <$> grid model) ++ spoint model) →
  grid model ≠ [] ∨ spoint model ≠ [] →
  let n_grid := Z.of_nat (length (grid model)) in
  let N := 6 * n_grid + Z.of_nat (length (spoint model)) in
  ∃ d,
    (build_nid_component_to_id s model).1 = Ok (d, N) ∧
    (∀ v, (∃ key, d !! key = Some v) ↔ 0 ≤ v < N) ∧
    (∀ k1 k2 v, d !! k1 = Some v → d !! k2 = Some v → k1 = k2) ∧
    (∀ (k : nat) g c, grid model !! k = Some g → 1 ≤ c ≤ 6 →
       d !! (node_id g, c) = Some (6 * Z.of_nat k + c - 1)) ∧
    (∀ (k : nat) nid, merge_sort Z.le (spoint model) !! k = Some nid →
       d !! (nid, 1) = Some (6 * n_grid + Z.of_nat k)).
Proof.
  intros Hnd Hne n_grid N.
  destruct (build_nid_component_to_id_spec s model) as [s' Hb].
  assert (ndofs_of model = N) as HN by reflexivity.
  assert (N > 0) as Hpos.
  { subst N n_grid. destruct Hne as [Hg|Hs].
    - destruct (grid model); [done | simpl; lia].
    - destruct (spoint model); [done | simpl; lia]. }
  rewrite HN, decide_True in Hb by done.
  pose proof (NoDup_dof_keys model Hnd) as Hk.
  pose proof (length_dof_keys model) as Hlen. rewrite HN in Hlen.
  eexists. rewrite Hb. split; [reflexivity|].
  rewrite <- Hlen.
  split; [|split; [|split]].
  - intros v. split.
    + intros (key & Hv). apply index_lookup in Hv as (j & Hj & ->); [|done].
      apply lookup_lt_Some in Hj. lia.
    + intros Hv. destruct (lookup_lt_is_Some_2 (dof_keys model) (Z.to_nat v))
        as [key Hkey]; [lia|].
      exists key. apply index_lookup; [done|]. exists (Z.to_nat v).
      split; [done | lia].
  - intros k1 k2 v H1 H2.
    apply index_lookup in H1 as (j1 & Hj1 & ->); [|done].
    apply index_lookup in H2 as (j2 & Hj2 & Heq); [|done].
    apply Nat2Z.inj in Heq as ->. congruence.
  - intros k g c Hg Hc. apply index_lookup; [done|].
    exists (6 * k + Z.to_nat (c - 1))%nat. split; [|lia].
    unfold dof_keys. fold (grid_keys (grid model)).
    rewrite lookup_app_l.
    + by apply grid_keys_lookup.
    + rewrite length_grid_keys. apply lookup_lt_Some in Hg. lia.
  - intros k nid Hs. apply index_lookup; [done|].
    exists (6 * length (grid model) + k)%nat. split; [|subst n_grid; lia].
    unfold dof_keys. fold (grid_keys (grid model)).
    rewrite lookup_app_r by (rewrite length_grid_keys; lia).
    rewrite length_grid_keys, list_lookup_fmap.
    replace (6 * length (grid model) + k - 6 * length (grid model))%nat
      with k by lia.
    by rewrite Hs.
Qed.

(** C8. The indexer never looks at the value of [cd]: whatever
    coordinate systems the grid points name, a model with at least one
    point is indexed without error. *)
Theorem build_nid_component_to_id_accepts_any_cd (s : Solver R) (model : Model) :
  grid model ≠ [] ∨ spoint model ≠ [] →
  ∃ d i, (build_nid_component_to_id s model).1 = Ok (d, i).
Proof.
  intros Hne.
  destruct (build_nid_component_to_id_spec s model) as [s' Hb].
  rewrite decide_True in Hb.
  - rewrite Hb. eauto.
  - unfold ndofs_of. destruct Hne as [Hg|Hs].
    + destruct (grid model); [done | simpl; lia].
    + destruct (spoint model); [done | simpl; lia].
Qed.

(** The only failure of the indexer: no grid point and no scalar point. *)
Lemma build_nid_component_to_id_no_dofs (s : Solver R) (model : Model) :
  grid model = [] → spoint model = [] →
  (build_nid_component_to_id s model).1 = Raise (AssertionError "no DOFs").
Proof.
  intros Hg Hs. unfold build_nid_component_to_id. rewrite Hg, Hs. reflexivity.
Qed.
End IndexerTheorems.

Lemma build_nid_component_to_id_accepts_any_cd_witness :
  (grid one_grid_cd7 ≠ [] ∨ spoint one_grid_cd7 ≠ []) ∧
  ∃ d i, (build_nid_component_to_id (R := Q) init_solver one_grid_cd7).1 = Ok (d, i).
Proof.
  split; [left; discriminate|].
  apply (build_nid_component_to_id_accepts_any_cd (R := Q) init_solver one_grid_cd7).
  left. discriminate.
Defined.

Lemma build_nid_component_to_id_contiguous_witness :
  ∃ d, (build_nid_component_to_id (R := Q) init_solver two_grids_two_spoints).1
         = Ok (d, 14) ∧
       d !! (4, 3) = Some 8 ∧ d !! (20, 1) = Some 12 ∧ d !! (30, 1) = Some 13.
Proof.
  destruct (build_nid_component_to_id_contiguous (R := Q) init_solver
              two_grids_two_spoints) as (d & Hd & _ & _ & Hg & Hs).
  - apply NoDup_ListNoDup. vm_compute. repeat constructor; simpl; intuition discriminate.
  - left. discriminate.
  - exists d. split; [exact Hd|]. split; [|split].
    + apply (Hg 1%nat {| node_id := 4; ps := -1; cd := 0 |} 3); [reflexivity | lia].
    + apply (Hs 0%nat 20). reflexivity.
    + apply (Hs 1%nat 30). reflexivity.
Defined.

(** An id shared by a grid point and a scalar point is outside the
    hypothesis above: the scalar point takes over the key [(nid, 1)], so
    the count is 7 while the map holds 6 keys. *)
Remark build_nid_component_to_id_shared_id :
  let out := (build_nid_component_to_id (R := Q) init_solver
                {| grid := [{| node_id := 1; ps := -1; cd := 0 |}];
                   spoint := [1]; sol := 101; has_METHOD := false |}).1 in
  snd <$> out = Ok 7 ∧
  (λ r, size r.1) <$> out = Ok 6%nat ∧
  (λ r, r.1 !! (1, 1)) <$> out = Ok (Some 6).
Proof. vm_compute. done. Qed.

(** ** Sorting a set difference *)

Lemma sort_elements_unique `{Countable A} (R : relation A)
    `{!Transitive R, !AntiSymm (=) R, !Total R, ∀ x y, Decision (R x y)}
    (X : gset A) (l : list A) :
  Sorted R l → NoDup l → (∀ x, x ∈ l ↔ x ∈ X) →
  merge_sort R (elements X) = l.
Proof.
  intros Hs Hnd Hel. apply (Sorted_unique R).
  - by apply Sorted_merge_sort.
  - done.
  - rewrite merge_sort_Permutation. apply NoDup_Permutation.
    + apply NoDup_elements.
    + done.
    + intros x. rewrite elem_of_elements. by rewrite Hel.
Qed.

Lemma Sorted_filter_seq (P : nat → Prop) `{∀ x, Decision (P x)} j n :
  Sorted le (filter P (seq j n)).
Proof.
  apply StronglySorted_Sorted. revert j.
  induction n as [|n IH]; intros j; simpl; [constructor|].
  rewrite filter_cons. destruct (decide (P j)); [|apply IH].
  constructor; [apply IH|].
  apply Forall_forall. intros x [_ Hx%elem_of_seq]%list_elem_of_filter. lia.
Qed.

Lemma Sorted_filter_seqZ (P : Z → Prop) `{∀ x, Decision (P x)} m n :
  Sorted Z.le (filter P (seqZ m n)).
Proof.
  apply StronglySorted_Sorted.
  remember (Z.to_nat n) as k eqn:Hk. revert m n Hk.
  induction k as [|k IH]; intros m n Hk.
  - rewrite seqZ_nil by lia. constructor.
  - rewrite seqZ_cons by lia. rewrite filter_cons.
    assert (StronglySorted Z.le (filter P (seqZ (Z.succ m) (Z.pred n))))
      by (apply IH; lia).
    destruct (decide (P m)); [|done].
    constructor; [done|].
    apply Forall_forall. intros x [_ Hx%elem_of_seqZ]%list_elem_of_filter. lia.
Qed.

Lemma sorted_difference (n : nat) (l : list nat) :
  merge_sort le (elements (list_to_set (seq 0 n) ∖ list_to_set l : gset nat)) =
  filter (λ i, i ∉ l) (seq 0 n).
Proof.
  apply (sort_elements_unique le).
  - apply Sorted_filter_seq.
  - apply NoDup_filter, NoDup_seq.
  - intros x. rewrite list_elem_of_filter, elem_of_difference,
      !elem_of_list_to_set. tauto.
Qed.

Lemma sorted_differenceZ (n : Z) (l : list Z) :
  merge_sort Z.le (remove_dofs (list_to_set (seqZ 0 n)) l) =
  filter (λ i, i ∉ l) (seqZ 0 n).
Proof.
  unfold remove_dofs. apply (sort_elements_unique Z.le).
  - apply Sorted_filter_seqZ.
  - apply NoDup_filter, NoDup_seqZ.
  - intros x. rewrite list_elem_of_filter, elem_of_difference,
      !elem_of_list_to_set. tauto.
Qed.

(** ** Fancy indexing *)

Section Indexing.
Context {A : Type}.

Lemma take_items_Ok (v : list A) (ilist : list nat) :
  Forall (λ i, (i < length v)%nat) ilist →
  ∃ v', take_items v ilist = Ok v' ∧ length v' = length ilist ∧
        ∀ a i, ilist !! a = Some i → v' !! a = v !! i.
Proof.
  intros Hin.
  destruct (mapM_is_Some_2 (λ i, v !! i) ilist) as [v' Hv'].
  { eapply Forall_impl; [exact Hin|]. intros i Hi. by apply lookup_lt_is_Some_2. }
  exists v'. unfold take_items. rewrite Hv'. split; [done|].
  apply mapM_Some in Hv'. split.
  - symmetry. by eapply Forall2_length.
  - intros a i Ha.
    destruct (Forall2_lookup_l _ _ _ _ _ Hv' Ha) as (y & Hy & Hiy). congruence.
Qed.

Lemma take_cols_Ok (M : list (list A)) (ilist : list nat) :
  Forall (λ row, Forall (λ j, (j < length row)%nat) ilist) M →
  ∃ M', take_cols M ilist = Ok M' ∧ length M' = length M ∧
        ∀ a row, M !! a = Some row →
          ∃ row', M' !! a = Some row' ∧ length row' = length ilist ∧
                  ∀ b j, ilist !! b = Some j → row' !! b = row !! j.
Proof.
  intros Hin.
  destruct (mapM_is_Some_2 (λ row : list A, mapM (λ j, row !! j) ilist) M)
    as [M' HM'].
  { eapply Forall_impl; [exact Hin|]. intros row Hrow. simpl.
    apply mapM_is_Some_2. eapply Forall_impl; [exact Hrow|].
    intros j Hj. by apply lookup_lt_is_Some_2. }
  exists M'. unfold take_cols. rewrite HM'. split; [done|].
  apply mapM_Some in HM'. split.
  - symmetry. by eapply Forall2_length.
  - intros a row Ha.
    destruct (Forall2_lookup_l _ _ _ _ _ HM' Ha) as (row' & Hrow' & Hm).
    exists row'. split; [done|]. apply mapM_Some in Hm. split.
    + symmetry. by eapply Forall2_length.
    + intros b j Hb.
      destruct (Forall2_lookup_l _ _ _ _ _ Hm Hb) as (y & Hy & Hjy). congruence.
Qed.
Lemma mapM_omap {X Y} (f : X → option Y) (l : list X) (k : list Y) :
mapM f l = Some k → omap f l = k.
Proof.
intros Hm%mapM_Some. induction Hm as [|x y l k Hxy _ IH]; [done|].
simpl. rewrite Hxy. f_equal. exact IH.
Qed.

Lemma take_items_subvector (v : list A) (ilist : list nat) (v' : list A) :
take_items v ilist = Ok v' → v' = subvector v ilist.
Proof.
unfold take_items, subvector. destruct (mapM _ ilist) as [k|] eqn:Hk; [|done].
intros [= <-]. symmetry. by apply mapM_omap.
Qed.

Lemma take_cols_submatrix (M : list (list A)) (ilist : list nat) M' :
take_cols M ilist = Ok M' → M' = (λ row, subvector row ilist) <$> M.
Proof.
unfold take_cols. destruct (mapM _ M) as [k|] eqn:Hk; [|done].
intros [= <-]. apply mapM_Some in Hk.
induction Hk as [|row row' M k Hrow _ IH]; [done|].
simpl. rewrite IH. f_equal. symmetry. by apply mapM_omap.
Qed.
End Indexing.

(** ** The free-DOF solve *)

Section SolveFacts.
Context {R : Type} `{Float64 R}.
Variable solve : matrix R → vector R → option (vector R).
Variable table : list (Z * Z) → string.

Lemma py_max_all_equal (f0 : R) (rest : list R) :
  (∀ x, feqb x f0 = true → fltb f0 x = false) →
  Forall (λ x, feqb x f0 = true) rest → py_max f0 rest = f0.
Proof.
  intros Hlaw. unfold py_max. induction 1 as [|x rest Hx _ IH]; [done|].
  simpl. by rewrite (Hlaw x Hx).
Qed.

Lemma py_min_all_equal (f0 : R) (rest : list R) :
  (∀ x, feqb x f0 = true → fltb x f0 = false) →
  Forall (λ x, feqb x f0 = true) rest → py_min f0 rest = f0.
Proof.
  intros Hlaw. unfold py_min. induction 1 as [|x rest Hx _ IH]; [done|].
  simpl. by rewrite (Hlaw x Hx).
Qed.

(** C10. A load vector whose first entry is [== 0.0] and whose entries
    all compare equal to it is rejected by the assertion, whatever the
    linear solver would have answered for [K]: the state is untouched
    and no solve is attempted.  The only law used is that two values
    that compare equal do not compare less. *)
Theorem _solve_rejects_uniform_zero_load (s : Solver R) (K : matrix R)
    (F : vector R) (dofs : list Z) (f0 : R) (rest : list R) :
  (∀ x y : R, feqb x y = true → fltb x y = false ∧ fltb y x = false) →
  F = f0 :: rest →
  feqb f0 zero = true →
  Forall (λ x, feqb x f0 = true) F →
  _solve solve table s K F dofs =
    (Raise (AssertionError "no load is applied..."), s).
Proof.
  intros Hlaw -> H0 Hall. apply Forall_cons in Hall as [Hf0 Hrest].
  unfold _solve, load_check. rewrite H0.
  rewrite py_max_all_equal, py_min_all_equal; try done.
  - by rewrite Hf0.
  - intros x Hx. by destruct (Hlaw x f0 Hx).
  - intros x Hx. by destruct (Hlaw x f0 Hx).
Qed.

Lemma singular_step_eq (m : gmap Z (Z * Z)) (K : matrix R) af afs k iu p x :
  m !! iu = Some p → K !! k ≫= (.!! k) = Some x →
  singular_step m K (af, afs) (k, iu) =
    Ok (if feqb x zero then (af ++ [p], afs ++ [k]) else (af, afs)).
Proof.
  intros Hp Hx. unfold singular_step, getitem2. rewrite Hp, Hx. simpl.
  by destruct (feqb x zero).
Qed.

Lemma singular_loop (m : gmap Z (Z * Z)) (K : matrix R) (dofs : list Z)
    (k : nat) (af : list (Z * Z)) (afs : list nat) :
  Forall (λ iu, is_Some (m !! iu)) dofs →
  (∀ i, (k ≤ i < k + length dofs)%nat → is_Some (K !! i ≫= (.!! i))) →
  for_each (singular_step m K) (zip (seq k (length dofs)) dofs) (af, afs) =
    Ok (af ++ singular_pairs m K (zip (seq k (length dofs)) dofs),
        afs ++ filter (λ i, diag_is_zero K i = true) (seq k (length dofs))).
Proof.
  revert k af afs. induction dofs as [|iu dofs IH]; intros k af afs Hm HK.
  - simpl. by rewrite !app_nil_r.
  - apply Forall_cons in Hm as [[p Hp] Hm].
    destruct (HK k) as [x Hx]; [simpl; lia|].
    cbn [length seq zip zip_with for_each].
    rewrite (singular_step_eq m K af afs k iu p x Hp Hx).
    cbn [mbind result_bind].
    assert (diag_is_zero K k = feqb x zero) as Hd
      by (unfold diag_is_zero; by rewrite Hx).
    assert (singular_pairs m K ((k, iu) :: zip (seq (S k) (length dofs)) dofs)
            = (if feqb x zero then [p] else []) ++
              singular_pairs m K (zip (seq (S k) (length dofs)) dofs)) as ->.
    { unfold singular_pairs. cbn [omap list_omap]. rewrite Hd, Hp.
      by destruct (feqb x zero). }
    assert (∀ i, (S k ≤ i < S k + length dofs)%nat →
                 is_Some (K !! i ≫= (.!! i))) as HK'
      by (intros i Hi; apply HK; simpl; lia).
    rewrite filter_cons, Hd.
    destruct (feqb x zero).
    + rewrite decide_True by done. rewrite IH by done.
      by rewrite <- !app_assoc.
    + rewrite decide_False by done. by rewrite IH.
Qed.

Lemma setitems_spec (U0 : vector R) (ilist : list nat) (U2 : vector R) :
  length U2 = length ilist →
  Forall (λ i, (i < length U0)%nat) ilist →
  NoDup ilist →
  ∃ U, setitems U0 ilist U2 = Ok U ∧ length U = length U0 ∧
       (∀ a i, ilist !! a = Some i → U !! i = U2 !! a) ∧
       (∀ i, i ∉ ilist → U !! i = U0 !! i).
Proof.
  intros Hlen. unfold setitems. rewrite decide_True by done.
  revert U0 U2 Hlen. induction ilist as [|i ilist IH]; intros U0 U2 Hlen Hin Hnd.
  - destruct U2; [|done]. exists U0. simpl. repeat split; try done.
  - destruct U2 as [|x U2]; [done|].
    apply Forall_cons in Hin as [Hi Hin]. apply NoDup_cons in Hnd as [Hni Hnd].
    cbn [zip zip_with for_each]. rewrite decide_True by done.
    cbn [mbind result_bind].
    destruct (IH (<[i:=x]> U0) U2) as (U & HU & HlenU & Hset & Hother).
    { simpl in Hlen. lia. }
    { rewrite length_insert. done. }
    { done. }
    exists U. rewrite HU. split; [done|]. rewrite length_insert in HlenU.
    split; [done|]. split.
    + intros [|a] j Ha; simpl in Ha.
      * injection Ha as <-. rewrite Hother by done.
        by rewrite list_lookup_insert_eq.
      * simpl. by apply Hset.
    + intros j Hj. apply not_elem_of_cons in Hj as [Hji Hj].
      rewrite Hother by done. by rewrite list_lookup_insert_ne.
Qed.

Lemma filter_ext_elem {A} (P Q : A → Prop) `{∀ x, Decision (P x)}
    `{∀ x, Decision (Q x)} (l : list A) :
  (∀ x, x ∈ l → (P x ↔ Q x)) → filter P l = filter Q l.
Proof.
  induction l as [|x l IH]; intros HPQ; [done|].
  rewrite !filter_cons, IH by (intros y Hy; apply HPQ; by right).
  destruct (decide (P x)) as [HP|HP], (decide (Q x)) as [HQ|HQ]; try done.
  - destruct HQ. apply HPQ; [by left | done].
  - destruct HP. apply HPQ; [by left | done].
Qed.

Lemma regular_rows_difference (K : matrix R) (n : nat) :
  merge_sort le
    (elements (list_to_set (seq 0 n) ∖ list_to_set (singular_rows K n)
               : gset nat)) = regular_rows K n.
Proof.
  rewrite sorted_difference. unfold regular_rows, singular_rows.
  apply filter_ext_elem. intros i Hi. rewrite list_elem_of_filter. tauto.
Qed.

Lemma regular_rows_lt (K : matrix R) (n : nat) :
  Forall (λ i, (i < n)%nat) (regular_rows K n).
Proof.
  apply Forall_forall. intros i [_ Hi%elem_of_seq]%list_elem_of_filter. lia.
Qed.

(** C1. When the load check passes and the direct solve fails,
  [_solve] writes the singularity table for the rows with
  [K[i, i] == 0.0], forms the reduced system [K2], [F2] on the other
  rows (in increasing order) and solves it once more.  If that solve
  answers [U2], the value is the full-length [U] with [0.0] at every
  removed row and [U2] spread over the kept rows; if it fails too the
  failure is raised, with no further attempt. *)
Theorem _solve_autospc_recovery (s : Solver R) (K : matrix R) (F : vector R)
  (dofs : list Z) (n : nat) :
length dofs = n → is_square n K → length F = n →
load_check F = Ok () →
Forall (λ iu, is_Some (IDtoNidComponents s !! iu)) dofs →
solve K F = None →
let ilist := regular_rows K n in
let K2 := submatrix K ilist in
let F2 := subvector F ilist in
let out := _solve solve table s K F dofs in
(is_square (length ilist) K2 ∧
 ∀ a b i j, ilist !! a = Some i → ilist !! b = Some j →
   K2 !! a ≫= (.!! b) = K !! i ≫= (.!! j)) ∧
(length F2 = length ilist ∧
 ∀ a i, ilist !! a = Some i → F2 !! a = F !! i) ∧
f06_file out.2 =
  f06_file s ++
  [table (singular_pairs (IDtoNidComponents s) K (enumerate dofs))] ∧
(∀ U2, solve K2 F2 = Some U2 → length U2 = length F2 →
   ∃ U, out.1 = Ok U ∧ length U = n ∧
        (∀ i, (i < n)%nat → diag_is_zero K i = true → U !! i = Some zero) ∧
        (∀ a i, ilist !! a = Some i → U !! i = U2 !! a)) ∧
(solve K2 F2 = None → out.1 = Raise LinAlgError).
Proof.
intros Hn [HKn HKrows] HF Hload Hids Hfail ilist K2 F2 out.
assert (∀ i, (i < n)%nat → ∃ row, K !! i = Some row ∧ length row = n) as Hrow.
{ intros i Hi. destruct (lookup_lt_is_Some_2 K i) as [row Hr]; [lia|].
  exists row. split; [done|].
  eapply (Forall_lookup_1 _ _ _ _ HKrows Hr). }
pose proof (regular_rows_lt K n) as Hlt. fold ilist in Hlt.
destruct (take_items_Ok K ilist) as (rows & Hrows & Hrlen & Hrget).
{ by rewrite HKn. }
destruct (take_cols_Ok rows ilist) as (K2' & HK2 & HK2len & HK2get).
{ apply Forall_forall. intros row Hin.
  apply list_elem_of_lookup in Hin as [a Ha].
  destruct (lookup_lt_is_Some_2 ilist a) as [i Hi].
  { rewrite <- Hrlen. by eapply lookup_lt_Some. }
  rewrite (Hrget a i Hi) in Ha.
  pose proof (Forall_lookup_1 _ _ _ _ Hlt Hi) as Hin. simpl in Hin.
  destruct (Hrow i Hin) as (row' & Hr' & Hl').
  assert (Some row = Some row') as [= ->] by (rewrite <- Ha; exact Hr').
  by rewrite Hl'. }
destruct (take_items_Ok F ilist) as (F2' & HF2 & HF2len & HF2get).
{ by rewrite HF. }
assert (K2' = K2) as ->.
{ rewrite (take_cols_submatrix _ _ _ HK2).
  by rewrite (take_items_subvector _ _ _ Hrows). }
assert (F2' = F2) as -> by apply (take_items_subvector _ _ _ HF2).
assert (out = (from_option LinAlgError (solve K2 F2)
                 ≫= setitems (zeros (length F)) ilist,
               write_f06 s (table (singular_pairs (IDtoNidComponents s) K
                                     (enumerate dofs))))) as Hout.
{ subst out. unfold _solve. rewrite Hload, Hfail.
  unfold enumerate. rewrite singular_loop.
  - cbn [app]. fold (singular_rows K (length dofs)).
    rewrite regular_rows_difference, Hn. fold ilist.
    unfold take_rows. rewrite Hrows. cbn [mbind result_bind].
    rewrite HK2. cbn [mbind result_bind]. rewrite HF2.
    cbn [mbind result_bind]. reflexivity.
  - done.
  - intros i Hi. destruct (Hrow i) as (row & Hr & Hl); [lia|].
    rewrite Hr. simpl. apply lookup_lt_is_Some_2. lia. }
split; [|split; [|split; [|split]]].
- split.
  + split; [lia|]. apply Forall_forall. intros row' Hin.
    apply list_elem_of_lookup in Hin as [a Ha].
    destruct (lookup_lt_is_Some_2 rows a) as [row Hr].
    { rewrite <- HK2len. by eapply lookup_lt_Some. }
    destruct (HK2get a row Hr) as (row'' & Hr'' & Hl'' & _).
    assert (Some row' = Some row'') as [= ->] by (rewrite <- Ha; exact Hr'').
    done.
  + intros a b i j Ha Hb.
    destruct (Hrow i) as (row & Hr & Hl).
    { by eapply (Forall_lookup_1 _ _ _ _ Hlt Ha). }
    assert (rows !! a = Some row) as Hra by (by rewrite (Hrget a i Ha)).
    destruct (HK2get a row Hra) as (row' & Hr' & _ & Hget).
    etrans; [exact (f_equal (λ o, o ≫= (.!! b)) Hr')|].
    symmetry. etrans; [exact (f_equal (λ o, o ≫= (.!! j)) Hr)|].
    simpl. symmetry. by apply Hget.
- done.
- by rewrite Hout.
- intros U2 HU2 HlenU2. rewrite Hout, HU2. cbn [fst from_option].
  destruct (setitems_spec (zeros (length F)) ilist U2)
    as (U & HU & HlenU & Hset & Hother).
  { lia. }
  { unfold zeros. rewrite length_replicate, HF. done. }
  { apply NoDup_filter, NoDup_seq. }
  exists U. split; [exact HU|].
  unfold zeros in HlenU, Hother. rewrite length_replicate, HF in HlenU.
  split; [done|]. split; [|done].
  intros i Hi Hz. rewrite Hother.
  + apply lookup_replicate_2. lia.
  + unfold ilist, regular_rows. rewrite list_elem_of_filter. tauto.
- intros Hnone. by rewrite Hout, Hnone.
Qed.
End SolveFacts.

Lemma Qexact_eq_not_lt (x y : Q) :
  feqb x y = true → fltb x y = false ∧ fltb y x = false.
Proof.
  simpl. intros Heq%Qeq_bool_iff.
  split; apply negb_false_iff, Qle_bool_iff; rewrite Heq; apply Qle_refl.
Qed.

Lemma _solve_rejects_uniform_zero_load_witness :
  Qsolve K3_regular F3_zero = Some F3_zero ∧
  _solve Qsolve Qtable solver3 K3_regular F3_zero dofs3 =
    (Raise (AssertionError "no load is applied..."), solver3).
Proof.
  split; [vm_compute; reflexivity|].
  apply (_solve_rejects_uniform_zero_load Qsolve Qtable solver3 K3_regular
           F3_zero dofs3 0%Q [0; 0]%Q).
  - exact Qexact_eq_not_lt.
  - reflexivity.
  - reflexivity.
  - repeat constructor.
Defined.

Lemma _solve_autospc_recovery_witness :
  Qsolve K3 F3 = None ∧
  (_solve Qsolve Qtable solver3 K3 F3 dofs3).1 = Ok [0; 1; 1]%Q.
Proof.
  split; [vm_compute; reflexivity|].
  destruct (_solve_autospc_recovery Qsolve Qtable solver3 K3 F3 dofs3 3)
    as (_ & _ & _ & Hok & _).
  - reflexivity.
  - split; [reflexivity | repeat constructor].
  - reflexivity.
  - reflexivity.
  - repeat constructor; eexists; vm_compute; reflexivity.
  - vm_compute. reflexivity.
  - destruct (Hok [1; 1]%Q) as (U & HU & Hlen & Hz & Hk).
    + vm_compute. reflexivity.
    + reflexivity.
    + rewrite HU. f_equal.
      pose proof (Hz 0%nat ltac:(lia) eq_refl) as H0.
      pose proof (Hk 0%nat 1%nat eq_refl) as H1.
      pose proof (Hk 1%nat 2%nat eq_refl) as H2.
      destruct U as [|u0 [|u1 [|u2 [|u3 U]]]]; try discriminate.
      simpl in H0, H1, H2. congruence.
Defined.

(** ** Reconstruction of the full solution vector *)

Section ReconstructFacts.
Context {R : Type} `{Float64 R}.

Lemma py_index_nonneg (n : nat) (i : Z) :
  0 ≤ i < Z.of_nat n → py_index n i = Some (Z.to_nat i).
Proof. intros Hi. unfold py_index. by rewrite decide_True. Qed.

Lemma for_each_enumerate_zip (idx : list Z) (vs pre : list R)
    (st : vector R * list nat) :
  length vs = length idx →
  for_each (λ st '(i, iu), x ← getitem (pre ++ vs) i; store st iu x)
    (zip (seq (length pre) (length idx)) idx) st =
  for_each (λ st '(iu, x), store st iu x) (zip idx vs) st.
Proof.
  revert vs pre st. induction idx as [|iu idx IH]; intros vs pre st Hlen.
  - done.
  - destruct vs as [|x vs]; [done|].
    cbn [length seq zip zip_with for_each].
    assert (getitem (pre ++ x :: vs) (length pre) = Ok x) as ->
      by (unfold getitem; by rewrite list_lookup_middle).
    cbn [mbind result_bind].
    destruct (store st iu x) as [st'|e]; [|done].
    cbn [mbind result_bind].
    specialize (IH vs (pre ++ [x]) st').
    rewrite length_app, Nat.add_1_r, <- app_assoc in IH.
    apply IH. simpl in Hlen. lia.
Qed.

Lemma store_loop (idx : list Z) (vals : list R) (U0 : vector R) (w0 : list nat) :
  length vals = length idx →
  Forall (λ iu, 0 ≤ iu < Z.of_nat (length U0)) idx →
  ∃ U1,
    for_each (λ st '(iu, x), store st iu x) (zip idx vals) (U0, w0) =
      Ok (U1, w0 ++ (Z.to_nat <$> idx)) ∧
    length U1 = length U0 ∧
    (∀ i, i ∉ Z.to_nat <$> idx → U1 !! i = U0 !! i) ∧
    (NoDup idx → ∀ k iu, idx !! k = Some iu → U1 !! Z.to_nat iu = vals !! k).
Proof.
  revert vals U0 w0. induction idx as [|iu idx IH]; intros vals U0 w0 Hlen Hin.
  - exists U0. simpl. rewrite app_nil_r. repeat split; try done.
  - destruct vals as [|x vals]; [done|].
    apply Forall_cons in Hin as [Hiu Hin].
    cbn [zip zip_with for_each].
    assert (store (U0, w0) iu x =
            Ok (<[Z.to_nat iu := x]> U0, w0 ++ [Z.to_nat iu])) as ->
      by (unfold store; cbn [fst snd]; by rewrite py_index_nonneg).
    cbn [mbind result_bind].
    destruct (IH vals (<[Z.to_nat iu := x]> U0) (w0 ++ [Z.to_nat iu]))
      as (U1 & HU1 & Hlen1 & Hout & Hget).
    { simpl in Hlen. lia. }
    { by rewrite length_insert. }
    exists U1. rewrite HU1. rewrite length_insert in Hlen1.
    split; [by rewrite <- app_assoc|]. split; [done|]. split.
    + intros i Hi. rewrite fmap_cons in Hi.
      apply not_elem_of_cons in Hi as [Hne Hi].
      rewrite Hout by done. by rewrite list_lookup_insert_ne.
    + intros [Hni Hnd]%NoDup_cons [|k] iu' Hk; simpl in Hk.
      * injection Hk as <-. rewrite Hout.
        -- simpl. apply list_lookup_insert_eq. lia.
        -- intros (iu' & Heq & Hin')%list_elem_of_fmap.
           pose proof (proj1 (Forall_forall _ _) Hin iu' Hin') as Hr.
           simpl in Hr. assert (iu = iu') as -> by lia. done.
      * simpl. by apply Hget.
Qed.

Lemma free_dofs_range (n : Z) (iUs_ : list Z) :
  Forall (λ iu, 0 ≤ iu < n) (filter (λ i, i ∉ iUs_) (seqZ 0 n)).
Proof.
  apply Forall_forall. intros i [_ Hi%elem_of_seqZ]%list_elem_of_filter. lia.
Qed.

Lemma free_dofs_partition (n : Z) (iUs_ : list Z) :
  NoDup iUs_ → Forall (λ iu, 0 ≤ iu < n) iUs_ →
  filter (λ i, i ∉ iUs_) (seqZ 0 n) ++ iUs_ ≡ₚ seqZ 0 n.
Proof.
  intros Hnd Hin. apply NoDup_Permutation.
  - apply NoDup_app. split; [apply NoDup_filter, NoDup_seqZ|]. split; [|done].
    intros x [Hx _]%list_elem_of_filter. done.
  - apply NoDup_seqZ.
  - intros x. rewrite elem_of_app, list_elem_of_filter, elem_of_seqZ. split.
    + intros [[_ Hx]|Hx]; [lia|].
      pose proof (proj1 (Forall_forall _ _) Hin x Hx). simpl in *. lia.
    + intros Hx. destruct (decide (x ∈ iUs_)); [by right|left]. split; [done|lia].
Qed.

Lemma to_nat_seqZ (n : Z) : Z.to_nat <$> seqZ 0 n = seq 0 (Z.to_nat n).
Proof.
  unfold seqZ. rewrite <- list_fmap_compose.
  rewrite <- (list_fmap_id (seq 0 (Z.to_nat n))) at 2.
  apply list_fmap_ext. intros _ i _. simpl. lia.
Qed.

Lemma store_loop_last (idx : list Z) (vals : list R) (U0 : vector R)
    (w0 : list nat) :
  length vals = length idx →
  Forall (λ iu, 0 ≤ iu < Z.of_nat (length U0)) idx →
  ∃ U1,
    for_each (λ st '(iu, x), store st iu x) (zip idx vals) (U0, w0) =
      Ok (U1, w0 ++ (Z.to_nat <$> idx)) ∧
    length U1 = length U0 ∧
    (∀ i, i ∉ Z.to_nat <$> idx → U1 !! i = U0 !! i) ∧
    (∀ k iu, idx !! k = Some iu →
       (∀ k', (k < k')%nat → idx !! k' ≠ Some iu) →
       U1 !! Z.to_nat iu = vals !! k).
Proof.
  revert vals U0 w0. induction idx as [|iu idx IH]; intros vals U0 w0 Hlen Hin.
  - exists U0. simpl. rewrite app_nil_r. repeat split; try done.
  - destruct vals as [|x vals]; [done|].
    apply Forall_cons in Hin as [Hiu Hin].
    cbn [zip zip_with for_each].
    assert (store (U0, w0) iu x =
            Ok (<[Z.to_nat iu := x]> U0, w0 ++ [Z.to_nat iu])) as ->
      by (unfold store; cbn [fst snd]; by rewrite py_index_nonneg).
    cbn [mbind result_bind].
    destruct (IH vals (<[Z.to_nat iu := x]> U0) (w0 ++ [Z.to_nat iu]))
      as (U1 & HU1 & Hlen1 & Hout & Hget).
    { simpl in Hlen. lia. }
    { by rewrite length_insert. }
    exists U1. rewrite HU1. rewrite length_insert in Hlen1.
    split; [by rewrite <- app_assoc|]. split; [done|]. split.
    + intros i Hi. rewrite fmap_cons in Hi.
      apply not_elem_of_cons in Hi as [Hne Hi].
      rewrite Hout by done. by rewrite list_lookup_insert_ne.
    + intros [|k] iu' Hk Hlast; simpl in Hk.
      * injection Hk as <-. rewrite Hout.
        -- simpl. apply list_lookup_insert_eq. lia.
        -- intros (iu' & Heq & Hin')%list_elem_of_fmap.
           pose proof (proj1 (Forall_forall _ _) Hin iu' Hin') as Hr.
           simpl in Hr. assert (iu = iu') as -> by lia.
           apply list_elem_of_lookup in Hin' as [k' Hk'].
           by apply (Hlast (S k')); [lia|].
      * simpl. apply Hget; [done|].
        intros k' Hlt. apply (Hlast (S k')). lia.
Qed.

(** C2, as the code has it.  For constrained indices inside [0, n), one
    value per entry of [iUs] and one solved value per free index, the
    reconstruction returns a vector of length [n].  It writes the entries
    of [iUs] in list order and then the free indices in increasing order,
    so every index of [0, n) is written at least once, and exactly once
    if and only if [iUs] repeats no index.  Reading [U] back at [iUs[k]]
    gives [Us[k]] for the last occurrence of that index (for every [k]
    when no index is repeated), and reading it at the free positions
    gives [Ua]. *)
Theorem reconstruct_scatter (n : Z) (iUs_ : list Z) (Us_ Ua_ : list R) :
  0 ≤ n → Forall (λ iu, 0 ≤ iu < n) iUs_ →
  length Us_ = length iUs_ →
  length Ua_ = length (free_dofs (Z.to_nat n) iUs_) →
  ∃ U written,
    reconstruct n iUs_ Us_ Ua_ = Ok (U, written) ∧
    length U = Z.to_nat n ∧
    written =
      (Z.to_nat <$> iUs_) ++ (Z.to_nat <$> free_dofs (Z.to_nat n) iUs_) ∧
    (∀ p : nat, (p < Z.to_nat n)%nat → p ∈ written) ∧
    (NoDup written ↔ NoDup iUs_) ∧
    (NoDup iUs_ → written ≡ₚ seq 0 (Z.to_nat n)) ∧
    (∀ k iu, iUs_ !! k = Some iu →
       (∀ k', (k < k')%nat → iUs_ !! k' ≠ Some iu) →
       U !! Z.to_nat iu = Us_ !! k) ∧
    (NoDup iUs_ → ∀ k iu, iUs_ !! k = Some iu → U !! Z.to_nat iu = Us_ !! k) ∧
    (∀ k iu, free_dofs (Z.to_nat n) iUs_ !! k = Some iu →
       U !! Z.to_nat iu = Ua_ !! k).
Proof.
  intros Hn Hin HUs HUa.
  pose proof (free_dofs_range n iUs_) as Hfr.
  unfold reconstruct. rewrite sorted_differenceZ, decide_False by lia.
  unfold free_dofs in *. rewrite Z2Nat.id in * by done.
  set (free := filter (λ i, i ∉ iUs_) (seqZ 0 n)) in *.
  unfold enumerate.
  rewrite (for_each_enumerate_zip iUs_ Us_ []) by done.
  destruct (store_loop_last iUs_ Us_ (zeros (Z.to_nat n)) [])
    as (U1 & HU1 & Hl1 & Ho1 & Hg1); [done| |].
  { unfold zeros. rewrite length_replicate, Z2Nat.id by done. done. }
  rewrite HU1. cbn [mbind result_bind].
  rewrite (for_each_enumerate_zip free Ua_ []) by lia.
  unfold zeros in Hl1. rewrite length_replicate in Hl1.
  destruct (store_loop free Ua_ U1 ([] ++ (Z.to_nat <$> iUs_)))
    as (U2 & HU2 & Hl2 & Ho2 & Hg2).
  { lia. }
  { rewrite Hl1, Z2Nat.id by done. done. }
  rewrite HU2. cbn [app].
  assert (NoDup free) as Hfnd by apply NoDup_filter, NoDup_seqZ.
  assert (∀ l, Forall (λ iu, 0 ≤ iu < n) l →
               (NoDup (Z.to_nat <$> l) ↔ NoDup l)) as Hinj.
  { intros l Hl. split; [apply NoDup_fmap_1|].
    intros Hnd. apply NoDup_fmap_2_strong; [|done].
    intros x y Hx Hy Heq.
    pose proof (proj1 (Forall_forall _ _) Hl x Hx).
    pose proof (proj1 (Forall_forall _ _) Hl y Hy). simpl in *. lia. }
  assert (∀ iu, iu ∈ iUs_ → Z.to_nat iu ∉ Z.to_nat <$> free) as Hdisj.
  { intros iu Hiu (iu' & Heq & [Hni Hiu']%list_elem_of_filter)%list_elem_of_fmap.
    pose proof (proj1 (Forall_forall _ _) Hin iu Hiu) as Hr.
    apply elem_of_seqZ in Hiu'. simpl in Hr.
    assert (iu = iu') as -> by lia. done. }
  assert (∀ k iu, iUs_ !! k = Some iu →
            (∀ k', (k < k')%nat → iUs_ !! k' ≠ Some iu) →
            U2 !! Z.to_nat iu = Us_ !! k) as Hlast.
  { intros k iu Hk Hl. rewrite Ho2; [by apply Hg1|].
    apply Hdisj. by eapply list_elem_of_lookup_2. }
  exists U2, ((Z.to_nat <$> iUs_) ++ (Z.to_nat <$> free)).
  split; [done|]. split; [lia|]. split; [done|]. split; [|split; [|split]].
  - intros p Hp. rewrite elem_of_app.
    destruct (decide (Z.of_nat p ∈ iUs_)) as [Hc|Hc].
    + left. apply list_elem_of_fmap. exists (Z.of_nat p). split; [lia|done].
    + right. apply list_elem_of_fmap. exists (Z.of_nat p). split; [lia|].
      apply list_elem_of_filter. split; [done|]. apply elem_of_seqZ. lia.
  - rewrite NoDup_app, (Hinj iUs_ Hin), (Hinj free Hfr). split; [tauto|].
    intros Hnd. split; [done|]. split; [|done].
    intros p (iu & -> & Hiu)%list_elem_of_fmap. by apply Hdisj.
  - intros Hnd. rewrite <- fmap_app, <- to_nat_seqZ.
    apply fmap_Permutation. rewrite (comm app).
    by apply free_dofs_partition.
  - split; [done|]. split; [|by intros k iu Hk; apply Hg2].
    intros Hnd k iu Hk. apply Hlast; [done|].
    intros k' Hlt Hk'.
    pose proof (NoDup_lookup _ _ _ _ Hnd Hk Hk'). lia.
Qed.
End ReconstructFacts.

(** A constrained list that repeats an index: that position is written
    once per occurrence. *)
Remark reconstruct_repeated_index :
  reconstruct (R := Q) 2 [0; 0] [0; 0]%Q [7]%Q
    = Ok ([0; 7]%Q, [0; 0; 1]%nat).
Proof. vm_compute. reflexivity. Qed.

Lemma reconstruct_scatter_witness :
  ∃ U written,
    reconstruct (R := Q) 4 [1; 3; 1] [5; 0; 6]%Q [7; 9]%Q = Ok (U, written) ∧
    U = [7; 6; 9; 0]%Q ∧ written = [1; 3; 1; 0; 2]%nat ∧
    ¬ NoDup written.
Proof.
  destruct (reconstruct_scatter (R := Q) 4 [1; 3; 1] [5; 0; 6]%Q [7; 9]%Q)
    as (U & written & Hrec & Hlen & Hw & Hall & Hnd & _ & Hs & _ & Hf).
  - lia.
  - repeat constructor; lia.
  - reflexivity.
  - reflexivity.
  - exists U, written. split; [exact Hrec|]. split; [|split; [exact Hw|]].
    + assert (U !! 1%nat = Some 6%Q) as H1.
      { apply (Hs 2%nat 1 eq_refl). intros [|[|[|k']]] Hk' Hc; simpl in Hc;
          try lia; discriminate. }
      assert (U !! 3%nat = Some 0%Q) as H3.
      { apply (Hs 1%nat 3 eq_refl). intros [|[|[|k']]] Hk' Hc; simpl in Hc;
          try lia; discriminate. }
      pose proof (Hf 0%nat 0 eq_refl) as H0.
      pose proof (Hf 1%nat 2 eq_refl) as H2.
      destruct U as [|u0 [|u1 [|u2 [|u3 [|u4 U]]]]]; try discriminate.
      simpl in H0, H1, H2, H3. congruence.
    + rewrite Hnd. intros Hno. apply NoDup_cons in Hno as [Hno _].
      apply Hno. right. left.
Defined.

(** C2, the claim as stated, on the sets the solver builds for a valid
    deck: grid point 1 has [PS = 123456] and the selected SPC set names
    its components 1-4 as well, so [iUs = iUsb + iUsg] lists the indices
    0-3 twice and the reconstruction writes each of them twice. *)
Lemma reconstruct_writes_twice :
  (iUs <$> static_case_sets (R := Q) (Raise KeyError) Q_model_SPC init_solver
             (two_grid_rod 2) case_spc_mpc)
    = Ok [0; 1; 2; 3; 5; 4; 3; 2; 1; 0; 11; 10; 9; 8; 7] ∧
  (Us <$> static_case_sets (R := Q) (Raise KeyError) Q_model_SPC init_solver
            (two_grid_rod 2) case_spc_mpc)
    = Ok (replicate 15 0%Q) ∧
  reconstruct (R := Q) 12 [0; 1; 2; 3; 5; 4; 3; 2; 1; 0; 11; 10; 9; 8; 7]
    (replicate 15 0%Q) [4%Q]
    = Ok ([0; 0; 0; 0; 0; 0; 4; 0; 0; 0; 0; 0]%Q,
          [0; 1; 2; 3; 5; 4; 3; 2; 1; 0; 11; 10; 9; 8; 7; 6]%nat) ∧
  ¬ NoDup [0; 1; 2; 3; 5; 4; 3; 2; 1; 0; 11; 10; 9; 8; 7; 6]%nat.
Proof.
  split; [vm_compute; reflexivity|].
  split; [vm_compute; reflexivity|].
  split; [vm_compute; reflexivity|].
  intros Hnd. apply NoDup_cons in Hnd as [Hno _].
  apply Hno. do 8 right. left.
Qed.

(** ** In-place updates of a dense matrix *)

Section MatrixUpdates.
Context {R : Type}.

Lemma shape_alter2 (f : R → R) (M : matrix R) (r c : nat) :
  shape (alter2 f M r c) = shape M.
Proof.
  unfold shape, alter2. apply list_eq. intros i.
  rewrite !list_lookup_fmap.
  destruct (decide (r = i)) as [->|Hne].
  - rewrite list_lookup_alter_eq. destruct (M !! i); [|done].
    simpl. by rewrite length_alter.
  - by rewrite list_lookup_alter_ne.
Qed.

Lemma py_index2_via_shape (M : matrix R) (i j : Z) :
  py_index2 M i j =
    (r ← py_index (length (shape M)) i;
     len ← shape M !! r;
     c ← py_index len j;
     Some (r, c)).
Proof.
  unfold py_index2, shape. rewrite length_fmap.
  destruct (py_index (length M) i) as [r|]; [|done]. simpl.
  rewrite list_lookup_fmap. by destruct (M !! r).
Qed.

Lemma py_index2_shape (M M' : matrix R) (i j : Z) :
  shape M = shape M' → py_index2 M i j = py_index2 M' i j.
Proof. intros Hs. by rewrite !py_index2_via_shape, Hs. Qed.

Lemma lookup_alter2 (f : R → R) (M : matrix R) (r c r' c' : nat) :
  alter2 f M r c !! r' ≫= (.!! c') =
    if decide (r = r' ∧ c = c') then f <$> (M !! r ≫= (.!! c))
    else M !! r' ≫= (.!! c').
Proof.
  unfold alter2. rewrite list_lookup_alter.
  destruct (decide (r = r')) as [->|Hr].
  - destruct (M !! r') as [row|]; simpl.
    + rewrite list_lookup_alter.
      destruct (decide (c = c')) as [->|Hc].
      * by rewrite decide_True.
      * rewrite decide_False by tauto. done.
    + by destruct (decide _).
  - rewrite decide_False by tauto. done.
Qed.

Lemma is_square_shape (n : nat) (M M' : matrix R) :
  shape M' = shape M → is_square n M → is_square n M'.
Proof.
  unfold is_square, shape. intros Hs [Hlen Hrows]. split.
  - apply (f_equal length) in Hs. rewrite !length_fmap in Hs. lia.
  - apply Forall_lookup. intros i row Hi.
    assert ((length <$> M') !! i = Some (length row)) as Hl
      by (by rewrite list_lookup_fmap, Hi).
    rewrite Hs, list_lookup_fmap in Hl.
    destruct (M !! i) as [row0|] eqn:Hrow0; [|done].
    injection Hl as <-. apply (Forall_lookup_1 _ _ _ _ Hrows Hrow0).
Qed.

Lemma py_index2_square (n : nat) (M : matrix R) (a b : Z) (r c : nat) :
  is_square n M →
  py_index2 M a b = Some (r, c) ↔ py_index n a = Some r ∧ py_index n b = Some c.
Proof.
  intros [Hlen Hrows]. unfold py_index2. rewrite Hlen.
  destruct (py_index n a) as [r'|] eqn:Ha; simpl;
    [|split; [done | by intros [? _]]].
  assert (r' < n)%nat as Hr'.
  { unfold py_index in Ha. repeat case_decide; simplify_eq; lia. }
  destruct (lookup_lt_is_Some_2 M r') as [row Hrow]; [lia|].
  rewrite Hrow. simpl. rewrite (Forall_lookup_1 _ _ _ _ Hrows Hrow).
  destruct (py_index n b) as [c'|]; simpl.
  - split; [by intros [= -> ->] | by intros [[= ->] [= ->]]].
  - split; [done | by intros [_ ?]].
Qed.
End MatrixUpdates.

(** ** The static solve and the caller's arrays *)

Section SolveFrame.
Context {R : Type} `{Float64 R}.
Variable solve : matrix R → vector R → option (vector R).
Variable table : list (Z * Z) → string.

Lemma mpc_overwrite_frame (es : list (Z * (Z * R))) (Kgg : matrix R) :
  shape (mpc_overwrite Kgg es).2 = shape Kgg ∧
  ∀ r c,
    (∀ i j a, (i, (j, a)) ∈ es → py_index2 Kgg i j ≠ Some (r, c)) →
    (mpc_overwrite Kgg es).2 !! r ≫= (.!! c) = Kgg !! r ≫= (.!! c).
Proof.
  revert Kgg. induction es as [|[i [j a]] es IH]; intros Kgg; [done|].
  cbn [mpc_overwrite]. unfold setitem2Z.
  destruct (py_index2 Kgg i j) as [[r0 c0]|] eqn:Hij;
    cbn [from_option mbind result_bind]; [|done].
  destruct (IH (alter2 (λ _, a) Kgg r0 c0)) as [Hs Hget].
  rewrite shape_alter2 in Hs. split; [done|].
  intros r c Hfree. rewrite Hget.
  - rewrite lookup_alter2, decide_False; [done|].
    intros [-> ->]. by apply (Hfree i j a); [left|].
  - intros i' j' a' Hin. rewrite (py_index2_shape _ Kgg) by apply shape_alter2.
    apply (Hfree i' j' a'). by right.
Qed.

Lemma solve_sol_101_arrays (s : Solver R) (Kgg : matrix R) (Fg : vector R) :
  (solve_sol_101 solve table s Kgg Fg).1.2 =
    (mpc_overwrite Kgg (mpc_entries s)).2 ∧
  (solve_sol_101 solve table s Kgg Fg).2 = Fg.
Proof.
  unfold solve_sol_101, mpc_entries. destruct (derived s) as [d|]; [|done].
  destruct (mpc_overwrite Kgg _) as [[u|e] Kgg']; [|done].
  destruct (partition_dense_symmetric Kgg' _) as [[Kaa dofs2]|e]; [|done].
  destruct (partition_dense_vector Fg _) as [[Fa dofs2']|e]; [|done].
  by destruct (_solve _ _ _ _ _ _).
Qed.

(** C7, as the code has it.  [solve_sol_101] never changes [Fg] and
    keeps the shape of [Kgg]; an entry of [Kgg] can change only at a
    position named by one of the MPC triples of
    [zip(iUm, jUm, Um)], which are written into [Kgg] before it is
    partitioned.  Without MPC triples [Kgg] is unchanged. *)
Theorem solve_sol_101_frame (s : Solver R) (Kgg : matrix R) (Fg : vector R) :
  let out := solve_sol_101 solve table s Kgg Fg in
  let Kgg' := out.1.2 in
  out.2 = Fg ∧
  shape Kgg' = shape Kgg ∧
  (∀ r c,
     (∀ i j a, (i, (j, a)) ∈ mpc_entries s → py_index2 Kgg i j ≠ Some (r, c)) →
     Kgg' !! r ≫= (.!! c) = Kgg !! r ≫= (.!! c)) ∧
  (mpc_entries s = [] → Kgg' = Kgg).
Proof.
  intros out Kgg'. subst out Kgg'.
  destruct (solve_sol_101_arrays s Kgg Fg) as [-> ->].
  destruct (mpc_overwrite_frame (mpc_entries s) Kgg) as [Hs Hget].
  repeat split; try done.
  intros ->. done.
Qed.
End SolveFrame.

(** C7, the claim as stated, at a concrete call: the call returns the
    free displacements and the caller's [Kgg] has two entries changed. *)
Lemma solve_sol_101_overwrites_Kgg :
  let out := solve_sol_101 Qsolve Qtable solver_mpc Kgg6 Fg6 in
  out.1.1.1 = Ok [1; 2; 7 # 2]%Q ∧
  out.2 = Fg6 ∧
  Kgg6 !! 2%nat = Some [0; 0; 2; 0; 0; 0]%Q ∧
  out.1.2 !! 2%nat = Some [1; -1; 2; 0; 0; 0]%Q ∧
  out.1.2 ≠ Kgg6.
Proof.
  vm_compute. repeat split; discriminate.
Qed.

(** ** Loops as folds over flat lists *)

Lemma rbind_Ok {S} (m : result S) : m ≫= Ok = m.
Proof. by destruct m. Qed.

Lemma for_each_app {A S} (body : S → A → result S) (l1 l2 : list A) (s : S) :
  for_each body (l1 ++ l2) s = for_each body l1 s ≫= for_each body l2.
Proof.
  revert s. induction l1 as [|x l1 IH]; intros s; [done|].
  simpl. destruct (body s x) as [s'|e]; [|done]. simpl. apply IH.
Qed.

Lemma for_each_bind {A B S} (body : S → B → result S) (f : A → list B)
    (l : list A) (s : S) :
  for_each (λ s x, for_each body (f x) s) l s = for_each body (l ≫= f) s.
Proof.
  revert s. induction l as [|x l IH]; intros s; [done|].
  rewrite bind_cons, for_each_app. simpl.
  destruct (for_each body (f x) s) as [s'|e]; [|done]. simpl. apply IH.
Qed.

Lemma for_each_ext {A S} (b1 b2 : S → A → result S) (l : list A) (s : S) :
  (∀ x, x ∈ l → ∀ s, b1 s x = b2 s x) → for_each b1 l s = for_each b2 l s.
Proof.
  revert s. induction l as [|x l IH]; intros s Hext; [done|].
  simpl. rewrite (Hext x) by left.
  destruct (b2 s x) as [s'|e]; [|done]. simpl.
  apply IH. intros y Hy. apply Hext. by right.
Qed.

Lemma elem_of_enumerate {A} (l : list A) (i : nat) (x : A) :
  (i, x) ∈ enumerate l → (i < length l)%nat ∧ l !! i = Some x.
Proof.
  unfold enumerate. intros Hin.
  apply elem_of_lookup_zip_with in Hin as (k & j & y & [= <- <-] & Hj & Hy).
  apply lookup_seq in Hj as [-> Hk]. simpl. split; [lia | done].
Qed.

(** ** Scatter-add keeps the global matrix symmetric *)

Section Assembly.
Context {R : Type} `{Float64 R}.

Lemma add_stiffness_updates (K : matrix R) (dofs : list Z) (Kgg : matrix R) :
  is_square (length dofs) K →
  add_stiffness K dofs Kgg = apply_updates (element_updates K dofs) Kgg.
Proof.
  intros [HKn HKrows].
  unfold add_stiffness, apply_updates, element_updates.
  rewrite <- for_each_bind. apply for_each_ext. intros [i d1] [Hi _]%elem_of_enumerate M.
  rewrite <- for_each_bind. apply for_each_ext. intros [j d2] [Hj _]%elem_of_enumerate M'.
  cbn [fst snd].
  destruct (lookup_lt_is_Some_2 K i) as [row Hrow]; [lia|].
  pose proof (Forall_lookup_1 _ _ _ _ HKrows Hrow) as Hlen. simpl in Hlen.
  destruct (lookup_lt_is_Some_2 row j) as [kij Hkij]; [lia|].
  unfold getitem2. rewrite Hrow. simpl. rewrite Hkij. simpl.
  destruct (is_nonzero kij); [|done].
  simpl. by rewrite rbind_Ok.
Qed.

Lemma apply_updates_get (us : list (Z * Z * R)) (M M' : matrix R) :
  apply_updates us M = Ok M' →
  shape M' = shape M ∧
  ∀ r c, M' !! r ≫= (.!! c) =
         (λ x, foldl add x (contrib M us r c)) <$> (M !! r ≫= (.!! c)).
Proof.
  revert M. induction us as [|[[a b] v] us IH]; intros M.
  - intros [= <-]. split; [done|]. intros r c. simpl.
    by destruct (M !! r ≫= (.!! c)).
  - unfold apply_updates. cbn [for_each fst snd].
    destruct (iadd2 M a b v) as [M1|e] eqn:Hi; cbn [mbind result_bind]; [|done].
    unfold iadd2 in Hi.
    destruct (py_index2 M a b) as [[r0 c0]|] eqn:Hab;
      cbn [from_option mbind result_bind] in Hi; [|done].
    injection Hi as <-.
    intros Hrest. apply IH in Hrest as [Hs Hget].
    rewrite shape_alter2 in Hs. split; [done|].
    intros r c. rewrite Hget, lookup_alter2.
    assert (contrib (alter2 (λ y, add y v) M r0 c0) us r c = contrib M us r c)
      as ->.
    { unfold contrib. apply list_omap_ext, Forall2_same_length_lookup.
      split; [done|]. intros k u u' Hu Hu'. simplify_eq.
      by rewrite (py_index2_shape _ M) by apply shape_alter2. }
    unfold contrib at 2. cbn [omap list_omap fst snd]. rewrite Hab.
    destruct (decide (r0 = r ∧ c0 = c)) as [[-> ->]|Hne].
    + rewrite decide_True by done.
      destruct (M !! r ≫= (.!! c)); done.
    + rewrite decide_False by (intros [= -> ->]; tauto). done.
Qed.

Lemma apply_updates_total (n : nat) (us : list (Z * Z * R)) (M : matrix R) :
  is_square n M →
  Forall (λ u, dof_in_range n u.1.1 ∧ dof_in_range n u.1.2) us →
  ∃ M', apply_updates us M = Ok M'.
Proof.
  revert M. induction us as [|[[a b] v] us IH]; intros M HM Hin.
  - by exists M.
  - apply Forall_cons in Hin as [[Ha Hb] Hin]. cbn [fst snd] in Ha, Hb.
    unfold apply_updates. cbn [for_each fst snd].
    assert (∀ d, dof_in_range n d → is_Some (py_index n d)) as Hpy.
    { intros d Hd. unfold py_index, dof_in_range in *.
      repeat case_decide; eauto; lia. }
    destruct (Hpy a Ha) as [r Hr], (Hpy b Hb) as [c Hc].
    assert (iadd2 M a b v = Ok (alter2 (λ y, add y v) M r c)) as ->.
    { unfold iadd2.
      by rewrite (proj2 (py_index2_square n M a b r c HM)) by done. }
    cbn [mbind result_bind].
    apply IH; [|done]. eapply is_square_shape; [apply shape_alter2 | done].
Qed.

Lemma foldl_add_Permutation (l l' : list R) (x : R) :
  (∀ x v w : R, add (add x v) w = add (add x w) v) →
  l ≡ₚ l' → foldl add x l = foldl add x l'.
Proof.
  intros Hcomm Hp. revert x.
  induction Hp as [|y l l' _ IH|y z l|l l' l'' _ IH1 _ IH2]; intros x; simpl.
  - done.
  - apply IH.
  - by rewrite Hcomm.
  - by rewrite IH1.
Qed.

Lemma contrib_cons (M : matrix R) (u : Z * Z * R) (us : list (Z * Z * R))
    (r c : nat) :
  contrib M (u :: us) r c =
    (if decide (py_index2 M u.1.1 u.1.2 = Some (r, c)) then [u.2] else [])
    ++ contrib M us r c.
Proof. unfold contrib. simpl. by destruct (decide _). Qed.

Lemma contrib_swap (n : nat) (M : matrix R) (us : list (Z * Z * R)) (r c : nat) :
  is_square n M → contrib M (swap_update <$> us) c r = contrib M us r c.
Proof.
  intros HM. induction us as [|[[a b] v] us IH]; [done|].
  rewrite fmap_cons, !contrib_cons, IH. f_equal.
  unfold swap_update. cbn [fst snd].
  assert (py_index2 M b a = Some (c, r) ↔ py_index2 M a b = Some (r, c)) as Hiff
    by (rewrite !(py_index2_square n) by done; tauto).
  destruct (decide (py_index2 M b a = Some (c, r))),
           (decide (py_index2 M a b = Some (r, c))); try done; tauto.
Qed.

Lemma apply_updates_symmetric (n : nat) (us : list (Z * Z * R)) (M M' : matrix R) :
  is_square n M → symmetric M →
  (∀ r c x, foldl add x (contrib M us r c) = foldl add x (contrib M us c r)) →
  apply_updates us M = Ok M' →
  is_square n M' ∧ symmetric M'.
Proof.
  intros HM Hsym Hcontrib [Hs Hget]%apply_updates_get.
  split; [by eapply is_square_shape|].
  intros r c. rewrite !Hget, (Hsym r c).
  destruct (M !! c ≫= (.!! r)) as [x|]; [|done]. simpl. f_equal.
  apply Hcontrib.
Qed.

Lemma contrib_app (M : matrix R) (us1 us2 : list (Z * Z * R)) (r c : nat) :
  contrib M (us1 ++ us2) r c = contrib M us1 r c ++ contrib M us2 r c.
Proof. unfold contrib. apply omap_app. Qed.

Lemma contrib_bind {A} (M : matrix R) (f : A → list (Z * Z * R)) (l : list A)
    (r c : nat) :
  contrib M (l ≫= f) r c = l ≫= λ x, contrib M (f x) r c.
Proof.
  induction l as [|x l IH]; [done|].
  by rewrite !bind_cons, contrib_app, IH.
Qed.
End Assembly.

(** ** Exchanging the two loops of an element *)

Lemma bind_nil_r {A B} (l : list A) : l ≫= (λ _, @nil B) = [].
Proof. induction l as [|x l IH]; [done|]. by rewrite bind_cons, IH. Qed.

Lemma bind_app_Permutation {A B} (g h : A → list B) (l : list A) :
  l ≫= (λ y, g y ++ h y) ≡ₚ (l ≫= g) ++ (l ≫= h).
Proof.
  induction l as [|y l IH]; [done|].
  rewrite !bind_cons, IH, <- !app_assoc. f_equiv.
  rewrite !app_assoc. f_equiv. apply Permutation_app_comm.
Qed.

Lemma bind_exchange {A B C} (f : A → B → list C) (l1 : list A) (l2 : list B) :
  (l1 ≫= λ x, l2 ≫= λ y, f x y) ≡ₚ (l2 ≫= λ y, l1 ≫= λ x, f x y).
Proof.
  induction l1 as [|x l1 IH].
  - simpl. by rewrite bind_nil_r.
  - rewrite bind_cons, IH.
    rewrite <- bind_app_Permutation.
    apply reflexive_eq. apply list_bind_ext; [|done]. intros y.
    by rewrite bind_cons.
Qed.

Lemma fmap_bind_list {A B C} (g : B → C) (f : A → list B) (l : list A) :
  g <$> (l ≫= f) = l ≫= λ x, g <$> f x.
Proof.
  induction l as [|x l IH]; [done|]. by rewrite !bind_cons, fmap_app, IH.
Qed.

Section AssemblyTheorems.
Context {R : Type} `{Float64 R}.

Lemma element_updates_swap (K : matrix R) (dofs : list Z) :
  symmetric K →
  swap_update <$> element_updates K dofs ≡ₚ element_updates K dofs.
Proof.
  intros Hsym. unfold element_updates.
  rewrite fmap_bind_list.
  etrans; [|apply bind_exchange].
  apply reflexive_eq. apply list_bind_ext; [|done]. intros x.
  rewrite fmap_bind_list. apply list_bind_ext; [|done]. intros y.
  rewrite (Hsym y.1 x.1).
  destruct (K !! x.1 ≫= (.!! y.1)) as [kij|]; [|done].
  by destruct (is_nonzero kij).
Qed.

Lemma bind_if_filter {A B} (P : A → Prop) `{∀ x, Decision (P x)}
    (f : A → list B) (l : list A) :
  l ≫= (λ x, if decide (P x) then f x else []) = filter P l ≫= f.
Proof.
  induction l as [|x l IH]; [done|].
  rewrite bind_cons, filter_cons, IH.
  destruct (decide (P x)); [by rewrite bind_cons | done].
Qed.

Lemma filter_eq_short {A B} `{EqDecision B} (f : A → B) (v : B) (l : list A) :
  NoDup (f <$> l) → (length (filter (λ x, f x = v) l) ≤ 1)%nat.
Proof.
  induction l as [|x l IH]; [simpl; lia|].
  rewrite fmap_cons. intros [Hx Hl]%NoDup_cons.
  rewrite filter_cons. destruct (decide (f x = v)) as [<-|]; [|by apply IH].
  assert (filter (λ y, f y = f x) l = []) as ->; [|simpl; lia].
  destruct (filter (λ y, f y = f x) l) as [|y k] eqn:Hf; [done|].
  assert (y ∈ filter (λ y, f y = f x) l) as [Hfy Hy]%list_elem_of_filter
    by (rewrite Hf; left).
  destruct Hx. rewrite <- Hfy. apply list_elem_of_fmap. eauto.
Qed.

Lemma bind_exchange_short {A B C} (f : A → B → list C)
    (l1 : list A) (l2 : list B) :
  (length l1 ≤ 1)%nat → (length l2 ≤ 1)%nat →
  (l1 ≫= λ x, l2 ≫= λ y, f x y) = (l2 ≫= λ y, l1 ≫= λ x, f x y).
Proof.
  destruct l1 as [|x [|]], l2 as [|y [|]]; simpl; try lia; try done.
Qed.

Lemma contrib_element_updates (n : nat) (M K : matrix R) (dofs : list Z)
    (r c : nat) :
  is_square n M →
  contrib M (element_updates K dofs) r c =
    filter (λ x, py_index n x.2 = Some r) (enumerate dofs) ≫= λ x,
      filter (λ y, py_index n y.2 = Some c) (enumerate dofs) ≫= λ y,
        local_entry K x y.
Proof.
  intros HM. unfold element_updates. rewrite contrib_bind.
  rewrite <- (bind_if_filter (λ x, py_index n x.2 = Some r)).
  apply list_bind_ext; [|done]. intros x. rewrite contrib_bind.
  destruct (decide (py_index n x.2 = Some r)) as [Hr|Hr].
  - rewrite <- (bind_if_filter (λ y, py_index n y.2 = Some c)).
    apply list_bind_ext; [|done]. intros y. unfold local_entry.
    destruct (decide (py_index n y.2 = Some c)) as [Hc|Hc].
    + destruct (K !! x.1 ≫= (.!! y.1)) as [k|]; [|done].
      destruct (is_nonzero k); [|done].
      rewrite contrib_cons. cbn [fst snd].
      rewrite decide_True by (by apply (py_index2_square n)). done.
    + destruct (K !! x.1 ≫= (.!! y.1)) as [k|]; [|done].
      destruct (is_nonzero k); [|done].
      rewrite contrib_cons. cbn [fst snd].
      rewrite decide_False; [done|].
      intros Hp. apply (py_index2_square n) in Hp; [|done]. tauto.
  - etrans; [|apply (bind_nil_r (enumerate dofs))].
    apply list_bind_ext; [|done]. intros y.
    destruct (K !! x.1 ≫= (.!! y.1)) as [k|]; [|done].
    destruct (is_nonzero k); [|done].
    rewrite contrib_cons. cbn [fst snd].
    rewrite decide_False; [done|].
    intros Hp. apply (py_index2_square n) in Hp; [|done]. tauto.
Qed.

Lemma snd_enumerate {A} (l : list A) : (enumerate l).*2 = l.
Proof. unfold enumerate. apply snd_zip. by rewrite length_seq. Qed.

(** With distinct positions every entry of the global matrix receives
    at most one value from an element, and the entries [(r, c)] and
    [(c, r)] receive the same one: no law of addition is involved. *)
Lemma contrib_distinct_positions (n : nat) (M K : matrix R) (dofs : list Z)
    (r c : nat) :
  is_square n M → symmetric K → distinct_positions n dofs →
  contrib M (element_updates K dofs) r c =
  contrib M (element_updates K dofs) c r.
Proof.
  intros HM HK Hd. rewrite !(contrib_element_updates n) by done.
  assert (∀ v, (length (filter (λ x : nat * Z, py_index n x.2 = Some v)
                          (enumerate dofs)) ≤ 1)%nat) as Hshort.
  { intros v. apply (filter_eq_short (λ x : nat * Z, py_index n x.2)).
    assert ((λ x : nat * Z, py_index n x.2) <$> enumerate dofs
            = py_index n <$> dofs) as ->; [|exact Hd].
    rewrite <- (snd_enumerate dofs) at 2. by rewrite <- list_fmap_compose. }
  rewrite (bind_exchange_short (local_entry K)) by apply Hshort.
  apply list_bind_ext; [|done]. intros y.
  apply list_bind_ext; [|done]. intros x.
  unfold local_entry. by rewrite (HK x.1 y.1).
Qed.

Lemma add_stiffness_symmetric (n : nat) (K : matrix R) (dofs : list Z)
    (Kgg Kgg' : matrix R) :
  (∀ x v w : R, add (add x v) w = add (add x w) v) ∨ distinct_positions n dofs →
  symmetric_element (K, dofs) →
  is_square n Kgg → symmetric Kgg →
  add_stiffness K dofs Kgg = Ok Kgg' →
  is_square n Kgg' ∧ symmetric Kgg'.
Proof.
  intros Hwhy [HK HKsym] HM Hsym. cbn [fst snd] in *.
  rewrite add_stiffness_updates by done.
  apply apply_updates_symmetric; try done.
  intros r c x. destruct Hwhy as [Hcomm|Hd].
  - rewrite <- (contrib_swap n Kgg _ r c HM).
    apply foldl_add_Permutation; [done|].
    unfold contrib. by rewrite element_updates_swap.
  - by rewrite (contrib_distinct_positions n Kgg K dofs r c).
Qed.

Lemma zeros2_square_symmetric (n : nat) :
  is_square n (zeros2 (R := R) n n) ∧ symmetric (zeros2 (R := R) n n).
Proof.
  unfold zeros2. split.
  - split; [by rewrite length_replicate|].
    apply Forall_replicate. by rewrite length_replicate.
  - assert (∀ i j, replicate n (replicate n zero) !! i ≫= (.!! j) =
                   if decide (i < n ∧ j < n)%nat then Some zero else None) as Hz.
    { intros i j. destruct (decide (i < n)%nat) as [Hi|Hi].
      - rewrite lookup_replicate_2 by done. simpl.
        destruct (decide (j < n)%nat) as [Hj|Hj].
        + rewrite lookup_replicate_2 by done. by rewrite decide_True.
        + rewrite decide_False by tauto. apply lookup_replicate_None. lia.
      - rewrite decide_False by tauto.
        rewrite (proj1 (lookup_replicate_None _ _ _)) by lia. done. }
    intros i j. rewrite !Hz.
    destruct (decide (i < n ∧ j < n)%nat), (decide (j < n ∧ i < n)%nat);
      try done; tauto.
Qed.

Lemma for_each_project {A S T} (b2 : S → A → result S) (b1 : T → A → result T)
    (π : S → T) (l : list A) :
  (∀ s x s', b2 s x = Ok s' → b1 (π s) x = Ok (π s')) →
  ∀ s s', for_each b2 l s = Ok s' → for_each b1 l (π s) = Ok (π s').
Proof.
  intros Hstep. induction l as [|x l IH]; intros s s'.
  - by intros [= ->].
  - simpl. destruct (b2 s x) as [s1|e] eqn:Hx; [|done].
    rewrite (Hstep s x s1 Hx). simpl. apply IH.
Qed.

Lemma for_each_inv {A S} (body : S → A → result S) (P : S → Prop)
    (Q : A → Prop) (l : list A) (s : S) :
  (∀ s x, P s → Q x → ∃ s', body s x = Ok s' ∧ P s') →
  P s → Forall Q l → ∃ s', for_each body l s = Ok s' ∧ P s'.
Proof.
  intros Hstep. revert s. induction l as [|x l IH]; intros s Hs Hl.
  - by exists s.
  - apply Forall_cons in Hl as [Hx Hl].
    destruct (Hstep s x Hs Hx) as (s1 & Hb & Hs1).
    simpl. rewrite Hb. simpl. by apply IH.
Qed.

Lemma add_mass_fst (M : matrix R) (dofs : list Z) (st st' : matrix R * Dok R) :
  add_mass M dofs st = Ok st' → add_stiffness M dofs st.1 = Ok st'.1.
Proof.
  unfold add_mass, add_stiffness. revert st st'.
  apply (for_each_project _ _ fst). intros s [i d1] s'. revert s s'.
  apply (for_each_project _ _ fst). intros s [j d2] s'.
  destruct (getitem2 M i j) as [mij|e]; [|done]. simpl.
  destruct (is_nonzero mij); [|by intros [= ->]].
  destruct (iadd2 s.1 d1 d2 mij) as [Mgg|e]; [|done]. simpl.
  destruct (dok_iadd s.2 d1 d2 mij) as [Sp|e]; [|done]. simpl.
  by intros [= <-].
Qed.

Lemma py_index_in_range (n : nat) (d : Z) :
  dof_in_range n d → is_Some (py_index n d).
Proof.
  intros Hd. unfold py_index, dof_in_range in *. repeat case_decide; eauto; lia.
Qed.

Lemma add_mass_total (n : nat) (M : matrix R) (dofs : list Z)
    (st : matrix R * Dok R) :
  is_square (length dofs) M → Forall (dof_in_range n) dofs →
  is_square n st.1 → dok_shape st.2 = (n, n) →
  ∃ st', add_mass M dofs st = Ok st' ∧
         is_square n st'.1 ∧ dok_shape st'.2 = (n, n).
Proof.
  intros [HMn HMrows] Hin Hsq Hdok.
  assert (Forall (λ x : nat * Z,
            (x.1 < length dofs)%nat ∧ dof_in_range n x.2) (enumerate dofs)) as Hen.
  { apply Forall_forall. intros [i d] [Hi Hd]%elem_of_enumerate. split; [done|].
    apply (Forall_lookup_1 _ _ _ _ Hin Hd). }
  unfold add_mass.
  apply (for_each_inv _ (λ st, is_square n st.1 ∧ dok_shape st.2 = (n, n))
           (λ x, (x.1 < length dofs)%nat ∧ dof_in_range n x.2));
    [|done|done].
  intros s [i d1] Hs [Hi Hd1]. cbn [fst snd] in Hi, Hd1.
  apply (for_each_inv _ (λ st, is_square n st.1 ∧ dok_shape st.2 = (n, n))
           (λ x, (x.1 < length dofs)%nat ∧ dof_in_range n x.2));
    [|done|done].
  intros s2 [j d2] [Hs2 Hd] [Hj Hd2]. cbn [fst snd] in Hj, Hd2.
  destruct (lookup_lt_is_Some_2 M i) as [row Hrow]; [lia|].
  pose proof (Forall_lookup_1 _ _ _ _ HMrows Hrow) as Hlen. simpl in Hlen.
  destruct (lookup_lt_is_Some_2 row j) as [mij Hmij]; [lia|].
  unfold getitem2. rewrite Hrow. simpl. rewrite Hmij. simpl.
  destruct (is_nonzero mij); [|by exists s2].
  destruct (py_index_in_range n d1 Hd1) as [r Hr].
  destruct (py_index_in_range n d2 Hd2) as [c Hc].
  unfold iadd2, dok_iadd.
  rewrite (proj2 (py_index2_square n s2.1 d1 d2 r c Hs2)) by done.
  rewrite Hd. cbn [fst snd]. rewrite Hr, Hc. simpl.
  eexists. split; [reflexivity|]. simpl. split; [|done].
  eapply is_square_shape; [apply shape_alter2 | done].
Qed.

(** C5. Assembling symmetric element matrices gives symmetric global
    matrices: whenever the sequence of [add_stiffness] (resp. [add_mass])
    calls started from zeros finishes, [Kgg] (resp. [Mgg]) is square and
    equal to its transpose; and it does finish when every DOF index is
    one the array accepts.  This needs one of two things: an arithmetic
    in which the order of two additions onto the same entry does not
    matter, or elements whose DOF indices name distinct positions, and
    then no law of arithmetic at all. *)
Theorem assembly_symmetric (ndofs : nat) (elements : list (matrix R * list Z)) :
  (∀ x v w : R, add (add x v) w = add (add x w) v) ∨
    Forall (λ e, distinct_positions ndofs e.2) elements →
  Forall symmetric_element elements →
  (∀ Kgg, assemble_stiffness ndofs elements = Ok Kgg →
     is_square ndofs Kgg ∧ symmetric Kgg) ∧
  (∀ Mgg Mgg_sparse, assemble_mass ndofs elements = Ok (Mgg, Mgg_sparse) →
     is_square ndofs Mgg ∧ symmetric Mgg) ∧
  (Forall (λ e, Forall (dof_in_range ndofs) e.2) elements →
     (∃ Kgg, assemble_stiffness ndofs elements = Ok Kgg) ∧
     (∃ Mgg Mgg_sparse, assemble_mass ndofs elements = Ok (Mgg, Mgg_sparse))).
Proof.
  intros Hwhy Hel.
  assert (Forall (λ e : matrix R * list Z,
            ((∀ x v w : R, add (add x v) w = add (add x w) v) ∨
             distinct_positions ndofs e.2) ∧ symmetric_element e) elements)
    as Hel'.
  { apply Forall_and. split; [|done]. destruct Hwhy as [Hcomm|Hd].
    - apply Forall_forall. intros e _. by left.
    - eapply Forall_impl; [exact Hd|]. intros e He. by right. }
  assert (∀ M M', is_square ndofs M → symmetric M →
            for_each (λ Kgg '(K, dofs), add_stiffness K dofs Kgg) elements M
              = Ok M' → is_square ndofs M' ∧ symmetric M') as Hstiff.
  { clear Hel Hwhy.
    induction Hel' as [|[K dofs] els [Hw He] _ IH]; intros M M' HM Hsym.
    - by intros [= <-].
    - simpl. destruct (add_stiffness K dofs M) as [M1|e] eqn:HM1; [|done].
      simpl. destruct (add_stiffness_symmetric ndofs K dofs M M1) as [? ?];
        try done.
      by apply IH. }
  destruct (zeros2_square_symmetric ndofs) as [Hz Hzs].
  split; [|split].
  - intros Kgg. by apply Hstiff.
  - intros Mgg Sp Hm. unfold assemble_mass in Hm.
    apply (for_each_project _ (λ Kgg '(K, dofs), add_stiffness K dofs Kgg) fst)
      in Hm.
    + by apply (Hstiff _ _ Hz Hzs) in Hm.
    + intros s [M dofs] s'. apply add_mass_fst.
  - intros Hin.
    assert (∃ st', assemble_mass ndofs elements = Ok st' ∧
                   is_square ndofs st'.1 ∧ dok_shape st'.2 = (ndofs, ndofs))
      as (st' & Hst' & _).
    { unfold assemble_mass.
      apply (for_each_inv _
               (λ st, is_square ndofs st.1 ∧ dok_shape st.2 = (ndofs, ndofs))
               (λ e, symmetric_element e ∧ Forall (dof_in_range ndofs) e.2)).
      - intros s [M dofs] [Hs Hd] [[HM _] Hr]. cbn [fst snd] in HM, Hr.
        by apply add_mass_total.
      - done.
      - apply Forall_and. done. }
    split.
    + exists st'.1. unfold assemble_stiffness.
      apply (for_each_project _ (λ Kgg '(K, dofs), add_stiffness K dofs Kgg) fst)
        in Hst'; [done|].
      intros s [M dofs] s'. apply add_mass_fst.
    + exists st'.1, st'.2. by destruct st'.
Qed.
End AssemblyTheorems.

Lemma Qexact_add_right_comm (x v w : Q) : add (add x v) w = add (add x w) v.
Proof.
  simpl. apply Qred_complete. rewrite !Qred_correct. ring.
Qed.

Lemma symmetric_2x2 (a b d : Q) : symmetric [[a; b]; [b; d]].
Proof. intros [|[|i]] [|[|j]]; done. Qed.

Lemma assembly_symmetric_witness :
  assemble_stiffness 3 two_elements = Ok Kgg_two ∧ symmetric Kgg_two.
Proof.
  assert (assemble_stiffness 3 two_elements = Ok Kgg_two) as Heq
    by (vm_compute; reflexivity).
  split; [exact Heq|].
  destruct (assembly_symmetric (R := Q) 3 two_elements) as (Hk & _ & _).
  - left. exact Qexact_add_right_comm.
  - repeat constructor; apply symmetric_2x2.
  - exact (proj2 (Hk _ Heq)).
Defined.

(** ** binary64 *)

(** The values that compare equal to 0.0 are the two signed zeros. *)
Lemma b64_is_zero (x : binary64) : is_zero x ↔ ∃ s, x = SpecFloat.S754_zero s.
Proof.
  unfold is_zero. split.
  - intros Hx. destruct x as [s|s| |s m e];
      [eauto | by destruct s | done | by destruct s].
  - by intros [s ->].
Qed.

(** binary64 satisfies the laws of [ZeroAbsorbing]. *)
Lemma Binary64_zero_absorbing : ZeroAbsorbing binary64 b64_finite.
Proof.
  split.
  - reflexivity.
  - intros x [s ->]%b64_is_zero. exact I.
  - intros x y [s ->]%b64_is_zero [s' ->]%b64_is_zero. by destruct s, s'.
  - intros x y [s ->]%b64_is_zero [s' ->]%b64_is_zero. by destruct s, s'.
  - intros x y [s ->]%b64_is_zero Hy. by destruct y.
  - intros x y Hx [s ->]%b64_is_zero. by destruct x.
  - intros x [s ->]%b64_is_zero. reflexivity.
  - intros x y [s ->]%b64_is_zero Hy Hne. by destruct y.
  - intros x [s ->]%b64_is_zero. reflexivity.
  - intros x Hx. by destruct x.
  - intros x [s ->]%b64_is_zero. reflexivity.
Qed.

Lemma K_repeated_symmetric : symmetric_element (K_repeated, dofs_repeated).
Proof.
  split; [split; [reflexivity | repeat constructor]|].
  intros i j.
  destruct i as [|[|[|[|i]]]], j as [|[|[|[|j]]]]; try reflexivity;
    simpl; by destruct (_ !! _).
Qed.

(** C5, the claim as stated, in binary64: one symmetric local matrix
    whose element lists each of its two DOFs twice.  [Kgg[0, 1]] receives
    [2^53 + 1 - 2^53], which rounds to 0.0, and [Kgg[1, 0]] receives
    [2^53 - 2^53 + 1 = 1.0]; the assembled stiffness and mass matrices
    are [[0, 0], [1, 0]]. *)
Lemma add_stiffness_float64_asymmetric :
  symmetric_element (K_repeated, dofs_repeated) ∧
  assemble_stiffness 2 [(K_repeated, dofs_repeated)]
    = Ok [[zero; zero]; [b64_of_Z 1; zero]] ∧
  ¬ symmetric [[zero; zero]; [b64_of_Z 1; zero]] ∧
  (fst <$> assemble_mass 2 [(K_repeated, dofs_repeated)])
    = Ok [[zero; zero]; [b64_of_Z 1; zero]].
Proof.
  split; [exact K_repeated_symmetric|].
  split; [vm_compute; reflexivity|].
  split; [|vm_compute; reflexivity].
  intros Hsym. specialize (Hsym 0%nat 1%nat). vm_compute in Hsym. discriminate.
Qed.

(** ** Grid point weight generator *)

Section GpwgFacts.
Context {R : Type} `{Float64 R}.
Variable eigh : matrix R → option (vector R * matrix R).

Lemma getitem2_Ok (M : matrix R) (i j : nat) (x : R) :
  getitem2 M i j = Ok x ↔ M !! i ≫= (.!! j) = Some x.
Proof.
  unfold getitem2. destruct (M !! i ≫= (.!! j)); simpl;
    split; congruence.
Qed.

Ltac step_bind Hrun x :=
  match type of Hrun with
  | (?m ≫= _) = Ok _ =>
      let E := fresh "E" in
      destruct m as [x|] eqn:E; cbn [mbind result_bind] in Hrun;
      [|discriminate Hrun]
  end.

Lemma make_gpwg_rows (Mo : matrix R) (gpw : GridPointWeight R)
    (omega : vector R) (S_ Mt Mtr : matrix R) :
  eigh (block3 Mo 0 0) = Some (omega, S_) →
  triple S_ (block3 Mo 0 0) = Ok Mt →
  triple S_ (block3 Mo 0 3) = Ok Mtr →
  make_gpwg eigh Mo = Ok gpw →
  ∃ terms, cg_terms Mtr = Some terms ∧
    ∀ (k : nat) Mk row, (k < 3)%nat →
      Mt !! k ≫= (.!! k) = Some Mk → terms !! k = Some row →
      gpw_mass gpw !! k = Some Mk ∧
      gpw_cg gpw !! k =
        Some (if feqb Mk zero then row else (λ x, to_f32 (div x Mk)) <$> row).
Proof.
  intros Heigh HMt HMtr Hrun. unfold make_gpwg in Hrun.
  rewrite Heigh in Hrun. cbn [from_option mbind result_bind] in Hrun.
  rewrite HMt in Hrun. cbn [mbind result_bind] in Hrun.
  rewrite HMtr in Hrun. cbn [mbind result_bind] in Hrun.
  step_bind Hrun Mr.
  step_bind Hrun Mx. step_bind Hrun My. step_bind Hrun Mz.
  step_bind Hrun Mtr00. step_bind Hrun Mtr02. step_bind Hrun Mtr01.
  step_bind Hrun Mtr12. step_bind Hrun Mtr11. step_bind Hrun Mtr10.
  step_bind Hrun Mtr21. step_bind Hrun Mtr20. step_bind Hrun Mtr22.
  repeat match goal with
         | E : getitem2 _ _ _ = Ok _ |- _ => apply getitem2_Ok in E
         end.
  unfold cg_terms.
  repeat match goal with
         | E : Mtr !! _ ≫= _ = Some _ |- _ => rewrite E; clear E
         end.
  cbn [mbind option_bind]. eexists. split; [reflexivity|].
  intros k Mk row Hk HMk Hrow.
  repeat match type of Hrun with
         | (?m ≫= _) = Ok _ =>
             destruct m eqn:?; cbn [mbind result_bind] in Hrun;
             [|discriminate Hrun]
         end.
  injection Hrun as <-. cbn [gpw_mass gpw_cg].
  destruct k as [|[|[|k]]]; [| | |lia]; simpl in Hrow; injection Hrow as <-.
  - assert (Mk = Mx) as -> by congruence.
    split; [reflexivity|]. simpl. by destruct (feqb Mx zero).
  - assert (Mk = My) as -> by congruence.
    split; [reflexivity|]. simpl. by destruct (feqb My zero).
  - assert (Mk = Mz) as -> by congruence.
    split; [reflexivity|]. simpl. by destruct (feqb Mz zero).
Qed.

Lemma square3_inv (S_ : matrix R) :
  is_square 3 S_ →
  ∃ a b c d e f g h i, S_ = [[a; b; c]; [d; e; f]; [g; h; i]].
Proof.
  intros [Hlen Hrows].
  destruct S_ as [|r0 [|r1 [|r2 [|r3 S_]]]]; try done.
  apply Forall_cons in Hrows as [H0 Hrows].
  apply Forall_cons in Hrows as [H1 Hrows].
  apply Forall_cons in Hrows as [H2 _].
  destruct r0 as [|a [|b [|c [|? ?]]]]; try done.
  destruct r1 as [|d [|e [|f [|? ?]]]]; try done.
  destruct r2 as [|g [|h [|i [|? ?]]]]; try done.
  by exists a, b, c, d, e, f, g, h, i.
Qed.

Lemma triple_square3 (S_ B : matrix R) :
  is_square 3 S_ → is_square 3 B →
  ∃ Mt Mx My Mz, triple S_ B = Ok Mt ∧
    getitem2 Mt 0 0 = Ok Mx ∧ getitem2 Mt 1 1 = Ok My ∧ getitem2 Mt 2 2 = Ok Mz.
Proof.
  intros (a & b & c & d & e & f & g & h & i & ->)%square3_inv
         (a' & b' & c' & d' & e' & f' & g' & h' & i' & ->)%square3_inv.
  unfold triple, dot. simpl.
  eauto 10.
Qed.

End GpwgFacts.

(** ** Products of arrays with entries that compare equal to zero *)

Section MatrixFacts.
Context {R : Type} `{Float64 R}.

Lemma mat_T_spec (M : matrix R) (c : nat) :
  M ≠ [] → Forall (λ row, length row = c) M →
  length (mat_T M) = c ∧
  ∀ j col, mat_T M !! j = Some col →
    length col = length M ∧ ∀ i, col !! i = M !! i ≫= (.!! j).
Proof.
  induction M as [|row M IH]; [done|]. intros _ Hrows.
  apply Forall_cons in Hrows as [Hrow Hrows].
  destruct M as [|row' M'].
  - cbn [mat_T]. rewrite length_fmap. split; [done|].
    intros j col Hj. rewrite list_lookup_fmap in Hj.
    destruct (row !! j) as [x|] eqn:Hx; [|done]. injection Hj as <-.
    split; [done|]. intros [|i]; simpl; [by rewrite Hx | done].
  - destruct IH as [Hlen Hcols]; [done | done |].
    change (mat_T (row :: row' :: M'))
      with (zip_with cons row (mat_T (row' :: M'))).
    rewrite length_zip_with. split; [lia|].
    intros j col Hj.
    apply lookup_zip_with_Some in Hj as (x & col' & -> & Hx & Hcol').
    destruct (Hcols j col' Hcol') as [Hl Hget].
    split; [simpl in *; lia|].
    intros [|i]; [by simpl; rewrite Hx | apply Hget].
Qed.

Lemma dot_entry (A B C : matrix R) (i j : nat) (x : R) :
  dot A B = Ok C → C !! i ≫= (.!! j) = Some x →
  ∃ u v, A !! i = Some u ∧ mat_T B !! j = Some v ∧ x = dotprod u v.
Proof.
  unfold dot. destruct (decide _); [|done]. intros [= <-] Hx.
  rewrite list_lookup_fmap in Hx.
  destruct (A !! i) as [u|]; [|done]. simpl in Hx.
  rewrite list_lookup_fmap in Hx.
  destruct (mat_T B !! j) as [v|]; [|done]. injection Hx as <-. eauto.
Qed.

Lemma dot_shape (A B : matrix R) (c : nat) :
  B ≠ [] → Forall (λ row, length row = c) B →
  Forall (λ row, length row = length B) A →
  ∃ C, dot A B = Ok C ∧ length C = length A ∧
       Forall (λ row, length row = c) C.
Proof.
  intros HB Hrows HA. unfold dot. rewrite decide_True by done.
  eexists. split; [done|]. rewrite length_fmap. split; [done|].
  apply Forall_fmap, Forall_true. intros row. simpl.
  rewrite length_fmap. by apply mat_T_spec.
Qed.

Section Zero.
Variable finite : R → Prop.
Hypothesis laws : ZeroAbsorbing R finite.

Lemma dotprod_is_zero (u v : vector R) :
  Forall (absorbed finite) (zip u v) → is_zero (dotprod u v).
Proof.
  unfold dotprod. generalize (za_zero R finite laws).
  generalize (zero (R := R)). generalize (zip u v). clear u v.
  intros l. induction l as [|[a b] l IH]; intros acc Hacc Hl; [done|].
  apply Forall_cons in Hl as [Hab Hl]. cbn [foldl]. apply IH; [|done].
  apply (za_add R finite laws); [done|].
  destruct Hab as [[Ha Hb]|[Ha Hb]];
    [by apply (za_mul_l R finite laws) | by apply (za_mul_r R finite laws)].
Qed.

Lemma absorbed_zip (u v : vector R) :
  (∀ k a b, u !! k = Some a → v !! k = Some b → absorbed finite (a, b)) →
  Forall (absorbed finite) (zip u v).
Proof.
  intros Hk. apply Forall_lookup. intros k [a b] Hab.
  apply lookup_zip_with_Some in Hab as (a' & b' & [= <- <-] & Ha & Hb).
  by apply (Hk k).
Qed.
End Zero.
End MatrixFacts.

(** ** The rigid-body matrix [D] *)

Section RigidBody.
Context {R : Type} `{Float64 R}.

Lemma concat_blocks_lookup (ds : list (matrix R)) (t a : nat) (d : matrix R) :
  Forall (λ d, length d = 6%nat) ds → ds !! t = Some d → (a < 6)%nat →
  concat ds !! (6 * t + a)%nat = d !! a.
Proof.
  revert t. induction ds as [|d0 ds IH]; intros t Hlen Ht Ha; [done|].
  apply Forall_cons in Hlen as [Hd0 Hlen]. cbn [concat].
  destruct t as [|t].
  - injection Ht as ->. rewrite lookup_app_l by lia. f_equal; lia.
  - change (ds !! t = Some d) in Ht.
    rewrite lookup_app_r by lia.
    replace (6 * S t + a - length d0)%nat with (6 * t + a)%nat by lia.
    by apply IH.
Qed.

Lemma concat_blocks_length (ds : list (matrix R)) :
  Forall (λ d, length d = 6%nat) ds → length (concat ds) = (6 * length ds)%nat.
Proof.
  induction 1 as [|d ds Hd _ IH]; [done|].
  simpl. rewrite length_app. lia.
Qed.

Lemma rigid_body_block_shape (Ti : mat33 R) (node : R * R * R) :
  ∃ d, rigid_body_block Ti node = Ok d ∧ length d = 6%nat ∧
       Forall (λ row, length row = 6%nat) d.
Proof.
  destruct Ti as [[[[a b] c] [[d e] f]] [[g h] i]], node as [[r1 r2] r3].
  unfold rigid_body_block, dot. simpl. eexists. split; [reflexivity|]. split; [reflexivity|].
  repeat constructor.
Qed.

Lemma rigid_body_block_coupling (finite : R → Prop) (Ti : mat33 R)
    (node : R * R * R) (d : matrix R) :
  ZeroAbsorbing R finite →
  is_zero node.1.1 → is_zero node.1.2 → is_zero node.2 →
  rigid_body_block Ti node = Ok d → all_entries finite d →
  ∀ (a j : nat) x, (a < 3)%nat → (3 ≤ j)%nat →
    d !! a ≫= (.!! j) = Some x → is_zero x.
Proof.
  intros laws H1 H2 H3 Hd Hfin a j x Ha Hj Hx.
  destruct Ti as [[[[t11 t12] t13] [[t21 t22] t23]] [[t31 t32] t33]],
    node as [[r1 r2] r3].
  simpl in H1, H2, H3.
  unfold rigid_body_block, dot in Hd. simpl in Hd. injection Hd as <-.
  unfold all_entries in Hfin.
  repeat match goal with
         | Hf : Forall _ (_ :: _) |- _ => apply Forall_cons in Hf as [? Hf]
         end.
  repeat match goal with
         | Hf : finite (to_f32 _) |- _ =>
             apply (za_to_f32_finite R finite laws) in Hf
         end.
  assert (∀ u v w p q s : R, finite u → finite v → finite w →
            is_zero p → is_zero q → is_zero s →
            is_zero (to_f32 (dotprod [u; v; w] [p; q; s]))) as Hdot.
  { intros u v w p q s Hu Hv Hw Hp Hq Hs.
    apply (za_to_f32 R finite laws), (dotprod_is_zero finite laws).
    cbn [zip zip_with].
    repeat (apply Forall_cons_2; [right; by split|]). apply Forall_nil_2. }
  assert (is_zero (to_f32 (zero (R := R)))) as Hz0
    by apply (za_to_f32 R finite laws), (za_zero R finite laws).
  assert (∀ r : R, is_zero r → is_zero (to_f32 r)) as Hzf
    by (intros r; apply (za_to_f32 R finite laws)).
  assert (∀ r : R, is_zero r → is_zero (to_f32 (neg r))) as Hzn
    by (intros r Hr; by apply (za_to_f32 R finite laws), (za_neg R finite laws)).
  destruct a as [|[|[|a]]]; [| | |lia];
    (destruct j as [|[|[|[|[|[|j]]]]]]; try lia; simpl in Hx;
     try discriminate Hx; injection Hx as <-; apply Hdot; auto).
Qed.
End RigidBody.

Section RigidBodyMatrix.
Context {R : Type} `{Float64 R}.

Lemma xyz_cid0_loop (l : list (Z * (R * R * R))) (k : nat)
    (arr0 : list (R * R * R)) :
  (k + length l ≤ length arr0)%nat →
  ∃ arr,
    for_each (λ (xyz_cid0 : list (R * R * R)) '(i, (key, xyz)),
        if decide (i < length xyz_cid0)%nat
        then Ok (<[i := to_f32_row xyz]> xyz_cid0)
        else Raise IndexError)
      (zip (seq k (length l)) l) arr0 = Ok arr ∧
    length arr = length arr0 ∧
    (∀ t key xyz, l !! t = Some (key, xyz) →
       arr !! (k + t)%nat = Some (to_f32_row xyz)) ∧
    (∀ i, (i < k)%nat → arr !! i = arr0 !! i).
Proof.
  revert k arr0. induction l as [|[key xyz] l IH]; intros k arr0 Hlen.
  - exists arr0. by split_and!.
  - cbn [length seq zip zip_with for_each]. simpl in Hlen.
    rewrite decide_True by lia. cbn [mbind result_bind].
    destruct (IH (S k) (<[k := to_f32_row xyz]> arr0))
      as (arr & Harr & Hl & Hget & Hkeep).
    { rewrite length_insert. lia. }
    exists arr. rewrite length_insert in Hl. split_and!; [done | done | |].
    + intros [|t] key' xyz' Ht; simpl in Ht.
      * injection Ht as <- <-. rewrite Nat.add_0_r, Hkeep by lia.
        apply list_lookup_insert_eq. lia.
      * replace (k + S t)%nat with (S k + t)%nat by lia. by eapply Hget.
    + intros i Hi. rewrite Hkeep by lia. apply list_lookup_insert_ne. lia.
Qed.

Lemma xyz_cid0_of_spec (grid_n : nat) (positions : gmap Z (R * R * R)) :
  (size positions ≤ grid_n)%nat →
  ∃ xyz_cid0,
    xyz_cid0_of grid_n positions = Ok xyz_cid0 ∧
    length xyz_cid0 = grid_n ∧
    ∀ t key xyz, sorted_items positions !! t = Some (key, xyz) →
      xyz_cid0 !! t = Some (to_f32_row xyz).
Proof.
  intros Hsz. unfold xyz_cid0_of, enumerate.
  destruct (xyz_cid0_loop (sorted_items positions) 0
              (replicate grid_n (zero, zero, zero)))
    as (arr & Harr & Hl & Hget & _).
  { rewrite length_replicate. unfold sorted_items.
    rewrite (Permutation_length (merge_sort_Permutation _ _)).
    rewrite length_map_to_list. lia. }
  exists arr. rewrite length_replicate in Hl. split_and!; [done | done |].
  intros t key xyz Ht. by apply (Hget t key xyz).
Qed.

Lemma make_gpwg_D_loop (els : Elements R) (ref_point : R * R * R)
    (l : list (R * R * R)) (k : nat) (D0 : matrix R) :
  (∀ i, (k ≤ i < k + length l)%nat →
     ∃ cp, grid_cp els !! i = Some cp ∧ is_Some (coords_beta els !! cp)) →
  ∃ ds,
    for_each (λ (D : matrix R) '(i, xyz),
        cp ← getitem (grid_cp els) i;
        Ti ← from_option KeyError (coords_beta els !! cp);
        d ← rigid_body_block Ti
               (sub xyz.1.1 ref_point.1.1, sub xyz.1.2 ref_point.1.2,
                sub xyz.2 ref_point.2);
        Ok (D ++ d))
      (zip (seq k (length l)) l) D0 = Ok (D0 ++ concat ds) ∧
    Forall2 (λ xyz d, ∃ Ti,
        rigid_body_block Ti (sub xyz.1.1 ref_point.1.1,
                             sub xyz.1.2 ref_point.1.2,
                             sub xyz.2 ref_point.2) = Ok d) l ds.
Proof.
  revert k D0. induction l as [|xyz l IH]; intros k D0 Hcp.
  - exists []. simpl. rewrite app_nil_r. split; [done | constructor].
  - destruct (Hcp k) as (cp & Hk & [Ti HTi]); [simpl; lia|].
    destruct (rigid_body_block_shape Ti
                (sub xyz.1.1 ref_point.1.1, sub xyz.1.2 ref_point.1.2,
                 sub xyz.2 ref_point.2)) as (d & Hd & _).
    destruct (IH (S k) (D0 ++ d)) as (ds & Hds & Hall).
    { intros i Hi. apply Hcp. simpl. lia. }
    exists (d :: ds). split; [|constructor; [eauto | done]].
    cbn [length seq zip zip_with for_each]. cbv beta iota.
    assert (getitem (grid_cp els) k = Ok cp) as ->
      by (unfold getitem; by rewrite Hk).
    cbn [from_option mbind result_bind].
    rewrite HTi. cbn [from_option mbind result_bind].
    rewrite Hd. cbn [mbind result_bind].
    rewrite Hds. cbn [concat]. by rewrite app_assoc.
Qed.

Lemma make_gpwg_D_blocks (els : Elements R) (grid_n : nat)
    (positions : gmap Z (R * R * R)) (grid_point : Z) (ref_point : R * R * R) :
  (size positions ≤ grid_n)%nat →
  positions !! 2 = Some ref_point →
  (∀ i, (i < grid_n)%nat →
     ∃ cp, grid_cp els !! i = Some cp ∧ is_Some (coords_beta els !! cp)) →
  ∃ ds,
    make_gpwg_D els grid_n positions grid_point = Ok (concat ds) ∧
    length ds = grid_n ∧
    Forall (λ d : matrix R,
              length d = 6%nat ∧ Forall (λ row, length row = 6%nat) d) ds ∧
    ∀ t key xyz, sorted_items positions !! t = Some (key, xyz) →
      ∃ Ti d, ds !! t = Some d ∧
        rigid_body_block Ti
          (sub (to_f32 xyz.1.1) ref_point.1.1,
           sub (to_f32 xyz.1.2) ref_point.1.2,
           sub (to_f32 xyz.2) ref_point.2) = Ok d.
Proof.
  intros Hsz Href Hcp. unfold make_gpwg_D. cbv zeta.
  destruct (xyz_cid0_of_spec grid_n positions Hsz) as (xyz_cid0 & -> & Hl & Hget).
  cbn [mbind result_bind].
  rewrite decide_False.
  2:{ intros Hin. apply elem_of_cons in Hin as [|Hin]; [done|].
      by apply list_elem_of_singleton in Hin. }
  rewrite Href. cbn [from_option mbind result_bind]. unfold enumerate.
  destruct (make_gpwg_D_loop els ref_point xyz_cid0 0 []) as (ds & Hds & Hall).
  { intros i Hi. apply Hcp. lia. }
  exists ds. split; [exact Hds|].
  pose proof (Forall2_length _ _ _ Hall) as Hlen. split; [lia|]. split.
  - apply Forall_forall. intros d Hd.
    apply list_elem_of_lookup in Hd as [i Hi].
    destruct (Forall2_lookup_r _ _ _ _ _ Hall Hi) as (xyz & _ & Ti & HTi).
    destruct (rigid_body_block_shape Ti
                (sub xyz.1.1 ref_point.1.1, sub xyz.1.2 ref_point.1.2,
                 sub xyz.2 ref_point.2)) as (d' & Hd' & Hshape).
    rewrite HTi in Hd'. by injection Hd' as <-.
  - intros t key xyz Ht.
    destruct (Forall2_lookup_l _ _ _ _ _ Hall (Hget t key xyz Ht))
      as (d & Hd & Ti & HTi).
    exists Ti, d. split; [done|]. exact HTi.
Qed.
End RigidBodyMatrix.

Section ReducedMass.
Context {R : Type} `{Float64 R}.
Variable finite : R → Prop.
Hypothesis laws : ZeroAbsorbing R finite.

Lemma entry_Forall (P : R → Prop) (M : matrix R) (i j : nat) (x : R) :
  all_entries P M → M !! i ≫= (.!! j) = Some x → P x.
Proof.
  intros HM Hx. destruct (M !! i) as [row|] eqn:Hrow; [|done]. simpl in Hx.
  apply (proj1 (Forall_lookup _ _) (proj1 (Forall_lookup _ _) HM i row Hrow) j x Hx).
Qed.

(** The reduced mass matrix [Mo = triple(D, Mgg)] of a mass that sits at
    the reference point: the columns of the rotations are zero. *)
Lemma triple_D_point_mass (els : Elements R) (grid_n : nat)
    (positions : gmap Z (R * R * R)) (grid_point : Z) (Mgg : matrix R)
    (t : nat) (p : R * R * R) :
  (size positions ≤ grid_n)%nat →
  sorted_items positions !! t = Some (2, p) →
  same_point p →
  (∀ i, (i < grid_n)%nat →
     ∃ cp, grid_cp els !! i = Some cp ∧ is_Some (coords_beta els !! cp)) →
  is_square (6 * grid_n) Mgg →
  point_mass_at finite t Mgg →
  (∀ D, make_gpwg_D els grid_n positions grid_point = Ok D →
        all_entries finite D) →
  ∃ D Mo,
    make_gpwg_D els grid_n positions grid_point = Ok D ∧
    triple D Mgg = Ok Mo ∧ is_square 6 Mo ∧
    ∀ (i j : nat) x, Mo !! i ≫= (.!! j) = Some x → (3 ≤ j)%nat → is_zero x.
Proof.
  intros Hsz Ht Hsame Hcp [HMlen HMrows] Hmass Hfin.
  assert (positions !! 2 = Some p) as Href.
  { apply elem_of_map_to_list.
    apply list_elem_of_lookup_2 in Ht. unfold sorted_items in Ht.
    by rewrite merge_sort_Permutation in Ht. }
  assert (t < grid_n)%nat as Htn.
  { apply lookup_lt_Some in Ht. unfold sorted_items in Ht.
    rewrite (Permutation_length (merge_sort_Permutation _ _)) in Ht.
    rewrite length_map_to_list in Ht. lia. }
  destruct (make_gpwg_D_blocks els grid_n positions grid_point p Hsz Href Hcp)
    as (ds & HD & Hlen & Hshape & Hblock).
  specialize (Hfin _ HD).
  destruct (Hblock t 2 p Ht) as (Ti & d & Hd & HTi).
  assert (Forall (λ d : matrix R, length d = 6%nat) ds) as Hsix
    by (eapply Forall_impl; [exact Hshape | by intros ? [? _]]).
  assert (length (concat ds) = (6 * grid_n)%nat) as HDlen
    by (rewrite concat_blocks_length by done; lia).
  assert (Forall (λ row : list R, length row = 6%nat) (concat ds)) as HDrows.
  { apply Forall_concat. eapply Forall_impl; [exact Hshape | by intros ? [_ ?]]. }
  assert (concat ds ≠ []) as HDne by (intros E; rewrite E in HDlen; simpl in HDlen; lia).
  assert (all_entries finite d) as Hdfin.
  { unfold all_entries in Hfin. rewrite Forall_concat in Hfin.
    apply (proj1 (Forall_lookup _ _) Hfin t d Hd). }
  assert (∀ (k j : nat) x, (6 * t ≤ k < 6 * t + 3)%nat → (3 ≤ j)%nat →
            concat ds !! k ≫= (.!! j) = Some x → is_zero x) as Hcoupling.
  { intros k j x Hk Hj Hx.
    replace k with (6 * t + (k - 6 * t))%nat in Hx by lia.
    rewrite (concat_blocks_lookup ds t (k - 6 * t) d) in Hx by (done || lia).
    destruct Hsame as (H1 & H2 & H3).
    apply (rigid_body_block_coupling finite Ti
             (sub (to_f32 p.1.1) p.1.1, sub (to_f32 p.1.2) p.1.2,
              sub (to_f32 p.2) p.2) d laws H1 H2 H3 HTi Hdfin
             (k - 6 * t)%nat j x); [lia | done | done]. }
  destruct (mat_T_spec (concat ds) 6 HDne HDrows) as [HTlen HTcols].
  destruct (dot_shape Mgg (concat ds) 6 HDne HDrows) as (X & HX & HXlen & HXrows).
  { eapply Forall_impl; [exact HMrows|]. intros row Hrow. simpl in *. lia. }
  assert (X ≠ []) as HXne by (intros E; rewrite E in HXlen; simpl in HXlen; lia).
  destruct (mat_T_spec X 6 HXne HXrows) as [HTXlen HTXcols].
  destruct (dot_shape (mat_T (concat ds)) X 6 HXne HXrows) as (Mo & HMo & HMolen & HMorows).
  { apply Forall_forall. intros col Hcol.
    apply list_elem_of_lookup in Hcol as [j Hj].
    destruct (HTcols j col Hj) as [Hl _]. lia. }
  exists (concat ds), Mo. split; [done|]. split.
  { unfold triple. rewrite HX. cbn [mbind result_bind]. exact HMo. }
  split; [split; [lia | done]|].
  assert (∀ (r j : nat) x, (3 ≤ j)%nat → X !! r ≫= (.!! j) = Some x →
            is_zero x) as HXzero.
  { intros r j x Hj Hx.
    destruct (dot_entry _ _ _ _ _ _ HX Hx) as (u & v & Hu & Hv & ->).
    apply (dotprod_is_zero finite laws), absorbed_zip.
    intros k a b Ha Hb.
    destruct (HTcols j v Hv) as [_ Hvget]. rewrite Hvget in Hb.
    pose proof (Hmass r k a) as Hm. rewrite Hu in Hm. simpl in Hm.
    specialize (Hm Ha).
    destruct (decide _) as [[Hr Hk]|_] in Hm.
    - right. split; [done|]. by apply (Hcoupling k j b).
    - left. split; [done|]. by apply (entry_Forall finite (concat ds) k j b). }
  intros i j x Hx Hj.
  destruct (dot_entry _ _ _ _ _ _ HMo Hx) as (u & v & Hu & Hv & ->).
  apply (dotprod_is_zero finite laws), absorbed_zip.
  intros k a b Ha Hb.
  destruct (HTcols i u Hu) as [_ Huget]. rewrite Huget in Ha.
  destruct (HTXcols j v Hv) as [_ Hvget]. rewrite Hvget in Hb.
  right. split; [by apply (entry_Forall finite (concat ds) k i a)|].
  by apply (HXzero k j b).
Qed.
End ReducedMass.

Section PrincipalAxes.
Context {R : Type} `{Float64 R}.
Variable finite : R → Prop.
Hypothesis laws : ZeroAbsorbing R finite.
Variable eigh : matrix R → option (vector R * matrix R).

Ltac zero_tac :=
  lazymatch goal with
  | |- is_zero (dotprod _ _) =>
      apply (dotprod_is_zero finite laws); cbn [zip zip_with];
      repeat (apply Forall_cons_2;
              [first [left; split; cbn [fst snd]; [zero_tac | fin_tac]
                     | right; split; cbn [fst snd]; [fin_tac | zero_tac]]|]);
      apply Forall_nil_2
  | |- is_zero zero => apply (za_zero R finite laws)
  | |- is_zero (add _ _) => apply (za_add R finite laws); zero_tac
  | |- is_zero (sub _ _) => apply (za_sub R finite laws); zero_tac
  | |- is_zero (neg _) => apply (za_neg R finite laws); zero_tac
  | |- is_zero (to_f32 _) => apply (za_to_f32 R finite laws); zero_tac
  | |- is_zero (nan_to_num _) => apply (za_nan_to_num R finite laws); zero_tac
  | |- is_zero (pow2 _) => unfold pow2; zero_tac
  | |- is_zero (mul _ _) =>
      first [apply (za_mul_l R finite laws); [zero_tac | fin_tac]
            | apply (za_mul_r R finite laws); [fin_tac | zero_tac]]
  | |- is_zero (div _ _) =>
      apply (za_div R finite laws); [zero_tac | fin_tac | assumption]
  | |- is_zero _ => assumption
  end
with fin_tac :=
  first [assumption | apply (za_finite R finite laws); zero_tac].

Ltac split_entries Hall :=
  unfold all_entries in Hall;
  repeat match goal with
         | Hf : Forall _ (_ :: _) |- _ => apply Forall_cons in Hf as [? Hf]
         end.

Lemma triple3_zero (S_ B : matrix R) :
  is_square 3 S_ → all_entries finite S_ →
  is_square 3 B → all_entries is_zero B →
  ∃ M, triple S_ B = Ok M ∧ is_square 3 M ∧ all_entries is_zero M.
Proof.
  intros (a & b & c & d & e & f & g & h & i & ->)%square3_inv HS
         (a' & b' & c' & d' & e' & f' & g' & h' & i' & ->)%square3_inv HB.
  split_entries HS. split_entries HB.
  unfold triple, dot. simpl. eexists. split; [reflexivity|].
  split; [split; [reflexivity | repeat constructor]|].
  unfold all_entries.
  repeat (apply Forall_cons_2;
          [repeat (apply Forall_cons_2; [zero_tac|]); apply Forall_nil_2|]).
  apply Forall_nil_2.
Qed.

Lemma cg_row_zero (a b c M : R) :
  is_zero a → is_zero b → is_zero c →
  ∃ x y z,
    (if negb (feqb M zero) then idiv_row [a; b; c] M else [a; b; c])
      = [x; y; z] ∧
    (finite M → is_zero x ∧ is_zero y ∧ is_zero z).
Proof.
  intros Ha Hb Hc. destruct (feqb M zero) eqn:HM; simpl.
  - by exists a, b, c.
  - eexists _, _, _. split; [reflexivity|]. intros HfM.
    split_and!; zero_tac.
Qed.

Lemma square6_inv (M : matrix R) :
  is_square 6 M →
  ∃ r0 r1 r2 r3 r4 r5, M = [r0; r1; r2; r3; r4; r5] ∧
    Forall (λ row, ∃ a b c d e f, row = [a; b; c; d; e; f])
      [r0; r1; r2; r3; r4; r5].
Proof.
  intros [Hlen Hrows].
  destruct M as [|r0 [|r1 [|r2 [|r3 [|r4 [|r5 [|r6 M]]]]]]]; try done.
  exists r0, r1, r2, r3, r4, r5. split; [done|].
  eapply Forall_impl; [exact Hrows|]. intros row Hrow. simpl in Hrow.
  destruct row as [|a [|b [|c [|d [|e [|f [|g row]]]]]]]; try done.
  by exists a, b, c, d, e, f.
Qed.

(** The principal-axis part of [make_gpwg] on a reduced mass matrix
    whose rotation columns are zero. *)
Lemma make_gpwg_zero_coupling (Mo : matrix R) (omega : vector R)
    (S_ : matrix R) :
  is_square 6 Mo →
  (∀ (i j : nat) x, Mo !! i ≫= (.!! j) = Some x → (3 ≤ j)%nat → is_zero x) →
  eigh (block3 Mo 0 0) = Some (omega, S_) →
  is_square 3 S_ → all_entries finite S_ →
  ∃ gpw,
    make_gpwg eigh Mo = Ok gpw ∧
    is_square 3 (gpw_cg gpw) ∧ is_square 3 (gpw_IS gpw) ∧
    (Forall finite (gpw_mass gpw) →
       all_entries is_zero (gpw_cg gpw) ∧ all_entries is_zero (gpw_IS gpw)).
Proof.
  intros HMo Hzero Heigh HS HSfin.
  destruct (square6_inv Mo HMo) as (r0 & r1 & r2 & r3 & r4 & r5 & -> & Hrows).
  repeat match goal with
         | Hf : Forall _ (_ :: _) |- _ => apply Forall_cons in Hf as [? Hf]
         end.
  repeat match goal with
         | Hr : ∃ a b c d e f, _ = _ |- _ =>
             destruct Hr as (? & ? & ? & ? & ? & ? & ->)
         end.
  match goal with
  | |- ∃ gpw, make_gpwg eigh ?M = _ ∧ _ => remember M as Mo eqn:EMo in *
  end.
  destruct (triple_square3 S_ (block3 Mo 0 0) HS)
    as (Mt & Mx & My & Mz & HMt & HMx & HMy & HMz).
  { subst. split; [reflexivity | repeat constructor]. }
  destruct (triple3_zero S_ (block3 Mo 0 3) HS HSfin)
    as (Mtr & HMtr & HMtr3 & HMtrz).
  { subst. split; [reflexivity | repeat constructor]. }
  { subst. unfold all_entries, block3. simpl.
    repeat first [apply Forall_nil_2 | apply Forall_cons_2].
    all: first [ (eapply (Hzero 0%nat 3%nat); [reflexivity | lia]) | (eapply (Hzero 0%nat 4%nat); [reflexivity | lia])
               | (eapply (Hzero 0%nat 5%nat); [reflexivity | lia]) | (eapply (Hzero 1%nat 3%nat); [reflexivity | lia])
               | (eapply (Hzero 1%nat 4%nat); [reflexivity | lia]) | (eapply (Hzero 1%nat 5%nat); [reflexivity | lia])
               | (eapply (Hzero 2%nat 3%nat); [reflexivity | lia]) | (eapply (Hzero 2%nat 4%nat); [reflexivity | lia])
               | (eapply (Hzero 2%nat 5%nat); [reflexivity | lia]) ]. }
  destruct (triple3_zero S_ (block3 Mo 3 3) HS HSfin)
    as (Mr & HMr & HMr3 & HMrz).
  { subst. split; [reflexivity | repeat constructor]. }
  { subst. unfold all_entries, block3. simpl.
    repeat first [apply Forall_nil_2 | apply Forall_cons_2].
    all: first [ (eapply (Hzero 3%nat 3%nat); [reflexivity | lia]) | (eapply (Hzero 3%nat 4%nat); [reflexivity | lia])
               | (eapply (Hzero 3%nat 5%nat); [reflexivity | lia]) | (eapply (Hzero 4%nat 3%nat); [reflexivity | lia])
               | (eapply (Hzero 4%nat 4%nat); [reflexivity | lia]) | (eapply (Hzero 4%nat 5%nat); [reflexivity | lia])
               | (eapply (Hzero 5%nat 3%nat); [reflexivity | lia]) | (eapply (Hzero 5%nat 4%nat); [reflexivity | lia])
               | (eapply (Hzero 5%nat 5%nat); [reflexivity | lia]) ]. }
  unfold make_gpwg. rewrite Heigh. cbn [from_option mbind result_bind].
  rewrite HMt. cbn [mbind result_bind].
  rewrite HMtr. cbn [mbind result_bind].
  rewrite HMr. cbn [mbind result_bind].
  rewrite HMx, HMy, HMz. cbn [mbind result_bind].
  destruct (square3_inv Mtr HMtr3)
    as (t00 & t01 & t02 & t10 & t11 & t12 & t20 & t21 & t22 & ->).
  destruct (square3_inv Mr HMr3)
    as (q00 & q01 & q02 & q10 & q11 & q12 & q20 & q21 & q22 & ->).
  split_entries HMtrz. split_entries HMrz.
  cbn [getitem2 getitem from_option lookup list_lookup mbind result_bind
       option_bind].
  destruct (cg_row_zero (to_f32 t00) (to_f32 (neg t02)) (to_f32 t01) Mx)
    as (xx & yx & zx & -> & Hrow0); [zero_tac..|].
  destruct (cg_row_zero (to_f32 t12) (to_f32 t11) (to_f32 (neg t10)) My)
    as (xy & yy & zy & -> & Hrow1); [zero_tac..|].
  destruct (cg_row_zero (to_f32 (neg t21)) (to_f32 t20) (to_f32 t22) Mz)
    as (xz & yz & zz & -> & Hrow2); [zero_tac..|].
  cbn [getitem2 getitem from_option lookup list_lookup mbind result_bind
       option_bind].
  eexists. split; [reflexivity|]. cbn [gpw_cg gpw_IS gpw_mass].
  split; [split; [reflexivity | repeat constructor]|].
  split; [split; [reflexivity | repeat constructor]|].
  intros Hmass.
  apply Forall_cons in Hmass as [HfX Hmass].
  apply Forall_cons in Hmass as [HfY Hmass].
  apply Forall_cons in Hmass as [HfZ _].
  destruct (Hrow0 HfX) as (? & ? & ?).
  destruct (Hrow1 HfY) as (? & ? & ?).
  destruct (Hrow2 HfZ) as (? & ? & ?).
  split.
  - unfold all_entries. by repeat constructor.
  - unfold all_entries. cbn [fmap list_fmap].
    repeat (apply Forall_cons_2;
            [repeat (apply Forall_cons_2; [zero_tac|]); apply Forall_nil_2|]).
    apply Forall_nil_2.
Qed.
End PrincipalAxes.

Section GpwgClaim.
Context {R : Type} `{Float64 R}.
Variable eigh : matrix R → option (vector R * matrix R).
Variable eig : matrix R → option (vector R * matrix R).

End GpwgClaim.

Lemma point_mass_Mgg_spec {R} `{Float64 R} (finite : R → Prop) (n t : nat)
    (m : R) :
  ZeroAbsorbing R finite → finite m →
  is_square (6 * n) (point_mass_Mgg n t m) ∧
  point_mass_at finite t (point_mass_Mgg n t m).
Proof.
  intros laws Hm. unfold point_mass_Mgg.
  generalize (6 * n)%nat. intros N. split.
  - split; [by rewrite length_fmap, length_seq|].
    apply Forall_fmap, Forall_true. intros r. simpl.
    by rewrite length_fmap, length_seq.
  - intros r k x Hx. rewrite list_lookup_fmap in Hx.
    destruct (seq 0 N !! r) as [r'|] eqn:Hr; [|done].
    apply lookup_seq in Hr as [-> _]. cbn [fmap option_fmap option_map
      mbind option_bind] in Hx.
    rewrite list_lookup_fmap in Hx.
    destruct (seq 0 N !! k) as [k'|] eqn:Hk; [|done].
    apply lookup_seq in Hk as [-> _]. cbn [fmap option_fmap option_map] in Hx.
    rewrite !Nat.add_0_l in Hx.
    destruct (decide (r = k ∧ _)) as [[-> Hr]|Hne] in Hx; injection Hx as <-.
    + by rewrite decide_True by done.
    + destruct (decide _); [by apply (za_finite R finite laws),
                              (za_zero R finite laws)
                           | apply (za_zero R finite laws)].
Qed.



(** The reference point is grid point 2 also when another grid point is
    requested: with the point mass at grid point 1 and [grid_point = 1],
    in binary64, the table names reference point 2 and [cg] holds the
    offset of grid point 1 from grid point 2, not zeros. *)
Remark make_gpwg_requested_point_ignored :
  (λ w, (gpw_reference_point w, gpw_cg (gpw_principal w))) <$>
    Solver_make_gpwg b64_eigh b64_eigh b64_two_grids 2 b64_positions 1
      (point_mass_Mgg 2 0 (b64_of_Z 3))
  = Ok (2, [[zero; neg b64_quarter; zero];
            [b64_half; zero; neg zero];
            [b64_half; neg b64_quarter; zero]]).
Proof. vm_compute. reflexivity. Qed.

(** ** SOL 103 driver *)

Lemma load_name_ndofs {V} (frame : gmap string V) (gv : string → V) :
  load_name run_sol_103_locals frame gv "ndofs" = Raise (NameError "ndofs").
Proof.
  unfold load_name.
  rewrite decide_False
    by (apply (bool_decide_eq_false_1 _); vm_compute; reflexivity).
  rewrite decide_False; [done|].
  intros [Hin|Hin]; revert Hin;
    apply (bool_decide_eq_false_1 _); vm_compute; reflexivity.
Qed.

(** C4, as the code has it.  A SOL 103 case without a METHOD entry never
    reaches the partition or the eigen-solve: [run_sol_103] evaluates the
    name [ndofs], which nothing binds, and raises [NameError] with the
    solver state untouched, whatever its collaborators would return. *)
Theorem run_sol_103_NameError {R} `{Float64 R}
    (method_block : Solver R → Model → result unit)
    (get_Mgg : Solver R → Model → value103 → result (matrix R) * Solver R)
    (setup_sol_101 :
       Solver R → Model → result (matrix R * vector R * Z) * Solver R)
    (solve_sol_103 :
       Solver R → matrix R → matrix R → result (vector R * vector R))
    (s : Solver R) (model : Model) (wtmass : R) :
  sol model = 103 → has_METHOD model = false →
  run_sol_103 method_block get_Mgg setup_sol_101 solve_sol_103 s model wtmass
    = (Raise (NameError "ndofs"), s).
Proof.
  intros Hsol Hmethod. unfold run_sol_103.
  rewrite decide_False by (intros Hne; by apply Hne).
  rewrite Hmethod. by rewrite load_name_ndofs.
Qed.

Lemma run_sol_103_NameError_witness :
  Q_solve_sol_103 init_solver [[4]]%Q [[2]]%Q = Ok ([2]%Q, [1]%Q) ∧
  run_sol_103 Q_method_block Q_get_Mgg Q_setup_sol_101 Q_solve_sol_103
    init_solver spring_mass_model 1%Q
    = (Raise (NameError "ndofs"), init_solver).
Proof.
  split; [reflexivity|].
  apply (run_sol_103_NameError Q_method_block Q_get_Mgg Q_setup_sol_101
           Q_solve_sol_103 init_solver spring_mass_model 1%Q);
    reflexivity.
Defined.

(** ** Permanent constraints of the GRID card *)

Lemma digits_upto_fuel (f1 f2 : nat) (p : Z) :
  (Z.to_nat p ≤ f1)%nat → (Z.to_nat p ≤ f2)%nat →
  digits_upto f1 p = digits_upto f2 p.
Proof.
  revert f2 p. induction f1 as [|f1 IH]; intros [|f2] p H1 H2; simpl;
    try reflexivity.
  - destruct (decide (p > 0)); [lia | reflexivity].
  - destruct (decide (p > 0)); [lia | reflexivity].
  - destruct (decide (p > 0)) as [Hp|]; [|reflexivity].
    assert (p `div` 10 < p) by (apply Z.div_lt; lia).
    assert (0 ≤ p `div` 10) by (apply Z.div_pos; lia).
    f_equal. apply IH; lia.
Qed.

(** [ps_digits] is the decimal expansion: the digits are in [0, 9] and
    evaluate back to the number. *)
Lemma ps_digits_value (p : Z) :
  0 ≤ p →
  Forall (λ c, 0 ≤ c ≤ 9) (ps_digits p) ∧
  foldr (λ c acc, c + 10 * acc) 0 (ps_digits p) = p.
Proof.
  unfold ps_digits. generalize (Nat.le_refl (Z.to_nat p)).
  generalize (Z.to_nat p) at 2 3 4 as fuel.
  intros fuel. revert p. induction fuel as [|fuel IH]; intros p Hf Hp.
  - simpl. split; [constructor | lia].
  - simpl. destruct (decide (p > 0)) as [Hpos|]; [|split; [constructor | simpl; lia]].
    assert (p `div` 10 < p) by (apply Z.div_lt; lia).
    assert (0 ≤ p `div` 10) by (apply Z.div_pos; lia).
    destruct (IH (p `div` 10)) as [Hd Hv]; [lia | lia |].
    split.
    + constructor; [|done]. pose proof (Z.mod_pos_bound p 10). lia.
    + simpl. rewrite Hv. pose proof (Z.div_mod p 10). lia.
Qed.

Section PsFacts.
Context {R : Type} `{Float64 R}.

Lemma ps_loop_digits (fuel : nat) (i p : Z) (a : list Z) (b : list R) :
  ps_loop fuel i p a b =
    (a ++ ((λ c, i + c - 1) <$> digits_upto fuel p),
     b ++ replicate (length (digits_upto fuel p)) zero).
Proof.
  revert p a b. induction fuel as [|fuel IH]; intros p a b; simpl.
  - by rewrite !app_nil_r.
  - destruct (decide (p > 0)); [|by rewrite !app_nil_r].
    rewrite IH. simpl. by rewrite <- !app_assoc.
Qed.

Lemma grid_step_sets d i (b : BaseSets R) g :
  let b' := (grid_step (d, i, b) g).2 in
  same_but_sg b b' ∧
  iUsg b' = iUsg b ++ ((λ c, i + c - 1) <$> ps_digits (ps g)) ∧
  Usg b' = Usg b ++ replicate (length (ps_digits (ps g))) zero.
Proof.
  unfold grid_step. cbn zeta.
  destruct (decide (ps g > -1)) as [Hps|Hps].
  - rewrite ps_loop_digits. fold (ps_digits (ps g)). cbn [snd].
    rewrite !app_nil_l.
    split; [|split]; [|reflexivity|reflexivity].
    unfold same_but_sg. by destruct b.
  - cbn [snd].
    assert (ps_digits (ps g) = []) as ->.
    { unfold ps_digits. destruct (Z.to_nat (ps g)) eqn:E; [done|]. lia. }
    simpl. rewrite !app_nil_r. split; [|done].
    unfold same_but_sg. by destruct b.
Qed.

Lemma grid_fold_sets gs d i (b : BaseSets R) :
  let b' := (foldl grid_step (d, i, b) gs).2 in
  same_but_sg b b' ∧
  iUsg b' = iUsg b ++ ps_slots i gs ∧
  Usg b' = Usg b ++ replicate (length (ps_slots i gs)) zero.
Proof.
  revert d i b. induction gs as [|g gs IH]; intros d i b.
  - simpl. rewrite !app_nil_r. split; [|done]. unfold same_but_sg. by destruct b.
  - cbn [foldl].
    pose proof (grid_step_sets d i b g) as Hstep.
    destruct (grid_step (d, i, b) g) as [[d1 i1] b1] eqn:Hst.
    assert (i1 = i + 6) as ->.
    { unfold grid_step in Hst. by injection Hst as _ <- _. }
    cbn [snd] in Hstep. destruct Hstep as (Hsame & Hi & Hu).
    destruct (IH d1 (i + 6) b1) as (Hsame' & Hi' & Hu'). cbn zeta in *.
    set (b2 := (foldl grid_step (d1, i + 6, b1) gs).2) in *.
    split; [|split].
    + unfold same_but_sg in *. rewrite Hsame', Hsame. by destruct b.
    + rewrite Hi', Hi. simpl. by rewrite <- app_assoc.
    + rewrite Hu', Hu. simpl. rewrite length_app, length_fmap, replicate_add.
      by rewrite <- app_assoc.
Qed.
End PsFacts.

Section IndexSlotFacts.
Context {R : Type} `{Float64 R}.

(** The slot of component [c] of the k-th grid point. *)
Lemma index_grid_slot (model : Model) (k : nat) g (c : Z) :
  NoDup ((node_id <$> grid model) ++ spoint model) →
  grid model !! k = Some g → 1 ≤ c ≤ 6 →
  foldl ins ∅ (zip (dof_keys model) (seqZ 0 (ndofs_of model)))
    !! (node_id g, c) = Some (6 * Z.of_nat k + c - 1).
Proof.
  intros Hnd Hg Hc.
  pose proof (NoDup_dof_keys model Hnd) as Hk.
  rewrite <- (length_dof_keys model).
  apply index_lookup; [done|].
  exists (6 * k + Z.to_nat (c - 1))%nat. split; [|lia].
  unfold dof_keys. fold (grid_keys (grid model)).
  rewrite lookup_app_l.
  - by apply grid_keys_lookup.
  - rewrite length_grid_keys. apply lookup_lt_Some in Hg. lia.
Qed.

End IndexSlotFacts.

Section PsTheorems.
Context {R : Type} `{Float64 R}.

(** The state the indexer leaves behind. *)
Lemma build_nid_component_to_id_state (s : Solver R) (model : Model) :
  let s' := (build_nid_component_to_id s model).2 in
  same_but_sg (base s) (base s') ∧
  iUsg (base s') = iUsg (base s) ++ ps_slots 0 (grid model) ∧
  Usg (base s') =
    Usg (base s) ++ replicate (length (ps_slots 0 (grid model))) zero ∧
  derived s' = derived s ∧ nidComponentToID s' = nidComponentToID s ∧
  IDtoNidComponents s' = IDtoNidComponents s ∧ f06_file s' = f06_file s ∧
  (ndofs_of model > 0 →
   mp_index s' =
     Z.of_nat (length (grid model)) + Z.of_nat (length (spoint model))).
Proof.
  unfold build_nid_component_to_id.
  assert ((if decide (length (grid model) ≠ 0%nat)
           then py_eq (PySet (list_to_set (cd <$> grid model))) (PyInt 0)
           else false) = false) as -> by (by destruct (decide _)).
  pose proof (grid_fold_sets (grid model) ∅ 0 (base s)) as Hsets.
  destruct (grid_fold (grid model) ∅ 0 (base s)) as [b' Hg].
  rewrite Hg in Hsets |- *. cbn [snd] in Hsets.
  destruct Hsets as (Hsame & Hi & Hu).
  set (sp := merge_sort Z.le (spoint model)).
  assert (length sp = length (spoint model)) as Hlen
    by apply Permutation_length, merge_sort_Permutation.
  match goal with
  | |- context [if decide (length (spoint model) ≠ 0%nat) then ?a else ?b] =>
      assert (∃ d, (if decide (length (spoint model) ≠ 0%nat) then a else b) =
                   (d, ndofs_of model)) as [d ->]
  end.
  { destruct (decide (length (spoint model) ≠ 0%nat)) as [Hne|He].
    - rewrite spoint_fold. eexists. f_equal. unfold ndofs_of. lia.
    - eexists. f_equal. unfold ndofs_of. lia. }
  destruct (decide (ndofs_of model > 0)); cbn [snd base with_base with_mp_index
    derived nidComponentToID IDtoNidComponents f06_file mp_index];
    repeat split; try done.
Qed.

Lemma ps_slots_keys (d : gmap (Z * Z) Z) (gs : list GridPoint) (k0 : Z) :
  (∀ (k : nat) g c, gs !! k = Some g → 1 ≤ c ≤ 6 →
     d !! (node_id g, c) = Some (6 * (k0 + Z.of_nat k) + c - 1)) →
  valid_ps gs →
  Forall2 (λ j key, d !! key = Some j) (ps_slots (6 * k0) gs) (ps_keys gs).
Proof.
  revert k0. induction gs as [|g gs IH]; intros k0 Hd Hv.
  - constructor.
  - unfold ps_keys. rewrite bind_cons. fold (ps_keys gs). cbn [ps_slots].
    apply Forall_cons in Hv as [Hg Hv].
    apply Forall2_app.
    + apply Forall2_fmap, Forall_Forall2_diag.
      eapply Forall_impl; [exact Hg|]. intros c Hc. cbn.
      rewrite (Hd 0%nat g c eq_refl Hc). f_equal. lia.
    + replace (6 * k0 + 6) with (6 * (k0 + 1)) by lia.
      apply IH; [|done]. intros k g' c Hk Hc.
      rewrite (Hd (S k) g' c Hk Hc). f_equal. lia.
Qed.

(** X1. The PS field of a GRID card becomes single-point constraints on
    the DOF slots of that grid point. *)
Theorem build_nid_component_to_id_ps (s : Solver R) (model : Model) :
  NoDup ((node_id <$> grid model) ++ spoint model) →
  grid model ≠ [] ∨ spoint model ≠ [] →
  valid_ps (grid model) →
  ∃ d N s' new,
    build_nid_component_to_id s model = (Ok (d, N), s') ∧
    iUsg (base s') = iUsg (base s) ++ new ∧
    Forall2 (λ j key, d !! key = Some j) new (ps_keys (grid model)) ∧
    Usg (base s') = Usg (base s) ++ replicate (length new) zero ∧
    same_but_sg (base s) (base s') ∧
    mp_index s' =
      Z.of_nat (length (grid model)) + Z.of_nat (length (spoint model)).
Proof.
  intros Hnd Hne Hv.
  pose proof (build_nid_component_to_id_state s model) as Hst.
  destruct (build_nid_component_to_id_spec s model) as [s' Hb].
  assert (ndofs_of model > 0) as Hpos.
  { unfold ndofs_of. destruct Hne as [Hg|Hs].
    - destruct (grid model); [done | simpl; lia].
    - destruct (spoint model); [done | simpl; lia]. }
  rewrite decide_True in Hb by done.
  rewrite Hb in Hst |- *. cbn [snd] in Hst.
  destruct Hst as (Hsame & Hi & Hu & _ & _ & _ & _ & Hmp).
  eexists _, _, s', (ps_slots 0 (grid model)).
  split; [reflexivity|]. split; [done|]. split; [|by auto].
  change 0 with (6 * 0) at 2. apply ps_slots_keys; [|done].
  intros k g c Hg Hc. rewrite (index_grid_slot model k g c) by done.
  f_equal; lia.
Qed.

Lemma ps_digits_pos (p : Z) : p > 0 → ps_digits p ≠ [].
Proof.
  intros Hp. unfold ps_digits.
  destruct (Z.to_nat p) eqn:E; [lia|]. simpl. by rewrite decide_True.
Qed.

Lemma ps_slots_nonempty (i : Z) (gs : list GridPoint) :
  Exists (λ g, ps g > 0) gs → ps_slots i gs ≠ [].
Proof.
  intros Hex. revert i. induction Hex as [g gs Hg|g gs _ IH]; intros i; simpl.
  - pose proof (ps_digits_pos _ Hg). destruct (ps_digits (ps g)); done.
  - specialize (IH (i + 6)). intros [_ ?]%app_eq_nil. done.
Qed.

(** X2. The indexer appends to [self.iUsg] and never resets it: run
    again on the same model (one run per subcase) it returns the same
    index, and every PS constraint is then listed twice. *)
Theorem build_nid_component_to_id_twice (s : Solver R) (model : Model) :
  Exists (λ g, ps g > 0) (grid model) →
  let r1 := build_nid_component_to_id s model in
  let r2 := build_nid_component_to_id r1.2 model in
  ∃ new, new ≠ [] ∧
    r2.1 = r1.1 ∧
    iUsg (base r1.2) = iUsg (base s) ++ new ∧
    iUsg (base r2.2) = iUsg (base s) ++ new ++ new ∧
    length (Usg (base r2.2)) =
      (length (Usg (base s)) + 2 * length new)%nat ∧
    ¬ NoDup (iUsg (base r2.2)).
Proof.
  intros Hex r1 r2.
  pose proof (build_nid_component_to_id_state s model) as H1.
  pose proof (build_nid_component_to_id_state r1.2 model) as H2.
  fold r1 in H1. fold r2 in H2.
  destruct H1 as (_ & Hi1 & Hu1 & _). destruct H2 as (_ & Hi2 & Hu2 & _).
  pose proof (ps_slots_nonempty 0 _ Hex) as Hne.
  exists (ps_slots 0 (grid model)). split; [done|].
  split; [|split; [done|split; [|split]]].
  - destruct (build_nid_component_to_id_spec s model) as [s1 Hb1].
    destruct (build_nid_component_to_id_spec r1.2 model) as [s2 Hb2].
    subst r2. rewrite Hb2. subst r1. rewrite Hb1. reflexivity.
  - rewrite Hi2, Hi1. by rewrite <- app_assoc.
  - rewrite Hu2, Hu1, !length_app, !length_replicate. lia.
  - rewrite Hi2, Hi1, <- app_assoc. intros Hnd.
    apply NoDup_app in Hnd as (_ & _ & Hnd).
    apply NoDup_app in Hnd as (_ & Hdisj & _).
    destruct (ps_slots 0 (grid model)) as [|x l]; [done|].
    apply (Hdisj x); left.
Qed.
End PsTheorems.

Lemma build_nid_component_to_id_ps_witness :
  ∃ d N s' new,
    build_nid_component_to_id (R := Q) init_solver two_grids_two_spoints =
      (Ok (d, N), s') ∧
    iUsg (base s') = iUsg (base (init_solver (R := Q))) ++ new ∧
    Forall2 (λ j key, d !! key = Some j) new
      (ps_keys (grid two_grids_two_spoints)) ∧
    Usg (base s') =
      Usg (base (init_solver (R := Q))) ++ replicate (length new) zero ∧
    same_but_sg (base (init_solver (R := Q))) (base s') ∧
    mp_index s' = 4.
Proof.
  apply (build_nid_component_to_id_ps (R := Q) init_solver two_grids_two_spoints).
  - apply NoDup_ListNoDup. repeat constructor; simpl; intuition lia.
  - left. discriminate.
  - repeat constructor; vm_compute; discriminate.
Defined.

Lemma build_nid_component_to_id_twice_witness :
  let r1 := build_nid_component_to_id (R := Q) init_solver two_grids_two_spoints in
  let r2 := build_nid_component_to_id r1.2 two_grids_two_spoints in
  ∃ new, new ≠ [] ∧
    r2.1 = r1.1 ∧
    iUsg (base r1.2) = iUsg (base (init_solver (R := Q))) ++ new ∧
    iUsg (base r2.2) = iUsg (base (init_solver (R := Q))) ++ new ++ new ∧
    length (Usg (base r2.2)) =
      (length (Usg (base (init_solver (R := Q)))) + 2 * length new)%nat ∧
    ¬ NoDup (iUsg (base r2.2)).
Proof.
  apply (build_nid_component_to_id_twice (R := Q) init_solver two_grids_two_spoints).
  apply Exists_cons_hd. simpl. lia.
Defined.
(** ** Single-point constraints from SPC cards *)

Lemma for_each_Ok_elem {A S} (body : S → A → result S) (l : list A) (s s' : S) :
  for_each body l s = Ok s' →
  ∀ x, x ∈ l → ∃ s0 s1, body s0 x = Ok s1.
Proof.
  revert s. induction l as [|y l IH]; intros s Hl x Hx.
  - by apply elem_of_nil in Hx.
  - simpl in Hl. destruct (body s y) as [s1|e] eqn:Hy; [|done]. simpl in Hl.
    apply elem_of_cons in Hx as [->|Hx]; [eauto|].
    by apply (IH s1).
Qed.

Lemma for_each_fmap {A B S} (body : S → B → result S) (f : A → B)
    (l : list A) (s : S) :
  for_each body (f <$> l) s = for_each (λ s x, body s (f x)) l s.
Proof.
  revert s. induction l as [|x l IH]; intros s; [done|].
  simpl. destruct (body s (f x)); [|done]. simpl. apply IH.
Qed.

Lemma py_int_char_Ok (c : Ascii.ascii) :
  (48 ≤ Ascii.nat_of_ascii c ≤ 57)%nat →
  py_int_char c = Ok (Z.of_nat (Ascii.nat_of_ascii c) - 48).
Proof. intros Hc. unfold py_int_char. by rewrite decide_True. Qed.

Lemma py_int_char_Ok_inv (c : Ascii.ascii) z :
  py_int_char c = Ok z → (48 ≤ Ascii.nat_of_ascii c ≤ 57)%nat.
Proof. unfold py_int_char. cbn zeta. by destruct (decide _). Qed.

Section SpcFacts.
Context {R : Type} `{Float64 R}.
Variable get_SPCx_ids : result (list Z).
Variable model_SPC : Z → result (list SpcCard).

Implicit Types (d : gmap (Z * Z) Z) (sb : list Z * list R).

Lemma constrain_eq d sb (key : Z * Z) :
  constrain d sb key =
    match d !! key with
    | None => Raise KeyError
    | Some i =>
        if decide (i ∈ sb.1) then Ok sb else Ok (sb.1 ++ [i], sb.2 ++ [zero])
    end.
Proof. unfold constrain. by destruct (d !! key). Qed.

Lemma constrain_keys_spec d (keys : list (Z * Z)) sb sb' :
  for_each (constrain d) keys sb = Ok sb' →
  ∃ new,
    sb'.1 = sb.1 ++ new ∧ sb'.2 = sb.2 ++ replicate (length new) zero ∧
    NoDup new ∧ (∀ i, i ∈ new → i ∉ sb.1) ∧
    (∀ i, i ∈ sb'.1 ↔
       i ∈ sb.1 ∨ ∃ key, key ∈ keys ∧ d !! key = Some i) ∧
    Forall (λ key, is_Some (d !! key)) keys.
Proof.
  revert sb. induction keys as [|key keys IH]; intros sb Hl.
  - injection Hl as <-. exists []. rewrite !app_nil_r.
    split_and!; try done.
    + apply NoDup_nil_2.
    + intros i Hi. by apply elem_of_nil in Hi.
    + intros i. split; [by left|]. intros [Hi|(k & Hk & _)]; [done|].
      by apply elem_of_nil in Hk.
  - simpl in Hl. rewrite constrain_eq in Hl.
    destruct (d !! key) as [i|] eqn:Hkey; simpl in Hl; [|done].
    destruct (decide (i ∈ sb.1)) as [Hin|Hnin]; simpl in Hl.
    + destruct (IH _ Hl) as (new & H1 & H2 & Hnd & Hdisj & Hmem & Hall).
      exists new. repeat split; try done.
      * intros Hi. apply Hmem in Hi as [Hi|(k & Hk & Hi)]; [by left|].
        right. exists k. split; [by right | done].
      * intros [Hi|(k & Hk & Hi)]; apply Hmem; [by left|].
        apply elem_of_cons in Hk as [->|Hk]; [|eauto].
        left. congruence.
      * constructor; [by rewrite Hkey | done].
    + destruct (IH _ Hl) as (new & H1 & H2 & Hnd & Hdisj & Hmem & Hall).
      cbn [fst snd] in *.
      exists (i :: new). repeat split.
      * by rewrite H1, <- app_assoc.
      * rewrite H2, <- app_assoc. reflexivity.
      * constructor; [|done]. intros Hi. apply (Hdisj i Hi).
        apply elem_of_app. right. left.
      * intros j [->|Hj]%elem_of_cons; [done|].
        intros Hj'. apply (Hdisj j Hj). apply elem_of_app. by left.
      * intros Hi. apply Hmem in Hi as [Hi|(k & Hk & Hi)].
        -- apply elem_of_app in Hi as [Hi|Hi]; [by left|].
           apply list_elem_of_singleton in Hi as ->.
           right. exists key. split; [left | done].
        -- right. exists k. split; [by right | done].
      * intros [Hi|(k & Hk & Hi)]; apply Hmem.
        -- left. apply elem_of_app. by left.
        -- apply elem_of_cons in Hk as [->|Hk]; [|eauto].
           left. apply elem_of_app. right.
           apply list_elem_of_singleton. congruence.
      * constructor; [by rewrite Hkey | done].
Qed.

Lemma constrain_keys_fixed d (keys : list (Z * Z)) sb :
  (∀ key, key ∈ keys → ∃ i, d !! key = Some i ∧ i ∈ sb.1) →
  for_each (constrain d) keys sb = Ok sb.
Proof.
  induction keys as [|key keys IH]; intros Hk; [done|].
  simpl. rewrite constrain_eq.
  destruct (Hk key) as (i & -> & Hi); [left|]. simpl.
  rewrite decide_True by done. simpl. apply IH.
  intros k Hin. apply Hk. by right.
Qed.

Lemma apply_spc_card_supported d sb (spc : SpcCard) :
  spc_card_supported spc →
  apply_spc_card d sb spc = for_each (constrain d) (spc_card_keys spc) sb.
Proof.
  destruct spc as [components|components|type]; simpl; [| |done].
  - intros Hsup. rewrite <- for_each_bind. apply for_each_ext.
    intros [dof node_ids] Hin sb1.
    pose proof (proj1 (Forall_forall _ _) Hsup _ Hin) as Hdof. simpl in Hdof.
    rewrite <- for_each_bind. apply for_each_ext.
    intros c Hc sb2.
    rewrite py_int_char_Ok by (by apply (proj1 (Forall_forall _ _) Hdof)).
    simpl. by rewrite for_each_fmap.
  - intros _. rewrite for_each_fmap. apply for_each_ext. by intros [dof nid] _ sb1.
Qed.

Lemma apply_spc_card_Ok_supported d sb sb' (spc : SpcCard) :
  apply_spc_card d sb spc = Ok sb' → spc_card_supported spc.
Proof.
  destruct spc as [components|components|type]; simpl; [|done|done].
  intros Hl. apply Forall_forall. intros [dof node_ids] Hin.
  destruct (for_each_Ok_elem _ _ _ _ Hl _ Hin) as (s0 & s1 & Hdof).
  simpl in Hdof. apply Forall_forall. intros c Hc.
  destruct (for_each_Ok_elem _ _ _ _ Hdof _ Hc) as (s2 & s3 & Hchar).
  destruct (py_int_char c) as [z|e] eqn:Hz; [|done].
  by apply py_int_char_Ok_inv in Hz.
Qed.

(** The nested loops of one set are one loop over the keys of its
    cards. *)
Lemma apply_spc_cards_keys d sb sb' (cards : list SpcCard) :
  for_each (apply_spc_card d) cards sb = Ok sb' ↔
  Forall spc_card_supported cards ∧
  for_each (constrain d) (cards ≫= spc_card_keys) sb = Ok sb'.
Proof.
  split.
  - intros Hl.
    assert (Forall spc_card_supported cards) as Hsup.
    { apply Forall_forall. intros spc Hin.
      destruct (for_each_Ok_elem _ _ _ _ Hl _ Hin) as (s0 & s1 & Hc).
      by apply apply_spc_card_Ok_supported in Hc. }
    split; [done|]. rewrite <- for_each_bind, <- Hl.
    symmetry. apply for_each_ext. intros spc Hin sb1.
    apply apply_spc_card_supported. by apply (proj1 (Forall_forall _ _) Hsup).
  - intros [Hsup Hl]. rewrite <- Hl, <- for_each_bind.
    apply for_each_ext. intros spc Hin sb1.
    apply apply_spc_card_supported. by apply (proj1 (Forall_forall _ _) Hsup).
Qed.

(** The sets a list of ids names, when [model.SPC] answers for each. *)
Lemma apply_spc_sets_keys d sb sb' (ids : list param_value) :
  for_each (λ sb spc_id,
     match spc_id with
     | PStr _ => Raise TypeError
     | PNum spc_id =>
         SpcSet ← model_SPC spc_id;
         for_each (apply_spc_card d) SpcSet sb
     end) ids sb = Ok sb' ↔
  ∃ sets : list (list SpcCard),
    Forall2 (λ id set, ∃ z, id = PNum z ∧ model_SPC z = Ok set) ids sets ∧
    Forall spc_card_supported (concat sets) ∧
    for_each (constrain d) (concat sets ≫= spc_card_keys) sb = Ok sb'.
Proof.
  revert sb. induction ids as [|id ids IH]; intros sb.
  - simpl. split.
    + intros [= <-]. exists []. repeat split; constructor.
    + intros (sets & Hs & _ & Hl). apply Forall2_nil_inv_l in Hs as ->. done.
  - cbn [for_each]. split.
    + destruct id as [str|z]; [done|].
      destruct (model_SPC z) as [set|e] eqn:Hset; [|done]. simpl.
      destruct (for_each (apply_spc_card d) set sb) as [sb1|e] eqn:Hcards; [|done].
      simpl. intros Hrest. apply IH in Hrest as (sets & Hs & Hsup & Hl).
      apply apply_spc_cards_keys in Hcards as [Hsup1 Hl1].
      exists (set :: sets). split; [|split].
      * constructor; [eauto | done].
      * simpl. apply Forall_app. done.
      * simpl. rewrite bind_app, for_each_app, Hl1. done.
    + intros (sets & Hs & Hsup & Hl).
      apply Forall2_cons_inv_l in Hs as (set & sets' & (z & -> & Hset) & Hs & ->).
      simpl in Hsup, Hl. apply Forall_app in Hsup as [Hsup1 Hsup].
      rewrite bind_app, for_each_app in Hl.
      destruct (for_each (constrain d) (set ≫= spc_card_keys) sb) as [sb1|e] eqn:Hl1;
        [|done].
      simpl in Hl. rewrite Hset. simpl.
      rewrite (proj2 (apply_spc_cards_keys d sb sb1 set)) by done. simpl.
      apply IH. eauto.
Qed.
End SpcFacts.

Section SpcTheorems.
Context {R : Type} `{Float64 R}.
Variable get_SPCx_ids : result (list Z).
Variable model_SPC : Z → result (list SpcCard).

Lemma apply_SPCs_keys (case : Subcase) (d : gmap (Z * Z) Z) (b b' : BaseSets R) :
  apply_SPCs get_SPCx_ids model_SPC case d b = Ok b' ↔
  ∃ ids sets,
    selected_spc_ids get_SPCx_ids case = Ok ids ∧
    Forall2 (λ id set, ∃ z, id = PNum z ∧ model_SPC z = Ok set) ids sets ∧
    Forall spc_card_supported (concat sets) ∧
    for_each (constrain d) (concat sets ≫= spc_card_keys) (iUsb b, Usb b) =
      Ok (iUsb b', Usb b') ∧
    same_but_sb b b'.
Proof.
  unfold apply_SPCs. fold (selected_spc_ids get_SPCx_ids case). split.
  - destruct (selected_spc_ids get_SPCx_ids case) as [ids|e]; [|done]. simpl.
    match goal with
    | |- context [for_each ?f ids ?s] => destruct (for_each f ids s) as [sb|e] eqn:Hl
    end; [|done].
    simpl. intros [= <-].
    apply (apply_spc_sets_keys model_SPC) in Hl as (sets & Hs & Hsup & Hl).
    exists ids, sets. destruct sb as [il ul]. by repeat split.
  - intros (ids & sets & -> & Hs & Hsup & Hl & Hsame). simpl.
    assert (∃ sets : list (list SpcCard),
      Forall2 (λ id set, ∃ z, id = PNum z ∧ model_SPC z = Ok set) ids sets ∧
      Forall spc_card_supported (concat sets) ∧
      for_each (constrain d) (concat sets ≫= spc_card_keys) (iUsb b, Usb b) =
        Ok (iUsb b', Usb b')) as Hex by eauto.
    apply (apply_spc_sets_keys model_SPC) in Hex. rewrite Hex. simpl.
    by rewrite Hsame.
Qed.

(** X3. What [apply_SPCs] adds to the [sb] set: one entry, with value
    0.0, for every DOF named by a card of the selected sets that is not in
    the set yet, and nothing else. *)
Theorem apply_SPCs_constrains (case : Subcase) (d : gmap (Z * Z) Z)
    (b b' : BaseSets R) :
  apply_SPCs get_SPCx_ids model_SPC case d b = Ok b' →
  ∃ (ids : list param_value) (sets : list (list SpcCard)) (new : list Z),
    selected_spc_ids get_SPCx_ids case = Ok ids ∧
    Forall2 (λ id set, ∃ z, id = PNum z ∧ model_SPC z = Ok set) ids sets ∧
    Forall spc_card_supported (concat sets) ∧
    Forall (λ key, is_Some (d !! key)) (concat sets ≫= spc_card_keys) ∧
    same_but_sb b b' ∧
    iUsb b' = iUsb b ++ new ∧
    Usb b' = Usb b ++ replicate (length new) zero ∧
    NoDup new ∧
    (∀ i, i ∈ new ↔
       (i ∉ iUsb b) ∧
       ∃ key, key ∈ concat sets ≫= spc_card_keys ∧ d !! key = Some i).
Proof.
  intros (ids & sets & Hids & Hs & Hsup & Hl & Hsame)%apply_SPCs_keys.
  apply constrain_keys_spec in Hl as (new & H1 & H2 & Hnd & Hdisj & Hmem & Hall).
  cbn [fst snd] in *.
  exists ids, sets, new. split_and!; try done.
  intros i. split.
  - intros Hi. split; [by apply Hdisj|].
    destruct (proj1 (Hmem i)) as [Hold|Hkey]; [|by apply Hdisj in Hold|done].
    rewrite H1. apply elem_of_app. by right.
  - intros [Hnin Hkey].
    assert (i ∈ iUsb b') as Hi by (apply Hmem; by right).
    rewrite H1 in Hi. by apply elem_of_app in Hi as [Hi|Hi].
Qed.

(** X4. Applying the same SPC sets again changes nothing: the membership
    test [if i not in self.iUsb] makes [apply_SPCs] idempotent. *)
Theorem apply_SPCs_idempotent (case : Subcase) (d : gmap (Z * Z) Z)
    (b b' : BaseSets R) :
  apply_SPCs get_SPCx_ids model_SPC case d b = Ok b' →
  apply_SPCs get_SPCx_ids model_SPC case d b' = Ok b'.
Proof.
  intros (ids & sets & Hids & Hs & Hsup & Hl & Hsame)%apply_SPCs_keys.
  apply apply_SPCs_keys. exists ids, sets. split_and!; try done.
  - apply constrain_keys_spec in Hl as (new & H1 & H2 & Hnd & Hdisj & Hmem & Hall).
    apply constrain_keys_fixed. intros key Hkey.
    destruct (proj1 (Forall_forall _ _) Hall _ Hkey) as [i Hi].
    exists i. split; [done|]. apply Hmem. right. eauto.
  - unfold same_but_sb. by destruct b'.
Qed.
End SpcTheorems.

Lemma apply_SPCs_constrains_witness :
  ∃ (ids : list param_value) (sets : list (list SpcCard)) (new : list Z),
    selected_spc_ids (Raise KeyError) case_spc_mpc = Ok ids ∧
    Forall2 (λ id set, ∃ z, id = PNum z ∧ Q_model_SPC z = Ok set) ids sets ∧
    Forall spc_card_supported (concat sets) ∧
    Forall (λ key, is_Some (index_one_grid !! key))
      (concat sets ≫= spc_card_keys) ∧
    same_but_sb (R := Q) empty_base (set_sb empty_base [0; 1; 2; 3] [0; 0; 0; 0]%Q) ∧
    [0; 1; 2; 3] = [] ++ new ∧
    [0; 0; 0; 0]%Q = [] ++ replicate (length new) zero ∧
    NoDup new ∧
    (∀ i, i ∈ new ↔
       (i ∉ @nil Z) ∧
       ∃ key, key ∈ concat sets ≫= spc_card_keys ∧
              index_one_grid !! key = Some i).
Proof.
  apply (apply_SPCs_constrains (R := Q) (Raise KeyError) Q_model_SPC
           case_spc_mpc index_one_grid empty_base
           (set_sb empty_base [0; 1; 2; 3] [0; 0; 0; 0]%Q)).
  vm_compute. reflexivity.
Defined.

Lemma apply_SPCs_idempotent_witness :
  apply_SPCs (R := Q) (Raise KeyError) Q_model_SPC case_spc_mpc index_one_grid
    (set_sb empty_base [0; 1; 2; 3] [0; 0; 0; 0]%Q) =
  Ok (set_sb empty_base [0; 1; 2; 3] [0; 0; 0; 0]%Q).
Proof.
  apply (apply_SPCs_idempotent (R := Q) (Raise KeyError) Q_model_SPC
           case_spc_mpc index_one_grid empty_base).
  vm_compute. reflexivity.
Defined.

(** ** Multipoint constraints from MPC cards *)

Section MpcFacts.
Context {R : Type} `{Float64 R}.
Variable model_MPC : param_value → result (list (MpcCard R)).

Implicit Types (d : gmap (Z * Z) Z) (U : list R) (iU jU : list Z).

Lemma mpc_term_eq d (i ic : Z) U iU jU (G C : Z) (A : R) :
  mpc_term d i (ic, (U, iU, jU)) (G, C, A) =
    match d !! (G, C) with
    | Some j => Ok (ic + 1, (U ++ [A], iU ++ [i], jU ++ [j]))
    | None => Raise KeyError
    end.
Proof. unfold mpc_term. by destruct (d !! (G, C)). Qed.

Lemma mpc_terms_spec d (i : Z) (terms : list (Z * Z * R)) ic U iU jU st' :
  for_each (mpc_term d i) terms (ic, (U, iU, jU)) = Ok st' →
  ∃ js, Forall2 (term_dof d) js terms ∧
    st' = (ic + Z.of_nat (length terms),
           (U ++ (snd <$> terms), iU ++ replicate (length terms) i, jU ++ js)).
Proof.
  revert ic U iU jU. induction terms as [|[[G C] A] terms IH]; intros ic U iU jU Hl.
  - injection Hl as <-. exists []. split; [constructor|].
    simpl. by rewrite Z.add_0_r, !app_nil_r.
  - cbn [for_each] in Hl. rewrite mpc_term_eq in Hl.
    destruct (d !! (G, C)) as [j|] eqn:Hj; simpl in Hl; [|done].
    apply IH in Hl as (js & Hjs & ->).
    exists (j :: js). split; [by constructor|].
    simpl. rewrite <- !app_assoc. simpl.
    f_equal. lia.
Qed.

Lemma mpc_equations_spec d (mp : Z) (eqs : list (list (Z * Z * R)))
    ic U iU jU st' :
  for_each (λ st constraints,
     for_each (mpc_term d (mp + st.1)) constraints st) eqs (ic, (U, iU, jU)) =
    Ok st' →
  ∃ js, Forall2 (term_dof d) js (concat eqs) ∧
    st' = (ic + Z.of_nat (length (concat eqs)),
           (U ++ (snd <$> concat eqs), iU ++ mpc_rows (mp + ic) eqs, jU ++ js)).
Proof.
  revert ic U iU jU. induction eqs as [|terms eqs IH]; intros ic U iU jU Hl.
  - injection Hl as <-. exists []. split; [constructor|].
    simpl. by rewrite Z.add_0_r, !app_nil_r.
  - cbn [for_each] in Hl. cbn [fst] in Hl.
    destruct (for_each (mpc_term d (mp + ic)) terms (ic, (U, iU, jU)))
      as [st1|e] eqn:Hterms; [|done].
    apply mpc_terms_spec in Hterms as (js1 & Hjs1 & ->). simpl in Hl.
    apply IH in Hl as (js & Hjs & ->).
    exists (js1 ++ js). split; [by apply Forall2_app|].
    simpl. rewrite length_app, fmap_app, <- !app_assoc.
    replace (mp + (ic + Z.of_nat (length terms)))
      with (mp + ic + Z.of_nat (length terms)) by lia.
    f_equal. lia.
Qed.

Lemma mpc_rows_app (row : Z) (e1 e2 : list (list (Z * Z * R))) :
  mpc_rows row (e1 ++ e2) =
    mpc_rows row e1 ++ mpc_rows (row + Z.of_nat (length (concat e1))) e2.
Proof.
  revert row. induction e1 as [|t e1 IH]; intros row; simpl.
  - by rewrite Z.add_0_r.
  - rewrite IH, <- app_assoc, length_app. do 3 f_equal. lia.
Qed.

Lemma mpc_cards_spec d (mp : Z) (mpcs : list (MpcCard R)) ic U iU jU st' :
  for_each (apply_mpc_card d mp) mpcs (ic, (U, iU, jU)) = Ok st' →
  Forall (λ mpc, ∃ constraints, mpc = MPC constraints) mpcs ∧
  ∃ js, Forall2 (term_dof d) js (concat (mpc_equations mpcs)) ∧
    st' = (ic + Z.of_nat (length (concat (mpc_equations mpcs))),
           (U ++ (snd <$> concat (mpc_equations mpcs)),
            iU ++ mpc_rows (mp + ic) (mpc_equations mpcs), jU ++ js)).
Proof.
  revert ic U iU jU. induction mpcs as [|mpc mpcs IH]; intros ic U iU jU Hl.
  - injection Hl as <-. split; [constructor|]. exists []. split; [constructor|].
    simpl. by rewrite Z.add_0_r, !app_nil_r.
  - cbn [for_each] in Hl. destruct mpc as [constraints|type]; [|done].
    cbn [apply_mpc_card] in Hl.
    match type of Hl with
    | context [for_each ?f constraints ?s] =>
        destruct (for_each f constraints s) as [st1|e] eqn:Heqs
    end; [|done].
    apply mpc_equations_spec in Heqs as (js1 & Hjs1 & ->). simpl in Hl.
    apply IH in Hl as (Hall & js & Hjs & ->).
    split; [constructor; eauto|].
    exists (js1 ++ js). unfold mpc_equations. rewrite bind_cons.
    fold (mpc_equations mpcs). rewrite concat_app. split; [by apply Forall2_app|].
    rewrite length_app, fmap_app, mpc_rows_app, <- !app_assoc.
    replace (mp + (ic + Z.of_nat (length (concat constraints))))
      with (mp + ic + Z.of_nat (length (concat constraints))) by lia.
    f_equal. lia.
Qed.

(** X5. Where [apply_MPCs] stores the equations of the selected MPC set:
    the terms of the first equation go to row [2 * mp_index], every later
    equation starts as many rows further as the equations before it have
    terms, the column of a term is the DOF it names, and the three lists
    grow together. *)
Theorem apply_MPCs_rows (case : Subcase) (d : gmap (Z * Z) Z) (s s' : Solver R)
    (mpc_id : param_value) (options : list string) :
  case_params case !! "MPC"%string = Some (mpc_id, options) →
  apply_MPCs model_MPC case d s = Ok s' →
  ∃ mpcs js,
    model_MPC mpc_id = Ok mpcs ∧
    Forall (λ mpc, ∃ constraints, mpc = MPC constraints) mpcs ∧
    let eqs := mpc_equations mpcs in
    iUmp (base s') = iUmp (base s) ++ mpc_rows (2 * mp_index s) eqs ∧
    jUmp (base s') = jUmp (base s) ++ js ∧
    Forall2 (term_dof d) js (concat eqs) ∧
    Ump (base s') = Ump (base s) ++ (snd <$> concat eqs) ∧
    length (mpc_rows (2 * mp_index s) eqs) = length (concat eqs) ∧
    same_but_mp (base s) (base s') ∧
    s' = with_base s (base s').
Proof.
  intros Hcase. unfold apply_MPCs. rewrite Hcase.
  destruct (model_MPC mpc_id) as [mpcs|e]; [|done]. simpl.
  match goal with
  | |- context [for_each ?f mpcs ?s0] =>
      destruct (for_each f mpcs s0) as [st|e] eqn:Hl
  end; [|done].
  simpl. intros [= <-].
  apply mpc_cards_spec in Hl as (Hall & js & Hjs & ->).
  exists mpcs, js. cbn [fst snd base with_base set_mp iUmp jUmp Ump].
  split_and!; try done.
  - do 2 f_equal. lia.
  - apply Forall2_length in Hjs.
    clear. generalize (2 * mp_index s). induction (mpc_equations mpcs) as [|t e IH];
      intros row; [done|].
    simpl. rewrite !length_app, length_replicate, IH. done.
Qed.

(** A case without an MPC entry leaves the solver as it is. *)
Lemma apply_MPCs_no_entry (case : Subcase) (d : gmap (Z * Z) Z) (s : Solver R) :
  case_params case !! "MPC"%string = None →
  apply_MPCs model_MPC case d s = Ok s.
Proof. intros Hcase. unfold apply_MPCs. by rewrite Hcase. Qed.
End MpcFacts.

Lemma apply_MPCs_rows_witness :
  ∃ mpcs js,
    Q_model_MPC (PNum 7) = Ok mpcs ∧
    Forall (λ mpc, ∃ constraints, mpc = MPC constraints) mpcs ∧
    let eqs := mpc_equations mpcs in
    [2; 2; 4; 4; 4] = [] ++ mpc_rows (2 * mp_index solver_one_grid) eqs ∧
    [0; 1; 2; 3; 4] = [] ++ js ∧
    Forall2 (term_dof index_one_grid) js (concat eqs) ∧
    [1; -1; 1; 2; -1]%Q = [] ++ (snd <$> concat eqs) ∧
    length (mpc_rows (2 * mp_index solver_one_grid) eqs) = length (concat eqs) ∧
    same_but_mp (base solver_one_grid)
      (set_mp empty_base [1; -1; 1; 2; -1]%Q [2; 2; 4; 4; 4] [0; 1; 2; 3; 4]) ∧
    with_base solver_one_grid
      (set_mp empty_base [1; -1; 1; 2; -1]%Q [2; 2; 4; 4; 4] [0; 1; 2; 3; 4]) =
    with_base solver_one_grid
      (base (with_base solver_one_grid
         (set_mp empty_base [1; -1; 1; 2; -1]%Q [2; 2; 4; 4; 4] [0; 1; 2; 3; 4]))).
Proof.
  apply (apply_MPCs_rows Q_model_MPC case_spc_mpc index_one_grid solver_one_grid
           (with_base solver_one_grid
              (set_mp empty_base [1; -1; 1; 2; -1]%Q [2; 2; 4; 4; 4] [0; 1; 2; 3; 4]))
           (PNum 7) []).
  - vm_compute. reflexivity.
  - vm_compute. reflexivity.
Defined.

(** ** The s-set when a card repeats a PS constraint *)

Section SsetDuplicates.
Context {R : Type} `{Float64 R}.
Variable get_SPCx_ids : result (list Z).
Variable model_SPC : Z → result (list SpcCard).

Lemma spc_sets_unique (ids : list param_value) (sets1 sets2 : list (list SpcCard)) :
  Forall2 (λ id set, ∃ z, id = PNum z ∧ model_SPC z = Ok set) ids sets1 →
  Forall2 (λ id set, ∃ z, id = PNum z ∧ model_SPC z = Ok set) ids sets2 →
  sets1 = sets2.
Proof.
  intros H1. revert sets2. induction H1 as [|id set ids sets1 (z & -> & Hz) _ IH];
    intros sets2 H2.
  - by apply Forall2_nil_inv_l in H2.
  - apply Forall2_cons_inv_l in H2 as (set' & sets2' & (z' & [= <-] & Hz') & H2 & ->).
    f_equal; [congruence | by apply IH].
Qed.

(** X6. [apply_SPCs] keeps [iUsb] free of repetitions but does not look
    at [iUsg]: when a selected SPC card names a DOF that the PS field of
    its grid point constrains already, the index of that DOF is in both
    lists, and the s-set [iUs = iUsb + iUsg] that [build_dof_sets] forms
    lists it twice. *)
Theorem s_set_repeats_ps_constraint (s : Solver R) (model : Model)
    (case : Subcase) d N s1 (b : BaseSets R) ids sets (key : Z * Z) :
  NoDup ((node_id <$> grid model) ++ spoint model) →
  valid_ps (grid model) →
  build_nid_component_to_id s model = (Ok (d, N), s1) →
  apply_SPCs get_SPCx_ids model_SPC case d (base s1) = Ok b →
  selected_spc_ids get_SPCx_ids case = Ok ids →
  Forall2 (λ id set, ∃ z, id = PNum z ∧ model_SPC z = Ok set) ids sets →
  key ∈ concat sets ≫= spc_card_keys →
  key ∈ ps_keys (grid model) →
  ∃ i, d !! key = Some i ∧ i ∈ iUsb b ∧ i ∈ iUsg b ∧
       ¬ NoDup (iUs (derive_sets b)).
Proof.
  intros Hnd Hv Hb Hspc Hids Hsets Hkey Hps.
  pose proof (build_nid_component_to_id_state s model) as Hst.
  destruct (build_nid_component_to_id_spec s model) as [s' Hspec].
  rewrite Hb in Hst, Hspec. cbn [snd] in Hst.
  destruct (decide (ndofs_of model > 0)) as [Hpos|]; [|done].
  injection Hspec as -> _ _.
  destruct Hst as (_ & Hi & _).
  assert (Forall2 (λ j key, foldl ins ∅
            (zip (dof_keys model) (seqZ 0 (ndofs_of model))) !! key = Some j)
            (ps_slots 0 (grid model)) (ps_keys (grid model))) as Hnew.
  { change 0 with (6 * 0) at 2. apply ps_slots_keys; [|done].
    intros k g c Hg Hc. rewrite (index_grid_slot model k g c) by done.
    f_equal; lia. }
  apply apply_SPCs_keys in Hspc as (ids' & sets' & Hids' & Hsets' & Hsup & Hl & Hsame).
  rewrite Hids in Hids'. injection Hids' as <-.
  rewrite (spc_sets_unique _ _ _ Hsets' Hsets) in *.
  apply constrain_keys_spec in Hl as (new_b & Hib & _ & _ & _ & Hmem & Hall).
  cbn [fst] in Hib, Hmem.
  destruct (proj1 (Forall_forall _ _) Hall key Hkey) as [i Hki].
  exists i. split; [done|].
  assert (i ∈ iUsg (base s1)) as Hig.
  { rewrite Hi. apply elem_of_app. right.
    apply list_elem_of_lookup in Hps as [k Hk].
    destruct (Forall2_lookup_r _ _ _ _ _ Hnew Hk) as (j & Hj & Hjk).
    assert (j = i) as -> by congruence.
    by eapply list_elem_of_lookup_2. }
  assert (iUsg b = iUsg (base s1)) as Hg.
  { unfold same_but_sb in Hsame. by rewrite Hsame. }
  assert (i ∈ iUsb b) as Hin by (apply Hmem; right; eauto).
  split; [done|]. split; [by rewrite Hg|].
  cbn [derive_sets iUs]. intros (_ & Hdisj & _)%NoDup_app.
  apply (Hdisj i Hin). by rewrite Hg.
Qed.
End SsetDuplicates.

Lemma s_set_repeats_ps_constraint_witness :
  ∃ d N s1 b i,
    build_nid_component_to_id (R := Q) init_solver (two_grid_rod 2) =
      (Ok (d, N), s1) ∧
    apply_SPCs (Raise KeyError) Q_model_SPC case_spc_mpc d (base s1) = Ok b ∧
    d !! (1, 1) = Some i ∧ i ∈ iUsb b ∧ i ∈ iUsg b ∧
    ¬ NoDup (iUs (derive_sets b)).
Proof.
  destruct (build_nid_component_to_id (R := Q) init_solver (two_grid_rod 2))
    as [[[d N]|e] s1] eqn:Hb; [|by vm_compute in Hb].
  destruct (apply_SPCs (Raise KeyError) Q_model_SPC case_spc_mpc d (base s1))
    as [b|e] eqn:Hs.
  2:{ exfalso. vm_compute in Hb. injection Hb as <- <- <-.
      vm_compute in Hs. discriminate Hs. }
  destruct (s_set_repeats_ps_constraint (Raise KeyError) Q_model_SPC init_solver
              (two_grid_rod 2) case_spc_mpc d N s1 b [PNum 1]
              [[SPC1 [("123"%string, [1])]; SPC [(1, 1); (4, 1)]]] (1, 1))
    as (i & Hi); try done.
  - apply NoDup_ListNoDup. repeat constructor; simpl; intuition lia.
  - repeat constructor; vm_compute; discriminate.
  - repeat constructor. by exists 1.
  - vm_compute. left.
  - apply list_elem_of_lookup. by exists 5%nat.
  - exists d, N, s1, b, i. done.
Defined.

(** ** Load assembler *)

Section LoadFacts.
Context {R : Type} `{Float64 R}.

Implicit Types (Dofs : gmap (Z * Z) Z) (Fg : vector R).

Lemma assemble_load_components Dofs Fg (load : LoadCard R) :
  load_supported load →
  assemble_load Dofs Fg load =
    for_each (λ Fg c, add_load_component Dofs Fg c.1 c.2)
      (load_components load) Fg.
Proof.
  intros Hsup. unfold assemble_load, load_components, load_offset.
  rewrite decide_True
    by (destruct Hsup as [-> | ->]; [left | right; left]).
  assert ((if decide (load_type load ∈ ["FORCE"%string]) then Ok 0
           else if decide (load_type load ∈ ["MOMENT"%string]) then Ok 3
           else Raise (NotImplementedError (load_type load))) =
          Ok (if decide (load_type load = "FORCE"%string) then 0 else 3)) as ->.
  { destruct Hsup as [Ht|Ht]; rewrite Ht.
    - rewrite decide_True by left. by rewrite decide_True.
    - rewrite decide_False by (intros [=]%list_elem_of_singleton).
      rewrite decide_True by left. by rewrite decide_False. }
  simpl. rewrite <- for_each_bind. apply for_each_ext. intros row _ F.
  destruct (load_xyz row) as [[x y] z]. simpl.
  destruct (add_load_component Dofs F _ _) as [F1|]; [|done]. simpl.
  destruct (add_load_component Dofs F1 _ _) as [F2|]; [|done]. simpl.
  by rewrite rbind_Ok.
Qed.

Lemma assemble_load_Ok_supported Dofs Fg Fg' (load : LoadCard R) :
  assemble_load Dofs Fg load = Ok Fg' → load_supported load.
Proof.
  unfold assemble_load, load_supported.
  destruct (decide (load_type load ∈ ["FORCE"; "MOMENT"]%string)) as [Hin|]; [|done].
  intros _. apply elem_of_cons in Hin as [Hin|Hin]; [by left|].
  apply list_elem_of_singleton in Hin. by right.
Qed.

Lemma assemble_forces_components (ndofs : nat) (loads : list (LoadCard R)) Dofs Fg :
  assemble_forces ndofs loads Dofs = Ok Fg ↔
  Forall load_supported loads ∧
  for_each (λ Fg c, add_load_component Dofs Fg c.1 c.2)
    (loads ≫= load_components) (zeros ndofs) = Ok Fg.
Proof.
  unfold assemble_forces. split.
  - intros Hl.
    assert (Forall load_supported loads) as Hsup.
    { apply Forall_forall. intros load Hin.
      destruct (for_each_Ok_elem _ _ _ _ Hl _ Hin) as (s0 & s1 & Hc).
      by apply assemble_load_Ok_supported in Hc. }
    split; [done|]. rewrite <- for_each_bind, <- Hl. symmetry.
    apply for_each_ext. intros load Hin F.
    apply assemble_load_components. by apply (proj1 (Forall_forall _ _) Hsup).
  - intros [Hsup Hl]. rewrite <- Hl, <- for_each_bind.
    apply for_each_ext. intros load Hin F.
    apply assemble_load_components. by apply (proj1 (Forall_forall _ _) Hsup).
Qed.

Lemma add_load_component_eq Dofs Fg (key : Z * Z) (x : R) :
  add_load_component Dofs Fg key x =
    if is_nonzero x then
      match Dofs !! key ≫= py_index (length Fg) with
      | Some k => Ok (alter (λ y, add y x) k Fg)
      | None =>
          match Dofs !! key with
          | None => Raise KeyError
          | Some _ => Raise IndexError
          end
      end
    else Ok Fg.
Proof.
  unfold add_load_component, iadd1. destruct (is_nonzero x); [|done].
  destruct (Dofs !! key) as [dof|]; [|done]. simpl.
  by destruct (py_index (length Fg) dof).
Qed.

Lemma force_components_get Dofs (comps : list (Z * Z * R)) Fg Fg' :
  for_each (λ Fg c, add_load_component Dofs Fg c.1 c.2) comps Fg = Ok Fg' →
  length Fg' = length Fg ∧
  ∀ k x, Fg !! k = Some x →
    Fg' !! k = Some (foldl add x (force_contrib Dofs (length Fg) comps k)).
Proof.
  revert Fg. induction comps as [|[key v] comps IH]; intros Fg Hl.
  - injection Hl as <-. split; [done|]. by intros k x Hk.
  - cbn [for_each] in Hl. cbn [fst snd] in Hl.
    rewrite add_load_component_eq in Hl.
    unfold force_contrib. cbn [omap list_omap fst snd]. fold (force_contrib Dofs).
    destruct (is_nonzero v).
    + destruct (Dofs !! key ≫= py_index (length Fg)) as [k0|] eqn:Hk0.
      2:{ by destruct (Dofs !! key). }
      simpl in Hl. apply IH in Hl as [Hlen Hget].
      rewrite length_alter in Hlen, Hget. split; [done|].
      intros k x Hk. destruct (decide (Some k0 = Some k)) as [[= ->]|Hne].
      * simpl. apply Hget. by rewrite list_lookup_alter_eq, Hk.
      * apply Hget. rewrite list_lookup_alter_ne by congruence. done.
    + simpl in Hl. by apply IH in Hl.
Qed.

(** X7. The assembled load vector has length [ndofs], and its entry at
    position [k] is the running sum, from 0.0 and in loop order, of the
    non-zero components [mag * xyz] whose DOF resolves to [k]: FORCE rows
    act on components 1-3 of their node, MOMENT rows on 4-6, and a
    position no such component names stays 0.0.  Any other load type makes
    the assembler fail. *)
Theorem assemble_forces_sum (ndofs : nat) (loads : list (LoadCard R)) Dofs Fg :
  assemble_forces ndofs loads Dofs = Ok Fg →
  Forall load_supported loads ∧
  length Fg = ndofs ∧
  ∀ k : nat, (k < ndofs)%nat →
    Fg !! k =
      Some (foldl add zero
              (force_contrib Dofs ndofs (loads ≫= load_components) k)).
Proof.
  intros [Hsup Hl]%assemble_forces_components.
  apply force_components_get in Hl as [Hlen Hget].
  unfold zeros in *. rewrite length_replicate in Hlen, Hget.
  split; [done|]. split; [done|]. intros k Hk. apply Hget.
  by apply lookup_replicate_2.
Qed.

(** X8. Components that fail the test [abs(..) > 0.] are skipped before
    their DOF is looked up: when every component of every load is zero
    the result is the zero vector, whether or not the loaded nodes exist
    in the DOF index. *)
Theorem assemble_forces_zero_loads (ndofs : nat) (loads : list (LoadCard R)) Dofs :
  Forall load_supported loads →
  Forall (λ c, is_nonzero c.2 = false) (loads ≫= load_components) →
  assemble_forces ndofs loads Dofs = Ok (zeros ndofs).
Proof.
  intros Hsup Hzero. apply assemble_forces_components. split; [done|].
  generalize (zeros ndofs) as Fg.
  induction Hzero as [|c comps Hc _ IH]; intros Fg; [done|].
  cbn [for_each]. rewrite add_load_component_eq, Hc. simpl. apply IH.
Qed.
End LoadFacts.

Lemma assemble_forces_sum_witness :
  Forall load_supported loads_force_moment ∧
  length [2; 0; 6; 0; 0; 5]%Q = 6%nat ∧
  ∀ k : nat, (k < 6)%nat →
    [2; 0; 6; 0; 0; 5]%Q !! k =
      Some (foldl add zero
              (force_contrib index_one_grid 6
                 (loads_force_moment ≫= load_components) k)).
Proof.
  apply (assemble_forces_sum 6 loads_force_moment index_one_grid).
  vm_compute. reflexivity.
Defined.

Lemma assemble_forces_zero_loads_witness :
  assemble_forces 6 loads_zero index_one_grid = Ok (zeros (R := Q) 6).
Proof.
  apply (assemble_forces_zero_loads 6 loads_zero index_one_grid).
  - repeat constructor.
  - repeat constructor.
Defined.

(** ** Displacement table *)

Section DisplacementTable.
Context {R : Type}.

End DisplacementTable.

(** ** Case driver *)

Lemma get_case_parameter_eq (st : Report) (case : Subcase) (name : string) :
  get_case_parameter st case name =
    if request_supported case name
    then Ok (with_flags st
               (<[name := request_flags case name]> (case_result_flags st)))
    else Raise (NotImplementedError "%s = %r is not supported").
Proof.
  unfold get_case_parameter, request_supported, request_flags, requested.
  destruct (case_params case !! name) as [[value options]|] eqn:Hv; [|done].
  destruct (decide (value = PStr "ALL")) as [->|Hall]; [done|].
  rewrite (bool_decide_eq_false_2 (value = PStr "ALL")) by done.
  destruct (decide (value = PStr "NONE")) as [->|Hnone]; [done|].
  by rewrite bool_decide_eq_false_2 by done.
Qed.

Section CaseDriverFacts.
Context {A : Type}.
Variable run_sol_101 : Report → Model → Subcase → outcome A.
Variable run_sol_103 : Report → Model → Subcase → outcome A.

(** X10. How [run_case] ends.  A solution sequence other than 101 and 103
    is refused; so is an output request (DISPLACEMENT, STRESS, STRAIN,
    FORCE) whose value is neither [ALL] nor [NONE]; a case that requests
    none of the four with [ALL] ends in [RuntimeError]; in every other
    case the solution sequence of [model.sol] runs, with the four
    [is_*] switches set from the requests of this case alone. *)
Theorem run_case_outcome (st : Report) (model : Model) (case : Subcase) :
  run_case run_sol_101 run_sol_103 st model case =
    if decide (sol model ∉ [101; 103]) then
      Failed (NotImplementedError "model.sol=%s not in %s")
    else if negb (forallb (request_supported case) output_requests) then
      Failed (NotImplementedError "%s = %r is not supported")
    else if negb (existsb (requested case) output_requests) then
      FailedRuntimeError "No results selected..."
    else if decide (sol model = 101) then
      run_sol_101 (report_for st case) model case
    else run_sol_103 (report_for st case) model case.
Proof.
  unfold run_case.
  destruct (decide (sol model ∈ [101; 103])) as [Hsol|Hsol].
  2:{ by rewrite decide_True. }
  rewrite decide_False by tauto.
  rewrite !get_case_parameter_eq. unfold output_requests. cbn [forallb existsb].
  destruct (request_supported case "DISPLACEMENT"); [|done]. cbn [mbind result_bind].
  rewrite get_case_parameter_eq.
  destruct (request_supported case "STRESS"); [|done]. cbn [mbind result_bind].
  rewrite get_case_parameter_eq.
  destruct (request_supported case "STRAIN"); [|done]. cbn [mbind result_bind].
  rewrite get_case_parameter_eq.
  destruct (request_supported case "FORCE"); [|done]. cbn [mbind result_bind].
  unfold result_flag. cbn [case_result_flags with_flags].
  match goal with
  | |- context [from_option KeyError (?m !! "DISPLACEMENT"%string)] =>
      set (flags := m)
  end.
  assert (flags !! "DISPLACEMENT"%string =
          Some (request_flags case "DISPLACEMENT")) as ->.
  { subst flags. repeat (rewrite lookup_insert_ne by done).
    by rewrite lookup_insert_eq. }
  assert (flags !! "STRESS"%string = Some (request_flags case "STRESS")) as ->.
  { subst flags. repeat (rewrite lookup_insert_ne by done).
    by rewrite lookup_insert_eq. }
  assert (flags !! "STRAIN"%string = Some (request_flags case "STRAIN")) as ->.
  { subst flags. repeat (rewrite lookup_insert_ne by done).
    by rewrite lookup_insert_eq. }
  assert (flags !! "FORCE"%string = Some (request_flags case "FORCE")) as ->.
  { subst flags. by rewrite lookup_insert_eq. }
  cbn [from_option fmap result_fmap mbind result_bind].
  cbn [request_flags fst andb negb is_displacement is_stress is_strain is_force
       Title Subtitle label iSubcaseNameMap case_result_flags with_flags].
  assert (∀ b : bool, (if negb b then false else true) = b) as Hb by (by intros []).
  rewrite !Hb.
  unfold report_for. cbn [foldl output_requests].
  destruct (requested case "DISPLACEMENT"), (requested case "STRESS"),
    (requested case "STRAIN"), (requested case "FORCE"); reflexivity.
Qed.
End CaseDriverFacts.

(** ** Global assembly over the element types *)

Lemma for_each_preserves {A S} (body : S → A → result S) (P : S → Prop)
    (l : list A) (s s' : S) :
  (∀ s x s', x ∈ l → P s → body s x = Ok s' → P s') →
  P s → for_each body l s = Ok s' → P s'.
Proof.
  revert s. induction l as [|x l IH]; intros s Hstep Hs Hl.
  - by injection Hl as <-.
  - simpl in Hl. destruct (body s x) as [s1|e] eqn:Hx; [|done]. simpl in Hl.
    apply (IH s1); [|by apply (Hstep s x); [left|..]|done].
    intros s2 y s3 Hy. apply Hstep. by right.
Qed.

Section GlobalAssemblyFacts.
Context {R : Type} `{Float64 R}.

Lemma grid_positions_loop (xyz : list (R * R * R)) (gs : list GridPoint)
    (i0 : nat) (pos0 pos : gmap Z (R * R * R)) (idx0 idx : gmap Z Z) :
  for_each (λ '(positions, index0s) '(i, g),
      let nid := node_id g in
      p ← getitem xyz i;
      Ok (<[nid := p]> positions, <[nid := 6 * Z.of_nat i]> index0s))
    (zip (seq i0 (length gs)) gs) (pos0, idx0) = Ok (pos, idx) →
  (size pos ≤ size pos0 + length gs)%nat ∧
  ∀ nid, is_Some (pos !! nid) →
    is_Some (pos0 !! nid) ∨ nid ∈ node_id <$> gs.
Proof.
  revert i0 pos0 idx0. induction gs as [|g gs IH]; intros i0 pos0 idx0 Hl.
  - injection Hl as <- _. split; [simpl; lia | by left].
  - cbn [length seq zip zip_with for_each] in Hl.
    destruct (getitem xyz i0) as [p|e]; [|done]. simpl in Hl.
    apply IH in Hl as [Hsz Hdom].
    pose proof (map_size_insert (node_id g) p pos0) as Hins.
    split.
    + cbn [length]. destruct (pos0 !! node_id g); simpl in Hins; lia.
    + intros nid Hnid. rewrite fmap_cons.
      destruct (Hdom nid Hnid) as [Hold|Hin]; [|right; by right].
      destruct (decide (nid = node_id g)) as [->|Hne]; [right; left|].
      rewrite lookup_insert_ne in Hold by done. by left.
Qed.

Lemma grid_positions_spec (model : Model) (xyz : list (R * R * R))
    positions index0s :
  grid_positions model xyz = Ok (positions, index0s) →
  (size positions ≤ length (grid model))%nat ∧
  ∀ nid, is_Some (positions !! nid) → nid ∈ node_id <$> grid model.
Proof.
  unfold grid_positions, enumerate. intros [Hsz Hdom]%grid_positions_loop.
  rewrite map_size_empty in Hsz. split; [lia|].
  intros nid Hnid. destruct (Hdom nid Hnid) as [[x Hx]|]; [|done].
  by rewrite lookup_empty in Hx.
Qed.

Lemma grid_positions_total (model : Model) (xyz : list (R * R * R)) :
  (length (grid model) ≤ length xyz)%nat →
  ∃ r, grid_positions model xyz = Ok r.
Proof.
  unfold grid_positions. intros Hlen.
  match goal with
  | |- ∃ r, for_each ?body ?l ?s = Ok r =>
      destruct (for_each_inv body (λ _, True)
                  (λ x : nat * GridPoint, (x.1 < length xyz)%nat) l s)
        as (r & Hr & _)
  end.
  - intros [pos idx] [i g] _ Hi. simpl in Hi.
    destruct (lookup_lt_is_Some_2 xyz i Hi) as [p Hp].
    unfold getitem. rewrite Hp. simpl. eauto.
  - done.
  - apply Forall_forall. intros [i g] [Hi _]%elem_of_enumerate. simpl. lia.
  - eauto.
Qed.
End GlobalAssemblyFacts.

Lemma load_name_index {V} (frame : gmap string V) (gv : string → V) :
  load_name assemble_global_mass_matrix_locals frame gv "index" =
    Raise (NameError "index").
Proof.
  unfold load_name.
  rewrite decide_False
    by (apply (bool_decide_eq_false_1 _); vm_compute; reflexivity).
  rewrite decide_False; [done|].
  intros [Hin|Hin]; revert Hin;
    apply (bool_decide_eq_false_1 _); vm_compute; reflexivity.
Qed.

Section GlobalAssemblyTheorems.
Context {R : Type} `{Float64 R}.
Variable conm1_block :
  value103 (R := R) → nat → matrix R → matrix R * Dok R →
  result (matrix R * Dok R).

Lemma add_stiffness_of_symmetric (n : nat)
    (provider : nat → result (matrix R * list Z)) (m : nat)
    (Kgg Kgg' : matrix R) :
  (∀ i K dofs, provider i = Ok (K, dofs) →
     symmetric_element (K, dofs) ∧
     ((∀ x v w : R, add (add x v) w = add (add x w) v) ∨
      distinct_positions n dofs)) →
  is_square n Kgg ∧ symmetric Kgg →
  add_stiffness_of provider m Kgg = Ok Kgg' →
  is_square n Kgg' ∧ symmetric Kgg'.
Proof.
  intros Hprov HK. unfold add_stiffness_of.
  apply (for_each_preserves _ (λ M, is_square n M ∧ symmetric M)); [|done].
  intros M i M' _ [Hsq Hsym] Hstep.
  destruct (provider i) as [[K dofs]|e] eqn:Hp; [|done]. simpl in Hstep.
  destruct (Hprov i K dofs Hp) as [Hel Hwhy].
  by apply (add_stiffness_symmetric n K dofs M M').
Qed.

Lemma add_mass_of_symmetric (n : nat)
    (provider : nat → result (matrix R * list Z)) (m : nat)
    (st st' : matrix R * Dok R) :
  (∀ i K dofs, provider i = Ok (K, dofs) →
     symmetric_element (K, dofs) ∧
     ((∀ x v w : R, add (add x v) w = add (add x w) v) ∨
      distinct_positions n dofs)) →
  is_square n st.1 ∧ symmetric st.1 →
  add_mass_of provider m st = Ok st' →
  is_square n st'.1 ∧ symmetric st'.1.
Proof.
  intros Hprov HK. unfold add_mass_of.
  apply (for_each_preserves _ (λ s : matrix R * Dok R,
           is_square n s.1 ∧ symmetric s.1)); [|done].
  intros s i s' _ [Hsq Hsym] Hstep.
  destruct (provider i) as [[K dofs]|e] eqn:Hp; [|done]. simpl in Hstep.
  destruct (Hprov i K dofs Hp) as [Hel Hwhy].
  apply add_mass_fst in Hstep.
  by apply (add_stiffness_symmetric n K dofs s.1 s'.1).
Qed.

(** X11. The stiffness matrix [assemble_global_stiffness_matrix] returns
    is square of side [i] and symmetric whenever the element providers
    return symmetric local matrices. *)
Theorem assemble_global_stiffness_matrix_symmetric (model : Model)
    (els : Elements R) (i : nat) Kgg positions :
  Forall (λ t, symmetric_provider i (get_stiffness_matrix t))
    (stiffness_types els) →
  assemble_global_stiffness_matrix model els i = Ok (Kgg, positions) →
  is_square i Kgg ∧ symmetric Kgg.
Proof.
  intros Hprov. unfold assemble_global_stiffness_matrix.
  destruct (decide (0 < length (grid model))%nat); [|done].
  destruct (grid_positions model (grid_xyz els)) as [[pos idx]|e]; [|done].
  cbn [mbind result_bind].
  unfold stiffness_types in Hprov.
  repeat (apply Forall_cons in Hprov as [? Hprov]).
  pose proof (zeros2_square_symmetric (R := R) i) as Hzero.
  repeat match goal with
  | |- add_stiffness_of ?p ?m ?K ≫= _ = _ → _ =>
      let K' := fresh "K" in let HK := fresh "HK" in
      destruct (add_stiffness_of p m K) as [K'|] eqn:HK;
      cbn [mbind result_bind]; [|done];
      apply (add_stiffness_of_symmetric i) in HK; [|by eauto|done]
  end.
  by intros [= <- _].
Qed.

(** X12. [assemble_global_mass_matrix] returns only for models without
    CONM1 elements, and the mass matrix it returns is square of side
    [ndofs] and symmetric whenever the element providers return symmetric
    local matrices. *)
Theorem assemble_global_mass_matrix_symmetric (model : Model)
    (els : Elements R) (ndofs : nat) Mgg Mgg_sparse positions :
  Forall (λ t, symmetric_provider ndofs (get_mass_matrix t)) (mass_types els) →
  assemble_global_mass_matrix conm1_block model els ndofs =
    Ok (Mgg, Mgg_sparse, positions) →
  mass_conm1_n els = 0%nat ∧ is_square ndofs Mgg ∧ symmetric Mgg.
Proof.
  intros Hprov. unfold assemble_global_mass_matrix.
  destruct (decide (0 < length (grid model))%nat); [|done].
  destruct (grid_positions model (grid_xyz els)) as [[pos idx]|e]; [|done].
  cbn [mbind result_bind].
  destruct (mass_conm1_n els) as [|n1] eqn:Hn1.
  2:{ cbn [seq for_each].
      destruct (mass_conm1_get_mass_matrix els 0) as [M|]; [|done].
      cbn [mbind result_bind]. by rewrite load_name_index. }
  cbn [seq for_each mbind result_bind].
  intros Hl. split; [done|]. revert Hl.
  unfold mass_types in Hprov.
  repeat (apply Forall_cons in Hprov as [? Hprov]).
  pose proof (zeros2_square_symmetric (R := R) ndofs) as Hzero.
  set (st0 := (zeros2 (R := R) ndofs ndofs,
               {| dok_shape := (ndofs, ndofs);
                  dok_data := (∅ : gmap (nat * nat) R) |})).
  change (is_square ndofs st0.1 ∧ symmetric st0.1) in Hzero.
  clearbody st0.
  repeat match goal with
  | |- add_mass_of ?p ?m ?s ≫= _ = _ → _ =>
      let s' := fresh "st" in let Hs := fresh "Hs" in
      destruct (add_mass_of p m s) as [s'|] eqn:Hs;
      cbn [mbind result_bind]; [|done];
      apply (add_mass_of_symmetric ndofs) in Hs; [|by eauto|done]
  end.
  destruct (decide (elements_solid_n els ≠ 0%nat)).
  - repeat match goal with
    | |- context [add_mass_of ?p ?m ?s ≫= _] =>
        let s' := fresh "st" in let Hs := fresh "Hs" in
        destruct (add_mass_of p m s) as [s'|] eqn:Hs;
        cbn [mbind result_bind]; [|done];
        apply (add_mass_of_symmetric ndofs) in Hs; [|by eauto|done]
    end.
    by intros [= -> _].
  - cbn [mbind result_bind]. by intros [= -> _].
Qed.
End GlobalAssemblyTheorems.

Section GlobalAssemblyEdges.
Context {R : Type} `{Float64 R}.
Variable conm1_block :
  value103 (R := R) → nat → matrix R → matrix R * Dok R →
  result (matrix R * Dok R).

(** X13. A model that consists of scalar points only is indexed, but
    neither global matrix is assembled for it: both assemblers assert
    that there is a grid point. *)
Theorem assemble_global_needs_grid_point (s : Solver R) (model : Model)
    (els : Elements R) (ndofs : nat) :
  grid model = [] → spoint model ≠ [] →
  (build_nid_component_to_id s model).1 =
    Ok (foldl ins ∅ (zip (dof_keys model) (seqZ 0 (ndofs_of model))),
        Z.of_nat (length (spoint model))) ∧
  assemble_global_stiffness_matrix model els ndofs =
    Raise (AssertionError EmptyString) ∧
  assemble_global_mass_matrix conm1_block model els ndofs =
    Raise (AssertionError EmptyString).
Proof.
  intros Hg Hs. split; [|split].
  - destruct (build_nid_component_to_id_spec s model) as [s' ->].
    assert (ndofs_of model = Z.of_nat (length (spoint model))) as Hn
      by (unfold ndofs_of; rewrite Hg; simpl; lia).
    rewrite decide_True.
    + cbn [fst]. by rewrite Hn.
    + rewrite Hn. destruct (spoint model); [done | simpl; lia].
  - unfold assemble_global_stiffness_matrix. rewrite Hg.
    by rewrite decide_False by (simpl; lia).
  - unfold assemble_global_mass_matrix. rewrite Hg.
    by rewrite decide_False by (simpl; lia).
Qed.

(** X14. With a CONM1 element in the model the mass assembly stops at
    the first one: after its mass matrix is fetched, the statement
    [i0 = index[conm1.node_id[i]]] reads the name [index], which nothing
    binds, and [NameError] is raised. *)
Theorem assemble_global_mass_matrix_conm1 (model : Model) (els : Elements R)
    (ndofs : nat) (M : matrix R) :
  grid model ≠ [] →
  (length (grid model) ≤ length (grid_xyz els))%nat →
  mass_conm1_n els ≠ 0%nat →
  mass_conm1_get_mass_matrix els 0 = Ok M →
  assemble_global_mass_matrix conm1_block model els ndofs =
    Raise (NameError "index").
Proof.
  intros Hg Hxyz Hn HM. unfold assemble_global_mass_matrix.
  rewrite decide_True by (destruct (grid model); [done | simpl; lia]).
  destruct (grid_positions_total model (grid_xyz els) Hxyz) as [[pos idx] ->].
  cbn [mbind result_bind].
  destruct (mass_conm1_n els) as [|n1]; [done|].
  cbn [seq for_each]. rewrite HM. cbn [mbind result_bind].
  by rewrite load_name_index.
Qed.
End GlobalAssemblyEdges.

Lemma symmetric_provider_none (n : nat) :
  symmetric_provider n (get_stiffness_matrix no_elements) ∧
  symmetric_provider n (get_mass_matrix no_elements).
Proof. split; intros i p x K dofs [=]. Qed.

Lemma symmetric_provider_rod (n : nat) :
  symmetric_provider n (get_stiffness_matrix one_rod) ∧
  symmetric_provider n (get_mass_matrix one_rod).
Proof.
  split; intros i p x K dofs [= <- <-]; (split; [|left; exact Qexact_add_right_comm]);
    (split; [split; [done | by repeat constructor] | apply symmetric_2x2]).
Qed.

Lemma assemble_global_stiffness_matrix_symmetric_witness :
  ∃ Kgg positions,
    assemble_global_stiffness_matrix (two_grid_rod 2) (rod_elements 0) 12 =
      Ok (Kgg, positions) ∧
    is_square 12 Kgg ∧ symmetric Kgg.
Proof.
  destruct (assemble_global_stiffness_matrix (two_grid_rod 2) (rod_elements 0) 12)
    as [[Kgg positions]|e] eqn:Heq; [|by vm_compute in Heq].
  exists Kgg, positions. split; [reflexivity|].
  apply (assemble_global_stiffness_matrix_symmetric (two_grid_rod 2)
           (rod_elements 0) 12 Kgg positions); [|exact Heq].
  repeat (apply Forall_cons_2;
    [first [apply symmetric_provider_none | apply symmetric_provider_rod]|]).
  apply Forall_nil_2.
Defined.

Lemma assemble_global_mass_matrix_symmetric_witness :
  ∃ Mgg Mgg_sparse positions,
    assemble_global_mass_matrix Q_conm1_block (two_grid_rod 2) (rod_elements 0) 12 =
      Ok (Mgg, Mgg_sparse, positions) ∧
    mass_conm1_n (rod_elements 0) = 0%nat ∧ is_square 12 Mgg ∧ symmetric Mgg.
Proof.
  destruct (assemble_global_mass_matrix Q_conm1_block (two_grid_rod 2)
              (rod_elements 0) 12)
    as [[[Mgg Mgg_sparse] positions]|e] eqn:Heq; [|by vm_compute in Heq].
  exists Mgg, Mgg_sparse, positions. split; [reflexivity|].
  apply (assemble_global_mass_matrix_symmetric Q_conm1_block (two_grid_rod 2)
           (rod_elements 0) 12 Mgg Mgg_sparse positions); [|exact Heq].
  repeat (apply Forall_cons_2;
    [first [apply symmetric_provider_none | apply symmetric_provider_rod]|]).
  apply Forall_nil_2.
Defined.

Lemma assemble_global_needs_grid_point_witness :
  (build_nid_component_to_id (R := Q) init_solver spoints_only).1 =
    Ok (foldl ins ∅ (zip (dof_keys spoints_only) (seqZ 0 (ndofs_of spoints_only))),
        Z.of_nat (length (spoint spoints_only))) ∧
  assemble_global_stiffness_matrix spoints_only (rod_elements 0) 2 =
    Raise (AssertionError EmptyString) ∧
  assemble_global_mass_matrix Q_conm1_block spoints_only (rod_elements 0) 2 =
    Raise (AssertionError EmptyString).
Proof.
  apply (assemble_global_needs_grid_point Q_conm1_block init_solver spoints_only
           (rod_elements 0) 2); [reflexivity | discriminate].
Defined.

Lemma assemble_global_mass_matrix_conm1_witness :
  assemble_global_mass_matrix Q_conm1_block (two_grid_rod 2) (rod_elements 1) 12 =
    Raise (NameError "index").
Proof.
  apply (assemble_global_mass_matrix_conm1 Q_conm1_block (two_grid_rod 2)
           (rod_elements 1) 12 (zeros2 6 6)).
  - discriminate.
  - simpl. lia.
  - discriminate.
  - reflexivity.
Defined.

(** ** Grid point weight generator: the reference point *)

Section GpwgFullFacts.
Context {R : Type} `{Float64 R}.
Variable eigh : matrix R → option (vector R * matrix R).
Variable eig : matrix R → option (vector R * matrix R).
Variable conm1_block :
  value103 (R := R) → nat → matrix R → matrix R * Dok R →
  result (matrix R * Dok R).

Lemma xyz_cid0_of_total (grid_n : nat) (positions : gmap Z (R * R * R)) :
  (size positions ≤ grid_n)%nat →
  ∃ xyz_cid0, xyz_cid0_of grid_n positions = Ok xyz_cid0.
Proof.
  intros Hsz. unfold xyz_cid0_of.
  match goal with
  | |- ∃ r, for_each ?body ?l ?s = Ok r =>
      destruct (for_each_inv body
                  (λ arr : list (R * R * R), length arr = grid_n)
                  (λ x : nat * (Z * (R * R * R)), (x.1 < grid_n)%nat) l s)
        as (r & Hr & _)
  end.
  - intros arr [i [key xyz]] Harr Hi. simpl in Hi.
    rewrite decide_True by lia. eexists. split; [done|].
    by rewrite length_insert.
  - by rewrite length_replicate.
  - apply Forall_forall. intros [i x] [Hi _]%elem_of_enumerate. simpl.
    unfold sorted_items in Hi.
    rewrite (Permutation_length (merge_sort_Permutation _ _)) in Hi.
    rewrite length_map_to_list in Hi. lia.
  - eauto.
Qed.

Lemma Solver_make_gpwg_no_grid_2 (els : Elements R) (grid_n : nat)
    (positions : gmap Z (R * R * R)) (grid_point : Z) (Mgg : matrix R) :
  (size positions ≤ grid_n)%nat → positions !! 2 = None →
  Solver_make_gpwg eigh eig els grid_n positions grid_point Mgg = Raise KeyError.
Proof.
  intros Hsz Hnone. unfold Solver_make_gpwg, make_gpwg_D.
  destruct (xyz_cid0_of_total grid_n positions Hsz) as [xyz_cid0 ->].
  cbn [mbind result_bind].
  rewrite decide_False.
  2:{ intros Hin. apply elem_of_cons in Hin as [|Hin]; [done|].
      by apply list_elem_of_singleton in Hin. }
  by rewrite Hnone.
Qed.

(** X15. [make_gpwg] takes its reference point from grid point 2,
    whatever [grid_point] it is called with: when it returns, the table
    names reference point 2 and a grid point with id 2 has a position;
    when no such grid point exists it raises [KeyError]. *)
Theorem Solver_make_gpwg_reference_point (els : Elements R) (grid_n : nat)
    (positions : gmap Z (R * R * R)) (grid_point : Z) (Mgg : matrix R) :
  (size positions ≤ grid_n)%nat →
  match Solver_make_gpwg eigh eig els grid_n positions grid_point Mgg with
  | Ok w => gpw_reference_point w = 2 ∧ is_Some (positions !! 2)
  | Raise e => positions !! 2 = None → e = KeyError
  end.
Proof.
  intros Hsz. unfold Solver_make_gpwg, make_gpwg_D.
  destruct (xyz_cid0_of_total grid_n positions Hsz) as [xyz_cid0 ->].
  cbn [mbind result_bind].
  rewrite decide_False.
  2:{ intros Hin. apply elem_of_cons in Hin as [|Hin]; [done|].
      by apply list_elem_of_singleton in Hin. }
  destruct (positions !! 2) as [ref|] eqn:Href; cbn [from_option mbind result_bind].
  2:{ done. }
  match goal with
  | |- match ?m ≫= _ with _ => _ end => destruct m as [D|e]
  end; cbn [mbind result_bind]; [|done].
  destruct (triple D Mgg) as [Mo|e]; cbn [mbind result_bind]; [|done].
  destruct (make_gpwg eigh Mo) as [w|e]; cbn [mbind result_bind]; [|done].
  destruct (eig (gpw_IS w)) as [[omegaQ Q]|]; cbn [from_option mbind result_bind];
    [|done].
  destruct (triple Q (gpw_IS w)) as [IQ|e]; cbn [mbind result_bind]; [|done].
  split; [done | eauto].
Qed.

Lemma get_Mgg_needs_grid_2 (model : Model) (els : Elements R)
    (params : gmap string Z) (ndofs : nat) :
  Forall (λ g, node_id g ≠ 2) (grid model) →
  ∃ e, get_Mgg eigh eig conm1_block model els params ndofs = Raise e.
Proof.
  intros Hno. unfold get_Mgg.
  destruct (assemble_global_mass_matrix conm1_block model els ndofs)
    as [[[Mgg Mgg_sparse] positions]|e] eqn:Hm; cbn [mbind result_bind]; [|eauto].
  rewrite lookup_insert_eq. rewrite decide_False by done.
  assert ((size positions ≤ length (grid model))%nat ∧ positions !! 2 = None)
    as [Hsz Hnone].
  { unfold assemble_global_mass_matrix in Hm.
    destruct (decide (0 < length (grid model))%nat); [|done].
    destruct (grid_positions model (grid_xyz els)) as [[pos idx]|e] eqn:Hpos;
      [|done].
    cbn [mbind result_bind] in Hm.
    assert (pos = positions) as ->.
    { repeat match type of Hm with
      | (?m ≫= _) = Ok _ =>
          destruct m as [?|]; cbn [mbind result_bind] in Hm; [|done]
      end. by injection Hm as _ ->. }
    apply grid_positions_spec in Hpos as [Hsz Hdom]. split; [done|].
    destruct (positions !! 2) as [p|] eqn:Hp; [|done].
    exfalso. assert (2 ∈ node_id <$> grid model) as Hin by (apply Hdom; eauto).
    apply list_elem_of_fmap in Hin as (g & Hg & Hin).
    by apply (proj1 (Forall_forall _ _) Hno g Hin). }
  rewrite (Solver_make_gpwg_no_grid_2 els (length (grid model)) positions 0
             Mgg Hsz Hnone).
  cbn [mbind result_bind]. eauto.
Qed.

Variable get_SPCx_ids : result (list Z).
Variable model_SPC : Z → result (list SpcCard).
Variable model_MPC : param_value → result (list (MpcCard R)).
Variable resolve_loads : Subcase → result (list (LoadCard R)).

(** X16. [setup_sol_101] computes the grid point weight table on every
    call, so a model that has no grid point with id 2 is never set up:
    the call ends in an exception whatever the constraints, elements and
    loads are. *)
Theorem setup_sol_101_needs_grid_2 (s : Solver R) (model : Model)
    (els : Elements R) (params : gmap string Z) (case : Subcase) :
  Forall (λ g, node_id g ≠ 2) (grid model) →
  ∃ e,
    setup_sol_101 eigh eig conm1_block get_SPCx_ids model_SPC model_MPC
      resolve_loads s model els params case = Raise e.
Proof.
  intros Hno. unfold setup_sol_101.
  destruct (build_nid_component_to_id s model) as [[[d ndofs]|e] s1];
    cbn [mbind result_bind]; [|eauto].
  destruct (apply_SPCs _ _ _ _ _) as [b|e]; cbn [mbind result_bind]; [|eauto].
  destruct (apply_MPCs _ _ _ _) as [s2|e]; cbn [mbind result_bind]; [|eauto].
  destruct (get_Mgg_needs_grid_2 model els params (Z.to_nat ndofs) Hno)
    as [e ->].
  cbn [mbind result_bind]. eauto.
Qed.
End GpwgFullFacts.

Lemma Solver_make_gpwg_reference_point_witness :
  match Solver_make_gpwg Qeigh_diag Q_eig (rod_elements 0) 1
          {[ 1 := (0, 0, 0)%Q ]} 0 (zeros2 6 6) with
  | Ok w => gpw_reference_point w = 2 ∧
            is_Some (({[ 1 := (0, 0, 0)%Q ]} : gmap Z (Q * Q * Q)) !! 2)
  | Raise e =>
      ({[ 1 := (0, 0, 0)%Q ]} : gmap Z (Q * Q * Q)) !! 2 = None → e = KeyError
  end.
Proof.
  apply (Solver_make_gpwg_reference_point Qeigh_diag Q_eig (rod_elements 0) 1
           {[ 1 := (0, 0, 0)%Q ]} 0 (zeros2 6 6)).
  rewrite map_size_singleton. lia.
Defined.

Lemma setup_sol_101_needs_grid_2_witness :
  ∃ e,
    setup_sol_101 Qeigh_diag Q_eig Q_conm1_block (Ok [1]) Q_model_SPC
      Q_model_MPC Q_resolve_loads init_solver (two_grid_rod 3)
      (rod_elements 0) ∅ case_spc_mpc = Raise e.
Proof.
  apply (setup_sol_101_needs_grid_2 Qeigh_diag Q_eig Q_conm1_block (Ok [1])
           Q_model_SPC Q_model_MPC Q_resolve_loads init_solver (two_grid_rod 3)
           (rod_elements 0) ∅ case_spc_mpc).
  repeat constructor; simpl; lia.
Defined.

(** ** Recovery without a zero pivot *)

Lemma mapM_lookup_seq {A} (v : list A) :
  mapM (λ i, v !! i) (seq 0 (length v)) = Some v.
Proof.
  apply mapM_Some_2. apply Forall2_same_length_lookup_2.
  - by rewrite length_seq.
  - intros i j y Hj Hy. apply lookup_seq in Hj as [-> _]. done.
Qed.

Lemma filter_all {A} (P : A → Prop) `{∀ x, Decision (P x)} (l : list A) :
  Forall P l → filter P l = l.
Proof.
  induction 1 as [|x l Hx _ IH]; [done|].
  rewrite filter_cons_True by done. by rewrite IH.
Qed.

Section SolveNoPivot.
Context {R : Type} `{Float64 R}.
Variable solve : matrix R → vector R → option (vector R).
Variable table : list (Z * Z) → string.

(** X17. The recovery of [_solve] only removes rows whose diagonal entry
    is exactly 0.0.  When the direct solve fails and no diagonal entry is
    zero, an empty singularity table is written, the same system is
    solved again, and the failure of that second solve is raised. *)
Theorem _solve_no_zero_pivot (s : Solver R) (K : matrix R) (F : vector R)
    (dofs : list Z) (n : nat) :
  length dofs = n → is_square n K → length F = n →
  load_check F = Ok () →
  Forall (λ iu, is_Some (IDtoNidComponents s !! iu)) dofs →
  solve K F = None →
  (∀ i, (i < n)%nat → diag_is_zero K i = false) →
  _solve solve table s K F dofs =
    (Raise LinAlgError, write_f06 s (table [])).
Proof.
  intros Hn [HKn HKrows] HF Hload Hids Hfail Hdiag.
  assert (∀ i, (i < n)%nat → ∃ row, K !! i = Some row ∧ length row = n) as Hrow.
  { intros i Hi. destruct (lookup_lt_is_Some_2 K i) as [row Hr]; [lia|].
    exists row. split; [done|].
    eapply (Forall_lookup_1 _ _ _ _ HKrows Hr). }
  assert (regular_rows K n = seq 0 n) as Hreg.
  { unfold regular_rows. apply filter_all, Forall_forall.
    intros i Hi%elem_of_seq. rewrite Hdiag by lia. done. }
  assert (singular_pairs (IDtoNidComponents s) K (enumerate dofs) = []) as Hpairs.
  { unfold singular_pairs.
    assert (Forall (λ x : nat * Z, (x.1 < n)%nat) (enumerate dofs)) as Hen.
    { apply Forall_forall. intros [i iu] [Hi _]%elem_of_enumerate. simpl. lia. }
    induction Hen as [|[i iu] l Hi _ IH]; [done|].
    simpl in Hi |- *. rewrite Hdiag by done. exact IH. }
  unfold _solve. rewrite Hload, Hfail.
  unfold enumerate at 1. rewrite singular_loop.
  - cbn [app]. fold (enumerate dofs). rewrite Hpairs.
    fold (singular_rows K (length dofs)).
    rewrite (regular_rows_difference solve), Hn, Hreg.
    assert (take_rows K (seq 0 n) = Ok K) as ->.
    { unfold take_rows, take_items. rewrite <- HKn.
      by rewrite mapM_lookup_seq. }
    cbn [mbind result_bind].
    assert (take_cols K (seq 0 n) = Ok K) as ->.
    { unfold take_cols.
      assert (mapM (λ row : list R, mapM (λ j, row !! j) (seq 0 n)) K = Some K)
        as ->; [|done].
      apply mapM_Some_2, Forall_Forall2_diag.
      eapply Forall_impl; [exact HKrows|]. intros row Hlen. simpl in Hlen.
      rewrite <- Hlen. apply mapM_lookup_seq. }
    cbn [mbind result_bind].
    assert (take_items F (seq 0 n) = Ok F) as ->.
    { unfold take_items. rewrite <- HF. by rewrite mapM_lookup_seq. }
    cbn [mbind result_bind]. by rewrite Hfail.
  - done.
  - intros i Hi. destruct (Hrow i) as (row & Hr & Hl); [lia|].
    rewrite Hr. simpl. apply lookup_lt_is_Some_2. lia.
Qed.
End SolveNoPivot.

Lemma _solve_no_zero_pivot_witness :
  _solve Qsolve Qtable solver2 K2_singular F2_load [0; 1] =
    (Raise LinAlgError, write_f06 solver2 (Qtable [])).
Proof.
  apply (_solve_no_zero_pivot Qsolve Qtable solver2 K2_singular F2_load [0; 1] 2).
  - reflexivity.
  - split; [reflexivity | by repeat constructor].
  - reflexivity.
  - reflexivity.
  - repeat constructor; by eexists.
  - vm_compute. reflexivity.
  - intros [|[|i]] Hi; [reflexivity | reflexivity | lia].
Defined.

(** ** Spring results of SOL 101 *)

Section SpringFacts.
Context {R : Type} `{Float64 R}.

Lemma spring_step_eq (et : SpringType R) (ispring : nat)
    (arrays : list R * list R * list R) (eids : option (list Z)) :
  spring_step (ispring, arrays, eids) et =
    if decide (spring_n et ≠ 0%nat) then
      match displacement_stress et ispring arrays with
      | Ok arrays' =>
          Ok ((ispring + spring_n et)%nat, arrays',
              Some (spring_element_id et))
      | Raise e => Raise e
      end
    else Ok ((ispring + spring_n et)%nat, arrays, eids).
Proof.
  unfold spring_step. destruct (decide (spring_n et ≠ 0%nat)); [|done].
  by destruct (displacement_stress et ispring arrays).
Qed.

Lemma spring_loop_eids (ets : list (SpringType R)) ispring arrays eids
    ispring' arrays' eids' :
  for_each spring_step ets (ispring, arrays, eids) = Ok (ispring', arrays', eids') →
  eids' =
    match last (filter (λ et, spring_n et ≠ 0%nat) ets) with
    | Some et => Some (spring_element_id et)
    | None => eids
    end.
Proof.
  revert ispring arrays eids.
  induction ets as [|et ets IH]; intros ispring arrays eids Hl.
  - by injection Hl as _ _ <-.
  - cbn [for_each] in Hl. rewrite spring_step_eq in Hl.
    destruct (decide (spring_n et ≠ 0%nat)) as [Hn|Hn].
    + rewrite filter_cons_True by done.
      destruct (displacement_stress et ispring arrays) as [arrays1|e]; [|done].
      cbn [mbind result_bind] in Hl. apply IH in Hl. rewrite Hl.
      rewrite last_cons. by destruct (last _).
    + rewrite filter_cons_False by done.
      cbn [mbind result_bind] in Hl. by apply IH in Hl.
Qed.

Lemma _store_spring_oes_strain (t : SpringTables R) (eids : list Z)
    (axial : vector R) (isubcase : Z) (elementType : string) :
  eids ≠ [] →
  _store_spring_oes t eids axial isubcase elementType "strain" =
    Ok {| celas_stress := celas_stress t;
          celas_strain :=
            <[isubcase := ("RealCelasStrain"%string, zip eids axial)]>
              (celas_strain t);
          spring_forces := spring_forces t |}.
Proof.
  intros Hne. unfold _store_spring_oes.
  rewrite decide_False by (destruct eids; [done | simpl; lia]).
  destruct (decide ("strain"%string = "stress"%string)); [done|].
  destruct (decide ("strain"%string = "strain"%string)); done.
Qed.

Lemma _store_spring_oes_stress (t : SpringTables R) (eids : list Z)
    (axial : vector R) (isubcase : Z) (elementType : string) :
  eids ≠ [] →
  _store_spring_oes t eids axial isubcase elementType "stress" =
    Ok {| celas_stress :=
            <[isubcase := ("RealCelasStress"%string, zip eids axial)]>
              (celas_stress t);
          celas_strain := celas_strain t;
          spring_forces := spring_forces t |}.
Proof.
  intros Hne. unfold _store_spring_oes.
  rewrite decide_False by (destruct eids; [done | simpl; lia]).
  destruct (decide ("stress"%string = "stress"%string)); done.
Qed.

Lemma _store_spring_oef_rows (t : SpringTables R) (eids : list Z)
    (axial : vector R) (isubcase : Z) (elementType : string) :
  eids ≠ [] →
  _store_spring_oef t eids axial isubcase elementType =
    {| celas_stress := celas_stress t; celas_strain := celas_strain t;
       spring_forces :=
         <[isubcase := ("RealSpringForce"%string, zip eids axial)]>
           (spring_forces t) |}.
Proof.
  intros Hne. unfold _store_spring_oef.
  by rewrite decide_False by (destruct eids; [done | simpl; lia]).
Qed.

Lemma fst_zip_prefix {A B} (l : list A) (k : list B) :
  (zip l k).*1 `prefix_of` l.
Proof.
  revert k. induction l as [|x l IH]; intros [|y k]; simpl;
    try apply prefix_nil.
  apply prefix_cons, IH.
Qed.

(** X18. The spring tables of a subcase are written once, after the loop
    over the four spring types, with the element ids of the last type
    that has elements: when the block stores a table, the ids of its rows
    are the leading ids of that type, whatever the other types hold, so
    the table has no more rows than that type has ids. *)
Theorem run_sol_101_springs_ids (t t' : SpringTables R)
    (celas1_ celas2_ celas3_ celas4_ : SpringType R) (isubcase : Z)
    (last_type : SpringType R) :
  run_sol_101_springs t celas1_ celas2_ celas3_ celas4_ isubcase = Ok t' →
  last (filter (λ et, spring_n et ≠ 0%nat)
          [celas1_; celas2_; celas3_; celas4_]) = Some last_type →
  spring_element_id last_type ≠ [] →
  ∃ strain_ids stress_ids force_ids,
    table_ids (celas_strain t') isubcase = Some strain_ids ∧
    table_ids (celas_stress t') isubcase = Some stress_ids ∧
    table_ids (spring_forces t') isubcase = Some force_ids ∧
    strain_ids `prefix_of` spring_element_id last_type ∧
    stress_ids `prefix_of` spring_element_id last_type ∧
    force_ids `prefix_of` spring_element_id last_type.
Proof.
  intros Hrun Hlast Hids. unfold run_sol_101_springs in Hrun.
  destruct (decide (_ ≠ 0%nat)) as [Hn|Hn].
  2:{ exfalso. apply Hn. cbn [foldl].
      assert (last_type ∈ filter (λ et, spring_n et ≠ 0%nat)
                [celas1_; celas2_; celas3_; celas4_]) as Hin.
      { apply last_Some in Hlast as [l' ->]. apply elem_of_app. right. left. }
      apply list_elem_of_filter in Hin as [Hne Hin].
      rewrite !elem_of_cons, elem_of_nil in Hin.
      destruct Hin as [->|[->|[->|[->|[]]]]]; lia. }
  destruct (for_each spring_step _ _) as [[[ispring [[o1 e1] f1]] eids]|e] eqn:Hloop;
    [|done].
  cbn [mbind result_bind] in Hrun.
  apply spring_loop_eids in Hloop. rewrite Hlast in Hloop. subst eids.
  cbn [from_option mbind result_bind] in Hrun.
  rewrite _store_spring_oes_strain in Hrun by done.
  cbn [mbind result_bind] in Hrun.
  rewrite _store_spring_oes_stress in Hrun by done.
  cbn [mbind result_bind] in Hrun.
  rewrite _store_spring_oef_rows in Hrun by done.
  injection Hrun as <-.
  unfold table_ids. cbn [celas_stress celas_strain spring_forces].
  rewrite !lookup_insert_eq. cbn [snd].
  eexists _, _, _. split_and!; try reflexivity; apply fst_zip_prefix.
Qed.
End SpringFacts.

Lemma run_sol_101_springs_ids_witness :
  ∃ t' strain_ids stress_ids force_ids,
    run_sol_101_springs no_spring_tables springs_celas1 springs_celas2
      (springs_none "CELAS3") (springs_none "CELAS4") 1 = Ok t' ∧
    table_ids (celas_strain t') 1 = Some strain_ids ∧
    table_ids (celas_stress t') 1 = Some stress_ids ∧
    table_ids (spring_forces t') 1 = Some force_ids ∧
    strain_ids `prefix_of` spring_element_id springs_celas2 ∧
    stress_ids `prefix_of` spring_element_id springs_celas2 ∧
    force_ids `prefix_of` spring_element_id springs_celas2.
Proof.
  destruct (run_sol_101_springs no_spring_tables springs_celas1 springs_celas2
              (springs_none "CELAS3") (springs_none "CELAS4") 1)
    as [t'|e] eqn:Hrun; [|by vm_compute in Hrun].
  destruct (run_sol_101_springs_ids no_spring_tables t' springs_celas1
              springs_celas2 (springs_none "CELAS3") (springs_none "CELAS4") 1
              springs_celas2 Hrun)
    as (a & b & c & Hw); [reflexivity | discriminate |].
  exists t', a, b, c. split; [reflexivity | exact Hw].
Defined.

(** ** Reconstruction with repeated constraint indices *)

Section ReconstructZero.
Context {R : Type} `{Float64 R}.

Lemma store_loop_const (idx : list Z) (vals : list R) (U0 : vector R)
    (w0 : list nat) (c : R) :
  length vals = length idx →
  Forall (λ iu, 0 ≤ iu < Z.of_nat (length U0)) idx →
  Forall (λ x, x = c) vals →
  ∃ U1,
    for_each (λ st '(iu, x), store st iu x) (zip idx vals) (U0, w0) =
      Ok (U1, w0 ++ (Z.to_nat <$> idx)) ∧
    length U1 = length U0 ∧
    (∀ i, i ∉ Z.to_nat <$> idx → U1 !! i = U0 !! i) ∧
    (∀ i, i ∈ Z.to_nat <$> idx → U1 !! i = Some c).
Proof.
  revert vals U0 w0. induction idx as [|iu idx IH]; intros vals U0 w0 Hlen Hin Hc.
  - exists U0. simpl. rewrite app_nil_r. split_and!; try done.
    intros i Hi. by apply elem_of_nil in Hi.
  - destruct vals as [|x vals]; [done|].
    apply Forall_cons in Hin as [Hiu Hin]. apply Forall_cons in Hc as [-> Hc].
    cbn [zip zip_with for_each].
    assert (store (U0, w0) iu c =
            Ok (<[Z.to_nat iu := c]> U0, w0 ++ [Z.to_nat iu])) as ->
      by (unfold store; cbn [fst snd]; by rewrite py_index_nonneg).
    cbn [mbind result_bind].
    destruct (IH vals (<[Z.to_nat iu := c]> U0) (w0 ++ [Z.to_nat iu]))
      as (U1 & HU1 & Hlen1 & Hout & Hget).
    { simpl in Hlen. lia. }
    { by rewrite length_insert. }
    { done. }
    exists U1. rewrite HU1. rewrite length_insert in Hlen1.
    split; [by rewrite <- app_assoc|]. split; [done|]. split.
    + intros i Hi. rewrite fmap_cons in Hi.
      apply not_elem_of_cons in Hi as [Hne Hi].
      rewrite Hout by done. by rewrite list_lookup_insert_ne.
    + intros i Hi. rewrite fmap_cons in Hi.
      destruct (decide (i ∈ Z.to_nat <$> idx)) as [Hrest|Hrest]; [by apply Hget|].
      apply elem_of_cons in Hi as [->|Hi]; [|done].
      rewrite Hout by done. apply list_lookup_insert_eq. lia.
Qed.

(** X19. The reconstruction does not need a duplicate-free [iUs] to give
    the constrained DOFs their value when all constraint values are 0.0
    (the only value [apply_SPCs] and the indexer store): every
    constrained position of [U] is 0.0, and the free positions, in
    increasing order, hold [Ua]. *)
Theorem reconstruct_constraints_zero (n : Z) (iUs_ : list Z) (Us_ Ua_ : list R) :
  0 ≤ n → Forall (λ iu, 0 ≤ iu < n) iUs_ →
  length Us_ = length iUs_ → Forall (λ x, x = zero) Us_ →
  length Ua_ = length (free_dofs (Z.to_nat n) iUs_) →
  ∃ U written,
    reconstruct n iUs_ Us_ Ua_ = Ok (U, written) ∧
    length U = Z.to_nat n ∧
    (∀ iu, iu ∈ iUs_ → U !! Z.to_nat iu = Some zero) ∧
    (∀ k iu, free_dofs (Z.to_nat n) iUs_ !! k = Some iu →
       U !! Z.to_nat iu = Ua_ !! k).
Proof.
  intros Hn Hin HUs Hzero HUa.
  pose proof (free_dofs_range n iUs_) as Hfr.
  unfold reconstruct. rewrite sorted_differenceZ, decide_False by lia.
  unfold free_dofs in *. rewrite Z2Nat.id in * by done.
  set (free := filter (λ i, i ∉ iUs_) (seqZ 0 n)) in *.
  unfold enumerate.
  rewrite (for_each_enumerate_zip iUs_ Us_ []) by done.
  destruct (store_loop_const iUs_ Us_ (zeros (Z.to_nat n)) [] zero)
    as (U1 & HU1 & Hl1 & Ho1 & Hg1); [done| |done|].
  { unfold zeros. rewrite length_replicate, Z2Nat.id by done. done. }
  rewrite HU1. cbn [mbind result_bind].
  rewrite (for_each_enumerate_zip free Ua_ []) by lia.
  unfold zeros in Hl1. rewrite length_replicate in Hl1.
  destruct (store_loop free Ua_ U1 ([] ++ (Z.to_nat <$> iUs_)))
    as (U2 & HU2 & Hl2 & Ho2 & Hg2).
  { lia. }
  { rewrite Hl1, Z2Nat.id by done. done. }
  rewrite HU2. eexists U2, _. split; [done|]. split; [lia|]. split.
  - intros iu Hiu. rewrite Ho2.
    + apply Hg1. apply list_elem_of_fmap. eauto.
    + intros (iu' & Heq & [Hni Hiu']%list_elem_of_filter)%list_elem_of_fmap.
      pose proof (proj1 (Forall_forall _ _) Hin iu Hiu) as Hr.
      apply elem_of_seqZ in Hiu'. simpl in Hr.
      assert (iu = iu') as -> by lia. done.
  - intros k iu Hk. apply Hg2; [|done].
    apply NoDup_filter, NoDup_seqZ.
Qed.
End ReconstructZero.

Lemma reconstruct_constraints_zero_witness :
  ∃ U written,
    reconstruct 4 [1; 3; 1] [0; 0; 0]%Q [5; 7]%Q = Ok (U, written) ∧
    length U = Z.to_nat 4 ∧
    (∀ iu, iu ∈ [1; 3; 1] → U !! Z.to_nat iu = Some zero) ∧
    (∀ k iu, free_dofs (Z.to_nat 4) [1; 3; 1] !! k = Some iu →
       U !! Z.to_nat iu = [5; 7]%Q !! k).
Proof.
  apply (reconstruct_constraints_zero (R := Q) 4 [1; 3; 1] [0; 0; 0]%Q [5; 7]%Q).
  - lia.
  - repeat constructor; lia.
  - reflexivity.
  - repeat constructor.
  - reflexivity.
Defined.
